(** * SolidLineMesh: displacement-aware picking of extruded line features

    Shallow embedding of [SolidLineMesh.ts] (harp-mapview): the per-feature
    bounding sphere ([computeBoundingSphere]), the entry point [raycast] with
    its temporary geometry substitution, [raycastImpl] and the per-segment
    test [featureIntersect].

    Numbers.  JavaScript numbers are idealised as real numbers: rounding
    and the infinities are outside the model.  The only place where the
    source relies on an infinity is [Box3.makeEmpty]; the empty box is a
    constructor of its own here.  NaN is modelled where well-formed input
    produces it: the quotient [0 / 0] that [Line3.closestPointToPoint]
    computes on a segment of zero length is [None], and the comparison
    [distSq > localThresholdSq] on it is false, as in JavaScript.

    three.js.  The vector, matrix, box, sphere, plane, ray and line
    operations the source calls are written out after the three.js sources
    (r11x), one definition per method, with the method's name. *)

From Stdlib Require Import Ascii String.
From Stdlib Require Import Reals Lra Psatz Lia List Arith Bool ZArith.
From Stdlib Require Import List.
Import ListNotations.
Open Scope R_scope.

(* ================================================================= *)
(** ** three.js: Vector3 *)

Record Vector3 := mkV3 { vx : R; vy : R; vz : R }.

Definition v3zero : Vector3 := mkV3 0 0 0.

Definition v3add (a b : Vector3) : Vector3 :=
  mkV3 (vx a + vx b) (vy a + vy b) (vz a + vz b).

Definition v3sub (a b : Vector3) : Vector3 :=
  mkV3 (vx a - vx b) (vy a - vy b) (vz a - vz b).

Definition multiplyScalar (a : Vector3) (s : R) : Vector3 :=
  mkV3 (vx a * s) (vy a * s) (vz a * s).

(** [divideScalar(s)] is [multiplyScalar(1 / s)]. *)
Definition divideScalar (a : Vector3) (s : R) : Vector3 :=
  multiplyScalar a (1 / s).

Definition v3min (a b : Vector3) : Vector3 :=
  mkV3 (Rmin (vx a) (vx b)) (Rmin (vy a) (vy b)) (Rmin (vz a) (vz b)).

Definition v3max (a b : Vector3) : Vector3 :=
  mkV3 (Rmax (vx a) (vx b)) (Rmax (vy a) (vy b)) (Rmax (vz a) (vz b)).

Definition dot (a b : Vector3) : R :=
  vx a * vx b + vy a * vy b + vz a * vz b.

Definition cross (a b : Vector3) : Vector3 :=
  mkV3 (vy a * vz b - vz a * vy b)
       (vz a * vx b - vx a * vz b)
       (vx a * vy b - vy a * vx b).

Definition lengthSq (a : Vector3) : R := dot a a.

Definition length3 (a : Vector3) : R := sqrt (lengthSq a).

Definition distanceToSquared (a b : Vector3) : R :=
  let dx := vx a - vx b in
  let dy := vy a - vy b in
  let dz := vz a - vz b in
  dx * dx + dy * dy + dz * dz.

Definition distanceTo (a b : Vector3) : R := sqrt (distanceToSquared a b).

(** [normalize()] is [divideScalar(length() || 1)]. *)
Definition normalize (a : Vector3) : Vector3 :=
  let l := length3 a in
  divideScalar a (if Req_dec_T l 0 then 1 else l).

(* ================================================================= *)
(** ** three.js: Matrix4 *)

(** Entries are named as in [Matrix4.set] (row, column); [elements] is the
    column-major array, so [te[0], te[1], te[2]] is the first column. *)
Record Matrix4 := mkM4 {
  n11 : R; n12 : R; n13 : R; n14 : R;
  n21 : R; n22 : R; n23 : R; n24 : R;
  n31 : R; n32 : R; n33 : R; n34 : R;
  n41 : R; n42 : R; n43 : R; n44 : R }.

Definition m4identity : Matrix4 :=
  mkM4 1 0 0 0
       0 1 0 0
       0 0 1 0
       0 0 0 1.


(** [Vector3.applyMatrix4]: the point is transformed and divided by the
    perspective component. *)
Definition applyMatrix4 (v : Vector3) (m : Matrix4) : Vector3 :=
  let w := 1 / (n41 m * vx v + n42 m * vy v + n43 m * vz v + n44 m) in
  mkV3 ((n11 m * vx v + n12 m * vy v + n13 m * vz v + n14 m) * w)
       ((n21 m * vx v + n22 m * vy v + n23 m * vz v + n24 m) * w)
       ((n31 m * vx v + n32 m * vy v + n33 m * vz v + n34 m) * w).

(** [Vector3.transformDirection]: upper 3x3 block, then [normalize]. *)
Definition transformDirection (v : Vector3) (m : Matrix4) : Vector3 :=
  normalize
    (mkV3 (n11 m * vx v + n12 m * vy v + n13 m * vz v)
          (n21 m * vx v + n22 m * vy v + n23 m * vz v)
          (n31 m * vx v + n32 m * vy v + n33 m * vz v)).

Definition getMaxScaleOnAxis (m : Matrix4) : R :=
  let scaleXSq := n11 m * n11 m + n21 m * n21 m + n31 m * n31 m in
  let scaleYSq := n12 m * n12 m + n22 m * n22 m + n32 m * n32 m in
  let scaleZSq := n13 m * n13 m + n23 m * n23 m + n33 m * n33 m in
  sqrt (Rmax (Rmax scaleXSq scaleYSq) scaleZSq).

(** [Matrix4.getInverse]: adjugate over determinant; a singular matrix
    yields the identity. *)
Definition getInverse (m : Matrix4) : Matrix4 :=
  let t11 := n23 m * n34 m * n42 m - n24 m * n33 m * n42 m + n24 m * n32 m * n43 m
             - n22 m * n34 m * n43 m - n23 m * n32 m * n44 m + n22 m * n33 m * n44 m in
  let t12 := n14 m * n33 m * n42 m - n13 m * n34 m * n42 m - n14 m * n32 m * n43 m
             + n12 m * n34 m * n43 m + n13 m * n32 m * n44 m - n12 m * n33 m * n44 m in
  let t13 := n13 m * n24 m * n42 m - n14 m * n23 m * n42 m + n14 m * n22 m * n43 m
             - n12 m * n24 m * n43 m - n13 m * n22 m * n44 m + n12 m * n23 m * n44 m in
  let t14 := n14 m * n23 m * n32 m - n13 m * n24 m * n32 m - n14 m * n22 m * n33 m
             + n12 m * n24 m * n33 m + n13 m * n22 m * n34 m - n12 m * n23 m * n34 m in
  let det := n11 m * t11 + n21 m * t12 + n31 m * t13 + n41 m * t14 in
  if Req_dec_T det 0 then m4identity else
  let detInv := 1 / det in
  mkM4
    (t11 * detInv) (t12 * detInv) (t13 * detInv) (t14 * detInv)
    ((n24 m * n33 m * n41 m - n23 m * n34 m * n41 m - n24 m * n31 m * n43 m
      + n21 m * n34 m * n43 m + n23 m * n31 m * n44 m - n21 m * n33 m * n44 m) * detInv)
    ((n13 m * n34 m * n41 m - n14 m * n33 m * n41 m + n14 m * n31 m * n43 m
      - n11 m * n34 m * n43 m - n13 m * n31 m * n44 m + n11 m * n33 m * n44 m) * detInv)
    ((n14 m * n23 m * n41 m - n13 m * n24 m * n41 m - n14 m * n21 m * n43 m
      + n11 m * n24 m * n43 m + n13 m * n21 m * n44 m - n11 m * n23 m * n44 m) * detInv)
    ((n13 m * n24 m * n31 m - n14 m * n23 m * n31 m + n14 m * n21 m * n33 m
      - n11 m * n24 m * n33 m - n13 m * n21 m * n34 m + n11 m * n23 m * n34 m) * detInv)
    ((n22 m * n34 m * n41 m - n24 m * n32 m * n41 m + n24 m * n31 m * n42 m
      - n21 m * n34 m * n42 m - n22 m * n31 m * n44 m + n21 m * n32 m * n44 m) * detInv)
    ((n14 m * n32 m * n41 m - n12 m * n34 m * n41 m - n14 m * n31 m * n42 m
      + n11 m * n34 m * n42 m + n12 m * n31 m * n44 m - n11 m * n32 m * n44 m) * detInv)
    ((n12 m * n24 m * n41 m - n14 m * n22 m * n41 m + n14 m * n21 m * n42 m
      - n11 m * n24 m * n42 m - n12 m * n21 m * n44 m + n11 m * n22 m * n44 m) * detInv)
    ((n14 m * n22 m * n31 m - n12 m * n24 m * n31 m - n14 m * n21 m * n32 m
      + n11 m * n24 m * n32 m + n12 m * n21 m * n34 m - n11 m * n22 m * n34 m) * detInv)
    ((n23 m * n32 m * n41 m - n22 m * n33 m * n41 m - n23 m * n31 m * n42 m
      + n21 m * n33 m * n42 m + n22 m * n31 m * n43 m - n21 m * n32 m * n43 m) * detInv)
    ((n12 m * n33 m * n41 m - n13 m * n32 m * n41 m + n13 m * n31 m * n42 m
      - n11 m * n33 m * n42 m - n12 m * n31 m * n43 m + n11 m * n32 m * n43 m) * detInv)
    ((n13 m * n22 m * n41 m - n12 m * n23 m * n41 m - n13 m * n21 m * n42 m
      + n11 m * n23 m * n42 m + n12 m * n21 m * n43 m - n11 m * n22 m * n43 m) * detInv)
    ((n12 m * n23 m * n31 m - n13 m * n22 m * n31 m + n13 m * n21 m * n32 m
      - n11 m * n23 m * n32 m - n12 m * n21 m * n33 m + n11 m * n22 m * n33 m) * detInv).

(* ================================================================= *)
(** ** three.js: Box3, Sphere, Plane, Ray, Line3 *)

(** [Box3.makeEmpty] sets min to +inf and max to -inf; every later
    [expandByPoint], [translate] and [union] keeps such a box empty or
    replaces it, so the empty box is [EmptyBox]. *)
Inductive Box3 :=
| EmptyBox
| Box (bmin bmax : Vector3).

Definition makeEmpty : Box3 := EmptyBox.

Definition expandByPoint (b : Box3) (p : Vector3) : Box3 :=
  match b with
  | EmptyBox => Box p p
  | Box mn mx => Box (v3min mn p) (v3max mx p)
  end.

Definition translate (b : Box3) (offset : Vector3) : Box3 :=
  match b with
  | EmptyBox => EmptyBox
  | Box mn mx => Box (v3add mn offset) (v3add mx offset)
  end.

Definition union (a b : Box3) : Box3 :=
  match a, b with
  | EmptyBox, _ => b
  | _, EmptyBox => a
  | Box mn mx, Box mn' mx' => Box (v3min mn mn') (v3max mx mx')
  end.

(** [Box3.isEmpty]: [max.x < min.x || max.y < min.y || max.z < min.z]. *)
Definition isEmpty (b : Box3) : bool :=
  match b with
  | EmptyBox => true
  | Box mn mx =>
      if Rlt_dec (vx mx) (vx mn) then true
      else if Rlt_dec (vy mx) (vy mn) then true
      else if Rlt_dec (vz mx) (vz mn) then true
      else false
  end.

Definition getCenter (b : Box3) : Vector3 :=
  match b with
  | EmptyBox => v3zero
  | Box mn mx => if isEmpty b then v3zero else multiplyScalar (v3add mn mx) (1 / 2)
  end.

Definition getSize (b : Box3) : Vector3 :=
  match b with
  | EmptyBox => v3zero
  | Box mn mx => if isEmpty b then v3zero else v3sub mx mn
  end.

Record Sphere := mkSphere { center : Vector3; radius : R }.

(** [Box3.getBoundingSphere]: the box's centre and half its diagonal. *)
Definition getBoundingSphere (b : Box3) : Sphere :=
  mkSphere (getCenter b) (length3 (getSize b) * (1 / 2)).

(** [Sphere.applyMatrix4]. *)
Definition sphereApplyMatrix4 (s : Sphere) (m : Matrix4) : Sphere :=
  mkSphere (applyMatrix4 (center s) m) (radius s * getMaxScaleOnAxis m).

Record Plane := mkPlane { pnormal : Vector3; pconstant : R }.

(** [Plane.setFromCoplanarPoints(a, b, c)]. *)
Definition setFromCoplanarPoints (a b c : Vector3) : Plane :=
  let normal := normalize (cross (v3sub c b) (v3sub a b)) in
  mkPlane normal (- dot a normal).

Definition planeDistanceToPoint (p : Plane) (pt : Vector3) : R :=
  dot (pnormal p) pt + pconstant p.

Record Ray := mkRay { origin : Vector3; direction : Vector3 }.

Definition rayApplyMatrix4 (r : Ray) (m : Matrix4) : Ray :=
  mkRay (applyMatrix4 (origin r) m) (transformDirection (direction r) m).

Definition rayAt (r : Ray) (t : R) : Vector3 :=
  v3add (multiplyScalar (direction r) t) (origin r).

Definition distanceSqToPoint (r : Ray) (point : Vector3) : R :=
  let directionDistance := dot (v3sub point (origin r)) (direction r) in
  if Rlt_dec directionDistance 0
  then distanceToSquared (origin r) point
  else distanceToSquared (rayAt r directionDistance) point.

Definition intersectsSphere (r : Ray) (s : Sphere) : bool :=
  if Rle_dec (distanceSqToPoint r (center s)) (radius s * radius s)
  then true else false.

(** [Ray.distanceToPlane]: [null] is [None]. *)
Definition distanceToPlane (r : Ray) (p : Plane) : option R :=
  let denominator := dot (pnormal p) (direction r) in
  if Req_dec_T denominator 0 then
    if Req_dec_T (planeDistanceToPoint p (origin r)) 0 then Some 0 else None
  else
    let t := - (dot (origin r) (pnormal p) + pconstant p) / denominator in
    if Rle_dec 0 t then Some t else None.

Definition intersectPlane (r : Ray) (p : Plane) : option Vector3 :=
  match distanceToPlane r p with
  | None => None
  | Some t => Some (rayAt r t)
  end.

Record Line3 := mkLine3 { lstart : Vector3; lend : Vector3 }.

(** [Line3.closestPointToPointParameter].  On a line of zero length the
    quotient is [0 / 0], NaN in JavaScript, and [Math.max(0, Math.min(1, t))]
    keeps it; [None] is that NaN. *)
Definition closestPointToPointParameter (l : Line3) (point : Vector3)
    (clampToLine : bool) : option R :=
  let startP := v3sub point (lstart l) in
  let startEnd := v3sub (lend l) (lstart l) in
  let startEnd2 := dot startEnd startEnd in
  let startEnd_startP := dot startEnd startP in
  if Req_dec_T startEnd2 0 then None
  else
    let t := startEnd_startP / startEnd2 in
    Some (if clampToLine then Rmax 0 (Rmin 1 t) else t).

(** [Line3.closestPointToPoint]; [None] is the vector whose components are
    NaN. *)
Definition closestPointToPoint (l : Line3) (point : Vector3)
    (clampToLine : bool) : option Vector3 :=
  match closestPointToPointParameter l point clampToLine with
  | Some t => Some (v3add (multiplyScalar (v3sub (lend l) (lstart l)) t) (lstart l))
  | None => None
  end.

Definition line3ApplyMatrix4 (l : Line3) (m : Matrix4) : Line3 :=
  mkLine3 (applyMatrix4 (lstart l) m) (applyMatrix4 (lend l) m).

(* ================================================================= *)
(** ** Buffers *)

Record Vector2 := mkV2 { ux : R; uy : R }.

(** A [THREE.DataTexture] used as displacement map: the scalar field it
    holds, sampled by texture coordinate. *)
Record DataTexture := mkDataTexture { sampleAt : Vector2 -> R }.

(** Vertex attributes.  [PlainAttribute] is a [THREE.BufferAttribute] of
    item size 3.

    Modelled from the spec: [DisplacedBufferAttribute] is not part of the
    sources at hand.  The spec (4.1) gives its contract: the displaced
    position of vertex [i] is
    [basePosition + baseNormal * sample(displacementSource, baseUV i)], and
    [reset] rebinds the four inputs. *)
Inductive BufferAttribute :=
| PlainAttribute (data : list Vector3)
| DisplacedAttribute (basePosition : BufferAttribute) (baseNormal : list Vector3)
                     (baseUv : list Vector2) (map : DataTexture).

(** Reading a plain attribute.  An index past the end reads [undefined] in
    JavaScript and poisons the vector with NaN; the model reads zero there
    and the theorems that depend on the value assume indices in range. *)
Definition readV3 (data : list Vector3) (i : nat) : Vector3 := nth i data v3zero.

Definition readV2 (data : list Vector2) (i : nat) : Vector2 := nth i data (mkV2 0 0).

(** [Vector3.fromBufferAttribute(attribute, index)]. *)
Fixpoint fromBufferAttribute (a : BufferAttribute) (i : nat) : Vector3 :=
  match a with
  | PlainAttribute data => readV3 data i
  | DisplacedAttribute pos nrm uv map =>
      v3add (fromBufferAttribute pos i)
            (multiplyScalar (readV3 nrm i) (sampleAt map (readV2 uv i)))
  end.

(** [indices[i]] of the index array. *)
Definition indexAt (indices : list nat) (i : nat) : nat := nth i indices 0%nat.

Record DisplacementRange := mkRange { rmin : R; rmax : R }.

(* ================================================================= *)
(** ** computeBoundingSphere *)

(** Two triangles per segment. *)
Definition step : nat := 6.

(** The values taken by [i] in [for (let i = beginIdx; i < endIdx; i += step)].
    [fuel] bounds the number of iterations; [endIdx - beginIdx] is always
    enough ([strideLoop_fuel]). *)
Fixpoint strideLoop (fuel i endIdx : nat) : list nat :=
  match fuel with
  | O => []
  | S fuel' => if (i <? endIdx)%nat then i :: strideLoop fuel' (i + step) endIdx else []
  end.

Definition segmentStarts (beginIdx endIdx : nat) : list nat :=
  strideLoop (endIdx - beginIdx) beginIdx endIdx.

(** The vertices read by the first loop, in order. *)
Definition sampledVertices (position : BufferAttribute) (indices : list nat)
    (beginIdx endIdx : nat) : list Vector3 :=
  map (fun i => fromBufferAttribute position (indexAt indices i))
      (segmentStarts beginIdx endIdx).

(** [tmpBox1] after the first loop. *)
Definition sampledBox (position : BufferAttribute) (indices : list nat)
    (beginIdx endIdx : nat) : Box3 :=
  fold_left expandByPoint (sampledVertices position indices beginIdx endIdx) makeEmpty.

(** [maxRadiusSq] after the second loop. *)
Definition maxRadiusSqFrom (c : Vector3) (vs : list Vector3) : R :=
  fold_left (fun acc v => Rmax acc (distanceToSquared c v)) vs 0.

Definition computeBoundingSphere (position : BufferAttribute) (indices : list nat)
    (beginIdx endIdx : nat) (normal : Vector3)
    (displacementRange : option DisplacementRange) : Sphere :=
  let tmpBox1 := sampledBox position indices beginIdx endIdx in
  match displacementRange with
  | Some range =>
      let minDispl := multiplyScalar normal (rmin range) in
      let maxDispl := multiplyScalar normal (rmax range) in
      let tmpBox2 := translate tmpBox1 minDispl in
      getBoundingSphere (union tmpBox2 (translate tmpBox1 maxDispl))
  | None =>
      let c := getCenter tmpBox1 in
      let maxRadiusSq :=
        maxRadiusSqFrom c (sampledVertices position indices beginIdx endIdx) in
      mkSphere c (sqrt maxRadiusSq)
  end.

(* ================================================================= *)
(** ** Objects: materials, geometries, the mesh *)

(** A texture is a [THREE.DataTexture] or some other [THREE.Texture]. *)
Inductive Texture :=
| IsDataTexture (t : DataTexture)
| OtherTexture.

(** The material, read-only for the raycast.

    Modelled from the spec: [hasDisplacementFeature] (harp-materials) is not
    part of the sources at hand; the spec (section 6) describes it as a
    boolean capability of the material, a field here. *)
Record Material := mkMaterial {
  lineWidth : R;
  outlineWidth : R;
  hasDisplacementFeature : bool;
  displacementMap : option Texture }.

(** One entry of [geometry.userData.debug]. *)
Record DebugEntry := mkDebug { dline : Line3; dray : Ray; dlength : R }.

(** What a [THREE.BufferGeometry] holds for the raycast: the index (or
    [null]), the four attributes and [userData.debug] ([None] while the
    property is absent). *)
Record BufferGeometry := mkBufferGeometry {
  index : option (list nat);
  position : BufferAttribute;
  normal : list Vector3;
  uv : list Vector2;
  bitangent : list Vector3;
  debug : option (list DebugEntry) }.

(** Geometries live in a heap and are referred to by address. *)
Definition GeometryRef := nat.

(** Modelled from the spec: [DisplacedBufferGeometry] is not part of the
    sources at hand.  By the spec (4.2) it is a buffer geometry that passes
    the base geometry's index through, answers positions through the
    displaced attribute, and exposes [originalGeometry] and
    [displacementRange]; building or resetting it leaves the base geometry
    untouched.  The remaining attributes are passed through as well, since
    [raycastImpl] reads [normal] and [bitangent] from the active geometry. *)
Record DisplacedView := mkView {
  originalGeometry : GeometryRef;
  viewMap : DataTexture;
  displacementRange : DisplacementRange }.

Inductive GeometryObject :=
| LegacyGeometry
| BufferGeom (g : BufferGeometry) (view : option DisplacedView).

(** [this.userData.feature]. *)
Record Feature := mkFeature {
  starts : option (list nat);
  boundingVolumes : option (list Sphere) }.

Record SolidLineMesh := mkMesh {
  meshId : nat;
  geometry : GeometryRef;
  material : Material;
  matrixWorld : Matrix4;
  scale : Vector3;
  m_getDisplacementRange : DisplacementRange;
  m_displacedGeometry : option GeometryRef;
  feature : option Feature }.

(** The state a raycast can touch: the heap of geometries, the static
    field [SolidLineMesh.displacedPositions] and the mesh. *)
Record World := mkWorld {
  heap : list GeometryObject;
  displacedPositions : option BufferAttribute;
  mesh : SolidLineMesh }.

Record Raycaster := mkRaycaster { ray : Ray; near : R; far : R }.

(** A [THREE.Intersection] as pushed by [featureIntersect]; [face] is
    [null] and [faceIndex] is [undefined] in every record. *)
Record Intersection := mkIntersection {
  distance : R;
  point : Vector3;
  iindex : nat;
  object : nat }.

(** How a call ends. *)
Inductive Completion :=
| Returned
| Thrown.

Definition lookupGeometry (h : list GeometryObject) (r : GeometryRef) : option GeometryObject :=
  nth_error h r.

Fixpoint storeGeometry (h : list GeometryObject) (r : GeometryRef) (o : GeometryObject)
    : list GeometryObject :=
  match h, r with
  | [], _ => []
  | _ :: t, O => o :: t
  | x :: t, S r' => x :: storeGeometry t r' o
  end.

Definition setMeshGeometry (w : World) (r : GeometryRef) : World :=
  let m := mesh w in
  mkWorld (heap w) (displacedPositions w)
    (mkMesh (meshId m) r (material m) (matrixWorld m) (scale m)
            (m_getDisplacementRange m) (m_displacedGeometry m) (feature m)).

(* ================================================================= *)
(** ** featureIntersect *)

(** One turn of the segment loop of [featureIntersect], for the segment that
    starts at index position [i]: [None] when one of the three [continue]s
    is taken, otherwise the debug entry and the intersection record that are
    pushed.  [missesWidth] is the test [distSq > localThresholdSq]; it is
    false when the closest point, and with it [distSq], is NaN.  [tmpRay] is
    the module-level ray that [raycastImpl] has moved to local space. *)
Definition segmentIntersect (m : SolidLineMesh) (g : BufferGeometry) (indices : list nat)
    (raycaster : Raycaster) (tmpRay : Ray) (threshold localThresholdSq : R) (i : nat)
    : option (DebugEntry * Intersection) :=
  let a := indexAt indices i in
  let b := indexAt indices (i + 2) in
  let vStart := fromBufferAttribute (position g) a in
  let vEnd := fromBufferAttribute (position g) b in
  let vExtrusion := readV3 (bitangent g) a in
  let plane := setFromCoplanarPoints vStart (v3add vStart vExtrusion) vEnd in
  match intersectPlane tmpRay plane with
  | None => None
  | Some interPlane =>
      let line := mkLine3 vStart vEnd in
      let closestCenterLinePoint := closestPointToPoint line interPlane true in
      let missesWidth :=
        match closestCenterLinePoint with
        | Some c =>
            let distSq := distanceToSquared interPlane c in
            if Rlt_dec localThresholdSq distSq then true else false
        | None => false
        end in
      if missesWidth then None else
      let interLineWorld := applyMatrix4 interPlane (matrixWorld m) in
      let dist := distanceTo (origin (ray raycaster)) interLineWorld in
      if Rlt_dec dist (near raycaster) then None
      else if Rlt_dec (far raycaster) dist then None
      else
        Some (mkDebug (line3ApplyMatrix4 line (matrixWorld m))
                      (mkRay interLineWorld (transformDirection vExtrusion (matrixWorld m)))
                      threshold,
              mkIntersection dist interLineWorld i (meshId m))
  end.

(** The two arrays the segment loop pushes to: [geometry.userData.debug] and
    the caller's [intersects]. *)
Definition Sinks := (list DebugEntry * list Intersection)%type.

Definition pushSegment (m : SolidLineMesh) (g : BufferGeometry) (indices : list nat)
    (raycaster : Raycaster) (tmpRay : Ray) (threshold localThresholdSq : R)
    (st : Sinks) (i : nat) : Sinks :=
  match segmentIntersect m g indices raycaster tmpRay threshold localThresholdSq i with
  | None => st
  | Some (d, r) => (fst st ++ [d], snd st ++ [r])
  end.

Definition featureIntersect (m : SolidLineMesh) (g : BufferGeometry) (indices : list nat)
    (raycaster : Raycaster) (tmpRay : Ray) (threshold localThresholdSq : R)
    (beginIdx endIdx : nat) (bSphere : Sphere) (st : Sinks) : Sinks :=
  let s := sphereApplyMatrix4 bSphere (matrixWorld m) in
  let tmpSphere := mkSphere (center s) (radius s + threshold) in
  if negb (intersectsSphere (ray raycaster) tmpSphere) then st
  else
    fold_left (pushSegment m g indices raycaster tmpRay threshold localThresholdSq)
              (segmentStarts beginIdx endIdx) st.

(* ================================================================= *)
(** ** raycastImpl *)

(** Modelled from the spec: [assert] (harp-utils) is not part of the sources
    at hand.  The spec (sections 4.4 and 7) calls it an abort-style
    assertion; the source nevertheless writes [return] after [assert(false)],
    for builds in which assertions are compiled out.  [assertThrows] selects
    between the two: with [true] a failed assertion throws, with [false] it
    does nothing and the [return] that follows is taken. *)
Definition assertFalse (assertThrows : bool) : Completion :=
  if assertThrows then Thrown else Returned.

(** [threshold / ((this.scale.x + this.scale.y + this.scale.z) / 3)].  For
    a scale whose components sum to zero the quotient is an infinity or NaN
    in JavaScript, outside the model of numbers; the theorem on the local
    threshold assumes a non-zero sum. *)
Definition localThresholdOf (m : SolidLineMesh) (threshold : R) : R :=
  threshold / ((vx (scale m) + vy (scale m) + vz (scale m)) / 3).

Definition zeroSphere : Sphere := mkSphere v3zero 0.

(** State of the feature loop: the cache [bVolumes] and the two sinks. *)
Definition LoopState := (list Sphere * Sinks)%type.

(** One turn of the feature loop of [raycastImpl]. *)
Definition featureStep (m : SolidLineMesh) (g : BufferGeometry) (indices : list nat)
    (raycaster : Raycaster) (tmpRay : Ray) (threshold localThresholdSq : R)
    (featureStarts : list nat) (tmpNormal : Vector3)
    (displacementRange : option DisplacementRange)
    (st : LoopState) (i : nat) : LoopState :=
  let len := List.length featureStarts in
  let beginIdx := nth i featureStarts 0%nat in
  let endIdx := if (i =? len - 1)%nat then List.length indices
                else nth (i + 1) featureStarts 0%nat in
  let bVolumes := fst st in
  let bVolumes' :=
    if (List.length bVolumes <=? i)%nat
    then bVolumes ++ [computeBoundingSphere (position g) indices beginIdx endIdx
                                            tmpNormal displacementRange]
    else bVolumes in
  (bVolumes',
   featureIntersect m g indices raycaster tmpRay threshold localThresholdSq
                    beginIdx endIdx (nth i bVolumes' zeroSphere) (snd st)).

Definition setFeature (w : World) (f : Feature) : World :=
  let m := mesh w in
  mkWorld (heap w) (displacedPositions w)
    (mkMesh (meshId m) (geometry m) (material m) (matrixWorld m) (scale m)
            (m_getDisplacementRange m) (m_displacedGeometry m) (Some f)).

Definition setDebug (g : BufferGeometry) (d : list DebugEntry) : BufferGeometry :=
  mkBufferGeometry (index g) (position g) (normal g) (uv g) (bitangent g) (Some d).

Definition geomRefEqb (r : GeometryRef) (o : option GeometryRef) : bool :=
  match o with
  | Some r' => (r =? r')%nat
  | None => false
  end.

Definition raycastImpl (assertThrows : bool) (w : World) (raycaster : Raycaster)
    (intersects : list Intersection) : World * list Intersection * Completion :=
  let m := mesh w in
  let threshold := lineWidth (material m) + outlineWidth (material m) in
  let tmpInverseMatrix := getInverse (matrixWorld m) in
  let tmpRay := rayApplyMatrix4 (ray raycaster) tmpInverseMatrix in
  let localThreshold := localThresholdOf m threshold in
  let localThresholdSq := localThreshold * localThreshold in
  match lookupGeometry (heap w) (geometry m) with
  | Some (BufferGeom g view) =>
      match index g with
      | None => (w, intersects, assertFalse assertThrows)
      | Some indices =>
          let starts0 := match feature m with Some f => starts f | None => None end in
          let featureStarts := match starts0 with Some s => s | None => [0%nat] end in
          let bVolumes :=
            match feature m with
            | Some f => match boundingVolumes f with Some b => b | None => [] end
            | None => []
            end in
          let tmpNormal := readV3 (normal g) 0 in
          let displacementRange :=
            if geomRefEqb (geometry m) (m_displacedGeometry m)
            then option_map displacementRange view
            else None in
          let '(bVolumes', (debug', intersects')) :=
            fold_left (featureStep m g indices raycaster tmpRay threshold localThresholdSq
                                   featureStarts tmpNormal displacementRange)
                      (seq 0 (List.length featureStarts))
                      (bVolumes, ([], intersects)) in
          let h' := storeGeometry (heap w) (geometry m) (BufferGeom (setDebug g debug') view) in
          (setFeature (mkWorld h' (displacedPositions w) m) (mkFeature starts0 (Some bVolumes')),
           intersects', Returned)
      end
  | _ => (w, intersects, assertFalse assertThrows)
  end.

(* ================================================================= *)
(** ** raycast *)

Definition setDisplacedGeometry (w : World) (h : list GeometryObject)
    (attr : BufferAttribute) (d : GeometryRef) : World :=
  let m := mesh w in
  mkWorld h (Some attr)
    (mkMesh (meshId m) (geometry m) (material m) (matrixWorld m) (scale m)
            (m_getDisplacementRange m) (Some d) (feature m)).

(** [userData.debug] of the object at [r], when it is a buffer geometry. *)
Definition debugAt (h : list GeometryObject) (r : GeometryRef) : option (list DebugEntry) :=
  match lookupGeometry h r with
  | Some (BufferGeom g _) => debug g
  | _ => None
  end.

(** [this.m_displacedGeometry.originalGeometry]. *)
Definition originalGeometryAt (h : list GeometryObject) (d : GeometryRef)
    (otherwise : GeometryRef) : GeometryRef :=
  match lookupGeometry h d with
  | Some (BufferGeom _ (Some v)) => originalGeometry v
  | _ => otherwise
  end.

(** The displaced geometry over base geometry [g] at address [base]: index
    and attributes of [g], positions through the displaced attribute, and
    a [userData] of its own.  The displaced attribute is the one object held
    in [SolidLineMesh.displacedPositions]; it is rebound whenever the view is
    built or reset, so the view's [position] and the static field agree. *)
Definition displacedGeometryOver (base : GeometryRef) (g : BufferGeometry)
    (map : DataTexture) (range : DisplacementRange)
    (ownDebug : option (list DebugEntry)) : GeometryObject :=
  BufferGeom
    (mkBufferGeometry (index g)
       (DisplacedAttribute (position g) (normal g) (uv g) map)
       (normal g) (uv g) (bitangent g) ownDebug)
    (Some (mkView base map range)).

(** The test that sends [raycast] down the displaced path: the geometry is
    a buffer geometry, the material has the displacement feature, and its
    displacement map is a data texture. *)
Definition displacedPath (w : World) : option (BufferGeometry * DataTexture) :=
  match lookupGeometry (heap w) (geometry (mesh w)) with
  | Some (BufferGeom g _) =>
      if hasDisplacementFeature (material (mesh w)) then
        match displacementMap (material (mesh w)) with
        | Some (IsDataTexture map) => Some (g, map)
        | _ => None
        end
      else None
  | _ => None
  end.

(** The state in which [raycast] calls [raycastImpl] on the displaced path,
    and the address of the displaced geometry. *)
Definition substituteGeometry (w : World) (g : BufferGeometry) (map : DataTexture)
    : World * GeometryRef :=
  let m := mesh w in
  let range := m_getDisplacementRange m in
  let attr := DisplacedAttribute (position g) (normal g) (uv g) map in
  match m_displacedGeometry m with
  | Some d =>
      let h := storeGeometry (heap w) d
                 (displacedGeometryOver (geometry m) g map range (debugAt (heap w) d)) in
      (setMeshGeometry (setDisplacedGeometry w h attr d) d, d)
  | None =>
      let d := List.length (heap w) in
      let h := heap w ++ [displacedGeometryOver (geometry m) g map range None] in
      (setMeshGeometry (setDisplacedGeometry w h attr d) d, d)
  end.

Definition raycast (assertThrows : bool) (w : World) (raycaster : Raycaster)
    (intersects : list Intersection) : World * list Intersection * Completion :=
  match displacedPath w with
  | None => raycastImpl assertThrows w raycaster intersects
  | Some (g, map) =>
      let '(w1, d) := substituteGeometry w g map in
      let '(w2, intersects', c) := raycastImpl assertThrows w1 raycaster intersects in
      match c with
      | Thrown => (w2, intersects', Thrown)
      | Returned =>
          (setMeshGeometry w2 (originalGeometryAt (heap w2) d (geometry (mesh w2))),
           intersects', Returned)
      end
  end.

(* ================================================================= *)
(** ** Reference definitions, following the spec's wording *)




(** A point lies in a sphere when its distance from the centre is at most
    the radius. *)
Definition inSphere (s : Sphere) (p : Vector3) : Prop :=
  distanceTo (center s) p <= radius s.




(* ================================================================= *)
(** ** The feature ranges of raycastImpl *)

(** [beginIdx] and [endIdx] of feature [i], as the feature loop of
    [raycastImpl] computes them from [featureStarts] and [indices.length]. *)
Definition featureRange (featureStarts : list nat) (indicesLength i : nat) : nat * nat :=
  (nth i featureStarts 0%nat,
   if (i =? List.length featureStarts - 1)%nat then indicesLength
   else nth (i + 1) featureStarts 0%nat).

(** The index positions the segment loops visit over all features, in the
    order the feature loop runs. *)
Definition visitedSegments (featureStarts : list nat) (indicesLength : nat) : list nat :=
  flat_map (fun i => segmentStarts (fst (featureRange featureStarts indicesLength i))
                                   (snd (featureRange featureStarts indicesLength i)))
           (seq 0 (List.length featureStarts)).

(** A list of feature starts as the mesh owner supplies it: ascending
    multiples of the segment stride, none beyond the index array. *)
Fixpoint ascendingStarts (prev : nat) (starts : list nat) (indicesLength : nat) : Prop :=
  match starts with
  | [] => (prev <= indicesLength)%nat
  | s :: rest =>
      (exists k, s = prev + step * k)%nat /\ ascendingStarts s rest indicesLength
  end.

(* ================================================================= *)
(** ** Affine world transforms *)

(** The determinant as [Matrix4.getInverse] computes it. *)
Definition determinantOf (m : Matrix4) : R :=
  let t11 := n23 m * n34 m * n42 m - n24 m * n33 m * n42 m + n24 m * n32 m * n43 m
             - n22 m * n34 m * n43 m - n23 m * n32 m * n44 m + n22 m * n33 m * n44 m in
  let t12 := n14 m * n33 m * n42 m - n13 m * n34 m * n42 m - n14 m * n32 m * n43 m
             + n12 m * n34 m * n43 m + n13 m * n32 m * n44 m - n12 m * n33 m * n44 m in
  let t13 := n13 m * n24 m * n42 m - n14 m * n23 m * n42 m + n14 m * n22 m * n43 m
             - n12 m * n24 m * n43 m - n13 m * n22 m * n44 m + n12 m * n23 m * n44 m in
  let t14 := n14 m * n23 m * n32 m - n13 m * n24 m * n32 m - n14 m * n22 m * n33 m
             + n12 m * n24 m * n33 m + n13 m * n22 m * n34 m - n12 m * n23 m * n34 m in
  n11 m * t11 + n21 m * t12 + n31 m * t13 + n41 m * t14.

(** A world matrix composed from position, rotation and scale has the last
    row (0, 0, 0, 1). *)
Definition isAffine (m : Matrix4) : Prop :=
  n41 m = 0 /\ n42 m = 0 /\ n43 m = 0 /\ n44 m = 1.

(* ================================================================= *)
(** ** The tile-tree visit (OrientedBox3 test) *)

Record TileKey := mkTileKey { row : nat; column : nat; level : nat }.

(** [visit(tilingScheme, accept, tileKey)]: [accept] is a closure over
    mutable state, here a function on a state of type [St] that returns its
    verdict with the new state.  The source recurses without bound; [fuel]
    bounds the depth of the recursion and [None] says the bound was hit.
    [getSubTileKeys] stands for [tilingScheme.getSubTileKeys]. *)
Fixpoint visit {St : Type} (fuel : nat) (getSubTileKeys : TileKey -> list TileKey)
    (accept : TileKey -> St -> bool * St) (tileKey : TileKey) (s : St) : option St :=
  match fuel with
  | O => None
  | S fuel' =>
      let (goOn, s1) := accept tileKey s in
      if goOn then
        fold_left
          (fun acc childTileKey =>
             match acc with
             | Some s' => visit fuel' getSubTileKeys accept childTileKey s'
             | None => None
             end)
          (getSubTileKeys tileKey) (Some s1)
      else Some s1
  end.

(** The closure [visitTile] of [GlobeControls.getVisibleTiles], with
    [visibleTiles] as its state.  [intersectsFrustum tileKey] stands for
    [obb.intersects(this.frustum)] on the oriented box projected from the
    tile's geo box ([OrientedBox3] and the projection are not part of the
    sources at hand). *)
Definition visitTile (intersectsFrustum : TileKey -> bool) (storageLevel : nat)
    (tileKey : TileKey) (visibleTiles : list TileKey) : bool * list TileKey :=
  if negb (intersectsFrustum tileKey) then (false, visibleTiles)
  else
    ((level tileKey <? storageLevel)%nat,
     if (level tileKey =? storageLevel)%nat then visibleTiles ++ [tileKey]
     else visibleTiles).

(** [GlobeControls.getVisibleTiles(tilingScheme, level)]: the visit starts
    at the root tile [TileKey(0, 0, 0)] with an empty list. *)
Definition getVisibleTiles (fuel : nat) (getSubTileKeys : TileKey -> list TileKey)
    (intersectsFrustum : TileKey -> bool) (storageLevel : nat) : option (list TileKey) :=
  visit fuel getSubTileKeys (visitTile intersectsFrustum storageLevel)
        (mkTileKey 0 0 0) [].

(** Tile [t] is reported from the subtree of [r]: every tile on the way
    from [r] down to [t] meets the frustum, [t] is at the storage level and
    the tiles above it are at lower levels. *)
Inductive Reported (getSubTileKeys : TileKey -> list TileKey)
    (intersectsFrustum : TileKey -> bool) (storageLevel : nat)
    : TileKey -> TileKey -> Prop :=
| Reported_here (t : TileKey) :
    intersectsFrustum t = true -> level t = storageLevel ->
    Reported getSubTileKeys intersectsFrustum storageLevel t t
| Reported_below (r c t : TileKey) :
    intersectsFrustum r = true -> (level r < storageLevel)%nat ->
    In c (getSubTileKeys r) ->
    Reported getSubTileKeys intersectsFrustum storageLevel c t ->
    Reported getSubTileKeys intersectsFrustum storageLevel r t.

(** The four children of a tile in a quadtree tiling scheme, one level
    down. *)
Definition quadtreeSubTileKeys (t : TileKey) : list TileKey :=
  [mkTileKey (2 * row t) (2 * column t) (S (level t));
   mkTileKey (2 * row t) (2 * column t + 1) (S (level t));
   mkTileKey (2 * row t + 1) (2 * column t) (S (level t));
   mkTileKey (2 * row t + 1) (2 * column t + 1) (S (level t))]%nat.

(* ================================================================= *)
(** ** GlobeControls.set (OrientedBox3 test) *)

(** [GeoCoordinates]: the altitude may be [undefined]. *)
Record GeoCoordinates := mkGeoCoordinates {
  latitude : R;
  longitude : R;
  altitude : option R }.

(** What [set] leaves in the camera as far as position and clip planes go;
    orientation, projection matrix and frustum are derived from these by
    three.js and are not modelled. *)
Record CameraPlacement := mkCameraPlacement {
  cameraPosition : Vector3;
  cameraNear : R;
  cameraFar : R }.

(** [GlobeControls.set(geoPoint)]; [None] is the thrown
    ["invalid camera position."].  [projectPoint] stands for
    [sphereProjection.projectPoint] on a coordinate without altitude and
    [equatorialRadius] for [EarthConstants.EQUATORIAL_RADIUS], both from
    harp-geoutils. *)
Definition globeControlsSet (projectPoint : R -> R -> Vector3) (equatorialRadius : R)
    (geoPoint : GeoCoordinates) : option CameraPlacement :=
  match altitude geoPoint with
  | None => None
  | Some alt =>
      if Req_dec_T alt 0 then None
      else
        let pointOnSurface := projectPoint (latitude geoPoint) (longitude geoPoint) in
        let normal := normalize pointOnSurface in
        let position := v3add pointOnSurface (multiplyScalar normal alt) in
        let bias := 100 in
        let far := length3 position in
        Some (mkCameraPlacement position (far - (equatorialRadius + bias)) far)
  end.

(* ================================================================= *)
(** ** TextureLoader: the JPEG test *)

(** Strings are taken as sequences of ASCII characters. *)
Definition isLetter (lower upper c : ascii) : bool :=
  (Ascii.eqb c lower || Ascii.eqb c upper)%bool.

(** [($|\?)]: the end of the string or a question mark. *)
Definition endOrQuery (s : string) : bool :=
  match s with
  | EmptyString => true
  | String c _ => Ascii.eqb c "?"
  end.

(** [g($|\?)], case-insensitive. *)
Definition matchG (s : string) : bool :=
  match s with
  | String c r => (isLetter "g" "G" c && endOrQuery r)%bool
  | EmptyString => false
  end.

(** The regular expression [/\.jpe?g($|\?)/i] matched at the start of [s]:
    with the optional [e] first, without it otherwise. *)
Definition matchJpegExtensionHere (s : string) : bool :=
  match s with
  | String d (String j (String p r)) =>
      (Ascii.eqb d "." && isLetter "j" "J" j && isLetter "p" "P" p &&
       (match r with
        | String e r' => isLetter "e" "E" e && matchG r'
        | EmptyString => false
        end || matchG r))%bool
  | _ => false
  end.

(** [url.search(/\.jpe?g($|\?)/i)] counted from index [i]: the index of the
    first match, or -1. *)
Fixpoint searchJpegExtension (s : string) (i : Z) : Z :=
  if matchJpegExtensionHere s then i
  else match s with
       | EmptyString => (-1)%Z
       | String _ r => searchJpegExtension r (i + 1)%Z
       end.

(** [url.search(/^data\:image\/jpeg/)]: 0 or -1. *)
Definition searchDataJpeg (url : string) : Z :=
  if String.prefix "data:image/jpeg" url then 0%Z else (-1)%Z.

Definition isJPEG (url : string) : bool :=
  ((0 <? searchJpegExtension url 0)%Z || (searchDataJpeg url =? 0)%Z)%bool.

Inductive PixelFormat :=
| RGBFormat
| RGBAFormat.

(** [texture.format] as the loader sets it once the image is there. *)
Definition textureFormat (url : string) : PixelFormat :=
  if isJPEG url then RGBFormat else RGBAFormat.

(* ================================================================= *)
(** ** TextureLoader.load *)

Record TextureLoader := mkTextureLoader {
  requestHeaders : option (list (string * string));
  path : option string;
  crossOrigin : option string }.

(** How the promise chain of [load] turns out: [fetch] rejects, or
    [response.blob()] rejects, or the image fails to load, or the image is
    there. *)
Inductive FetchOutcome :=
| FetchRejected
| BlobRejected
| ImageRejected
| ImageLoaded.

(** An optional callback: [undefined], or a function that returns, or a
    function that throws. *)
Inductive Callback :=
| NoCallback
| Returns
| Throws.

(** What [load] does that can be seen from outside, in order. *)
Inductive LoadEvent :=
| SuperLoad (url : string)
| ItemStart (url : string)
| FetchRequest (url : string) (cors : bool)
| SetFormat (format : PixelFormat)
| CallOnLoad
| CallOnError
| ItemError (url : string)
| ItemEnd (url : string).

(** The [catch] handler: [onError] if given, then [itemError] and
    [itemEnd]; a throwing [onError] ends the handler at once. *)
Definition catchHandler (url : string) (onError : Callback) : list LoadEvent :=
  match onError with
  | NoCallback => [ItemError url; ItemEnd url]
  | Returns => [CallOnError; ItemError url; ItemEnd url]
  | Throws => [CallOnError]
  end.

(** [TextureLoader.load(url, onLoad, onProgress, onError)] as the trace of
    its effects, for a given outcome of the request.  [resolveURL] stands
    for [this.manager.resolveURL].  An exception thrown by [onLoad] inside
    the last [then] is caught by the [catch] that follows it. *)
Definition load (resolveURL : string -> string) (loader : TextureLoader) (url : string)
    (onLoad onError : Callback) (outcome : FetchOutcome) : list LoadEvent :=
  match requestHeaders loader with
  | None => [SuperLoad url]
  | Some _ =>
      let url1 := match path loader with Some p => (p ++ url)%string | None => url end in
      let url2 := resolveURL url1 in
      ItemStart url2
      :: FetchRequest url2 (match crossOrigin loader with Some _ => true | None => false end)
      :: match outcome with
         | ImageLoaded =>
             SetFormat (textureFormat url2)
             :: match onLoad with
                | NoCallback => [ItemEnd url2]
                | Returns => [CallOnLoad; ItemEnd url2]
                | Throws => CallOnLoad :: catchHandler url2 onError
                end
         | _ => catchHandler url2 onError
         end
  end.

(** The URL that is fetched and tested for JPEG. *)
Definition fetchedUrl (resolveURL : string -> string) (loader : TextureLoader)
    (url : string) : string :=
  resolveURL (match path loader with Some p => (p ++ url)%string | None => url end).

(** The request or [onLoad] failed, so that the [catch] handler runs. *)
Definition loadFailed (onLoad : Callback) (outcome : FetchOutcome) : bool :=
  match outcome, onLoad with
  | ImageLoaded, Throws => true
  | ImageLoaded, _ => false
  | _, _ => true
  end.

Definition isItemEnd (e : LoadEvent) : bool :=
  match e with ItemEnd _ => true | _ => false end.
(* ================================================================= *)
(** ** Predicates on boxes and example data *)

(** A one-segment feature used as example: two vertices one unit apart. *)
Definition unitSegmentPosition : BufferAttribute :=
  PlainAttribute [mkV3 0 0 0; mkV3 1 0 0].

Definition unitSegmentIndices : list nat := [0; 0; 1; 1; 0; 1]%nat.

(** A feature of two segments with a right angle, used as example. *)
Definition cornerPosition : BufferAttribute :=
  PlainAttribute [mkV3 0 0 0; mkV3 2 0 0; mkV3 2 2 0].

Definition cornerIndices : list nat := [0; 0; 1; 1; 0; 1; 1; 1; 2; 2; 1; 2]%nat.

Definition v3le (a b : Vector3) : Prop :=
  vx a <= vx b /\ vy a <= vy b /\ vz a <= vz b.

Definition inBox (b : Box3) (p : Vector3) : Prop :=
  match b with
  | EmptyBox => False
  | Box mn mx => v3le mn p /\ v3le p mx
  end.


(* ================================================================= *)
(** ** The per-segment test, in the spec's words *)

(** The records [featureIntersect] pushes for the segment at [i]. *)
Definition segmentRecords (m : SolidLineMesh) (g : BufferGeometry) (indices : list nat)
    (raycaster : Raycaster) (tmpRay : Ray) (threshold localThresholdSq : R) (i : nat)
    : list Intersection :=
  match segmentIntersect m g indices raycaster tmpRay threshold localThresholdSq i with
  | Some (_, r) => [r]
  | None => []
  end.

(** The debug entries [featureIntersect] pushes for the segment at [i]. *)
Definition segmentDebug (m : SolidLineMesh) (g : BufferGeometry) (indices : list nat)
    (raycaster : Raycaster) (tmpRay : Ray) (threshold localThresholdSq : R) (i : nat)
    : list DebugEntry :=
  match segmentIntersect m g indices raycaster tmpRay threshold localThresholdSq i with
  | Some (d, _) => [d]
  | None => []
  end.

Definition segmentStart (g : BufferGeometry) (indices : list nat) (i : nat) : Vector3 :=
  fromBufferAttribute (position g) (indexAt indices i).

Definition segmentEnd (g : BufferGeometry) (indices : list nat) (i : nat) : Vector3 :=
  fromBufferAttribute (position g) (indexAt indices (i + 2)).

(** The plane through start, start + extrusion direction and end. *)
Definition segmentPlane (g : BufferGeometry) (indices : list nat) (i : nat) : Plane :=
  setFromCoplanarPoints (segmentStart g indices i)
    (v3add (segmentStart g indices i) (readV3 (bitangent g) (indexAt indices i)))
    (segmentEnd g indices i).

(** The point at parameter [s] of the centreline from start to end. *)
Definition centerlinePoint (g : BufferGeometry) (indices : list nat) (i : nat) (s : R)
    : Vector3 :=
  v3add (multiplyScalar (v3sub (segmentEnd g indices i) (segmentStart g indices i)) s)
        (segmentStart g indices i).

(** The test [distSq > localThresholdSq] fails for the plane point [p]:
    [p] is within the local threshold of the closest point of the clamped
    centreline, or the segment has zero length and the squared distance is
    NaN. *)
Definition passesWidthTest (g : BufferGeometry) (indices : list nat)
    (localThresholdSq : R) (i : nat) (p : Vector3) : Prop :=
  match closestPointToPoint
          (mkLine3 (segmentStart g indices i) (segmentEnd g indices i)) p true with
  | Some c => distanceToSquared p c <= localThresholdSq
  | None => True
  end.

(** The conditions under which [featureIntersect] reports the segment at
    [i], with [p] the point where the local ray meets the segment's plane:
    the ray meets the plane; the width test lets [p] pass; the world-space
    distance from the ray origin to [p] is within [near, far]. *)
Definition segmentHitAt (m : SolidLineMesh) (g : BufferGeometry) (indices : list nat)
    (raycaster : Raycaster) (tmpRay : Ray) (localThresholdSq : R) (i : nat)
    (p : Vector3) : Prop :=
  intersectPlane tmpRay (segmentPlane g indices i) = Some p /\
  passesWidthTest g indices localThresholdSq i p /\
  near raycaster <= distanceTo (origin (ray raycaster)) (applyMatrix4 p (matrixWorld m))
    <= far raycaster.

(** The feature's sphere as [featureIntersect] tests it: moved to world
    space and inflated by the threshold. *)
Definition inflatedSphere (m : SolidLineMesh) (bSphere : Sphere) (threshold : R) : Sphere :=
  mkSphere (center (sphereApplyMatrix4 bSphere (matrixWorld m)))
           (radius (sphereApplyMatrix4 bSphere (matrixWorld m)) + threshold).


(* ================================================================= *)
(** ** State predicates *)

(** The displaced-view part of the object at [r], if it is a displaced
    geometry. *)
Definition viewAt (h : list GeometryObject) (r : GeometryRef) : option DisplacedView :=
  match lookupGeometry h r with
  | Some (BufferGeom _ v) => v
  | _ => None
  end.

(** References held by the mesh point into the heap. *)
Definition validRefs (w : World) : Prop :=
  forall d, m_displacedGeometry (mesh w) = Some d -> (d < List.length (heap w))%nat.

(** The index array of the active geometry, when the active geometry is a
    buffer geometry with an index. *)
Definition activeIndex (w : World) : option (list nat) :=
  match lookupGeometry (heap w) (geometry (mesh w)) with
  | Some (BufferGeom g _) => index g
  | _ => None
  end.

(** [this.userData.feature.boundingVolumes], empty while absent. *)
Definition cachedVolumes (m : SolidLineMesh) : list Sphere :=
  match feature m with
  | Some f => match boundingVolumes f with Some b => b | None => [] end
  | None => []
  end.

(** [this.userData.feature.starts ?? [0]]. *)
Definition featureStartsOf (m : SolidLineMesh) : list nat :=
  match feature m with
  | Some f => match starts f with Some s => s | None => [0%nat] end
  | None => [0%nat]
  end.

(** The spec's reading of the fallback: the call is handed to the rendering
    library's whole-mesh triangle intersection [defaultRaycast], whose
    records are returned as they are; the mesh is not touched. *)
Definition delegatedRaycast
    (defaultRaycast : World -> Raycaster -> list Intersection -> list Intersection)
    (w : World) (raycaster : Raycaster) (intersects : list Intersection)
    : World * list Intersection * Completion :=
  (w, defaultRaycast w raycaster intersects, Returned).

(* ================================================================= *)
(** ** Example worlds *)

(** A displacement map that samples to zero everywhere. *)
Definition zeroMap : DataTexture := mkDataTexture (fun _ => 0).

(** Line material of width 1 without displacement, and the same material
    with the displacement feature and [zeroMap]. *)
Definition plainMaterial : Material := mkMaterial 1 0 false None.

Definition displacedMaterial : Material :=
  mkMaterial 1 0 true (Some (IsDataTexture zeroMap)).

(** The unit segment as a buffer geometry, with and without its index. *)
Definition unitSegmentGeometry (idx : option (list nat)) : BufferGeometry :=
  mkBufferGeometry idx unitSegmentPosition
    [mkV3 0 0 1; mkV3 0 0 1] [mkV2 0 0; mkV2 1 0] [mkV3 0 1 0; mkV3 0 1 0] None.

Definition meshOf (mat : Material) (world : Matrix4) : SolidLineMesh :=
  mkMesh 7%nat 0%nat mat world (mkV3 1 1 1) (mkRange 0 0) None None.

(** One mesh over one geometry at address 0. *)
Definition worldOf (g : GeometryObject) (mat : Material) : World :=
  mkWorld [g] None (meshOf mat m4identity).

(** A ray straight down onto the point (1, 0, 0). *)
Definition downRay : Raycaster :=
  mkRaycaster (mkRay (mkV3 1 0 5) (mkV3 0 0 (-1))) 0 100.

(** Displacement-capable mesh over a buffer geometry without index. *)
Definition noIndexWorld : World :=
  worldOf (BufferGeom (unitSegmentGeometry None) None) displacedMaterial.

(** Mesh without displacement over the indexed unit segment. *)
Definition plainWorld : World :=
  worldOf (BufferGeom (unitSegmentGeometry (Some unitSegmentIndices)) None) plainMaterial.


(** A feature of four segments around a diamond, ending at the corner
    (-4, 4, 0): the four sampled start vertices lie on the sides of the
    square [-4, 4] x [-4, 4], its end vertex on a corner. *)
Definition diamondPosition : BufferAttribute :=
  PlainAttribute [mkV3 (-4) 0 0; mkV3 0 (-4) 0; mkV3 4 0 0; mkV3 0 4 0; mkV3 (-4) 4 0].

Definition diamondIndices : list nat :=
  [0; 0; 1; 1; 0; 1;  1; 1; 2; 2; 1; 2;  2; 2; 3; 3; 2; 3;  3; 3; 4; 4; 3; 4]%nat.

Definition diamondGeometry : BufferGeometry :=
  mkBufferGeometry (Some diamondIndices) diamondPosition
    [mkV3 0 0 1; mkV3 0 0 1; mkV3 0 0 1; mkV3 0 0 1; mkV3 0 0 1]
    [mkV2 0 0; mkV2 1 0; mkV2 2 0; mkV2 3 0; mkV2 4 0]
    [mkV3 1 1 0; mkV3 (-1) 1 0; mkV3 (-1) (-1) 0; mkV3 0 1 0; mkV3 0 1 0]
    None.

(** The diamond with displacement disabled and enabled; in both the
    displacement range is (0, 0), and the enabled map samples to zero. *)
Definition diamondPlainWorld : World := worldOf (BufferGeom diamondGeometry None) plainMaterial.

Definition diamondDisplacedWorld : World :=
  worldOf (BufferGeom diamondGeometry None) displacedMaterial.

(** A ray straight down onto the end vertex (-4, 4, 0). *)
Definition cornerRay : Raycaster :=
  mkRaycaster (mkRay (mkV3 (-4) 4 5) (mkV3 0 0 (-1))) 0 100.

(** Whether the segment at [i] passes the three tests of [featureIntersect]. *)
Definition segmentHits (m : SolidLineMesh) (g : BufferGeometry) (indices : list nat)
    (rc : Raycaster) (tmpRay : Ray) (threshold lthSq : R) (i : nat) : bool :=
  match segmentIntersect m g indices rc tmpRay threshold lthSq i with
  | Some _ => true
  | None => false
  end.


(* ================================================================= *)
(** ** Example frustum *)

(** A frustum test that keeps the tiles of column 0. *)
Definition westColumn (t : TileKey) : bool := (column t =? 0)%nat.

(* ================================================================= *)
(** ** Example: a mesh with its sphere cached *)

(** The unit-segment mesh after a sphere of radius 3 has been cached for its
    only feature. *)
Definition cachedWorld : World :=
  mkWorld [BufferGeom (unitSegmentGeometry (Some unitSegmentIndices)) None] None
    (mkMesh 7%nat 0%nat plainMaterial m4identity (mkV3 1 1 1) (mkRange 0 0) None
       (Some (mkFeature None (Some [mkSphere (mkV3 0 0 0) 3])))).

(** The unit segment with its bitangents missing (all zero). *)
Definition flatRibbonGeometry : BufferGeometry :=
  mkBufferGeometry (Some unitSegmentIndices) unitSegmentPosition
    [mkV3 0 0 1; mkV3 0 0 1] [mkV2 0 0; mkV2 1 0] [mkV3 0 0 0; mkV3 0 0 0] None.

(** A ray straight down onto the far end of a segment of length 4. *)
Definition longSegmentWorld : World :=
  mkWorld
    [BufferGeom
       (mkBufferGeometry (Some unitSegmentIndices)
          (PlainAttribute [mkV3 0 0 0; mkV3 4 0 0])
          [mkV3 0 0 1; mkV3 0 0 1] [mkV2 0 0; mkV2 1 0] [mkV3 0 1 0; mkV3 0 1 0] None)
       None]
    None (meshOf plainMaterial m4identity).

Definition farEndRay : Raycaster :=
  mkRaycaster (mkRay (mkV3 4 0 5) (mkV3 0 0 (-1))) 0 100.

(* ================================================================= *)
(** ** The sphere a feature is tested against *)

(** [bVolumes[f]] at the moment feature [f] is handed to [featureIntersect],
    for a feature loop that starts on the cache [cache]: the cached sphere
    when the cache reaches to [f], otherwise the sphere computed and pushed
    in this turn of the loop. *)
Definition sphereOfFeature (g : BufferGeometry) (indices featureStarts : list nat)
    (tmpNormal : Vector3) (range : option DisplacementRange) (cache : list Sphere)
    (f : nat) : Sphere :=
  if (f <? List.length cache)%nat then nth f cache zeroSphere
  else computeBoundingSphere (position g) indices
         (fst (featureRange featureStarts (List.length indices) f))
         (snd (featureRange featureStarts (List.length indices) f))
         tmpNormal range.

(** The same for a call of [raycastImpl] on mesh [m] with active geometry
    [g]: the cache is [this.userData.feature.boundingVolumes], the normal is
    the one sampled at vertex 0, and the displacement range is passed only
    when the active geometry is the displaced one. *)
Definition testedSphere (m : SolidLineMesh) (g : BufferGeometry)
    (view : option DisplacedView) (indices : list nat) (f : nat) : Sphere :=
  sphereOfFeature g indices (featureStartsOf m) (readV3 (normal g) 0)
    (if geomRefEqb (geometry m) (m_displacedGeometry m)
     then option_map displacementRange view else None)
    (cachedVolumes m) f.

(* ================================================================= *)
(** ** Example: a segment of zero length *)

(** A feature of two segments over the vertices (0, 0, 0) and (20, 0, 0).
    The first segment joins them; the second starts and ends at vertex 1, so
    it has zero length. *)
Definition pointSegmentIndices : list nat :=
  [0; 0; 1; 1; 0; 1;  1; 1; 1; 1; 1; 1]%nat.

Definition pointSegmentGeometry : BufferGeometry :=
  mkBufferGeometry (Some pointSegmentIndices)
    (PlainAttribute [mkV3 0 0 0; mkV3 20 0 0])
    [mkV3 0 0 1; mkV3 0 0 1] [mkV2 0 0; mkV2 1 0] [mkV3 0 1 0; mkV3 0 1 0] None.

Definition pointSegmentWorld : World :=
  worldOf (BufferGeom pointSegmentGeometry None) plainMaterial.

(** A ray straight down that passes the x axis at a distance of 5, halfway
    between the two vertices. *)
Definition asideRay : Raycaster :=
  mkRaycaster (mkRay (mkV3 10 5 5) (mkV3 0 0 (-1))) 0 100.

(* ================================================================= *)
(** ** Example: a displaced segment *)

(** A displacement map that samples to 150 everywhere, carried by a line
    material of width 1. *)
Definition raisedMap : DataTexture := mkDataTexture (fun _ => 150).

Definition raisedMaterial : Material :=
  mkMaterial 1 0 true (Some (IsDataTexture raisedMap)).

(** The segment from (0, 0, 0) to (4, 0, 0) with normals along z. *)
Definition raisedGeometry : BufferGeometry :=
  mkBufferGeometry (Some unitSegmentIndices)
    (PlainAttribute [mkV3 0 0 0; mkV3 4 0 0])
    [mkV3 0 0 1; mkV3 0 0 1] [mkV2 0 0; mkV2 1 0] [mkV3 0 1 0; mkV3 0 1 0] None.

(** A mesh over it with displacement range (100, 200): under [raisedMap] the
    line lies at height 150. *)
Definition raisedWorld : World :=
  mkWorld [BufferGeom raisedGeometry None] None
    (mkMesh 7%nat 0%nat raisedMaterial m4identity (mkV3 1 1 1) (mkRange 100 200) None None).

(** A ray straight down from height 155 onto the point (1, 0, 150) of the
    displaced line. *)
Definition raisedRay : Raycaster :=
  mkRaycaster (mkRay (mkV3 1 0 155) (mkV3 0 0 (-1))) 0 100.

(** The active geometry while [raycastImpl] runs on [raisedWorld]: the
    displaced view of [raisedGeometry]. *)
Definition raisedDisplacedGeometry : BufferGeometry :=
  mkBufferGeometry (Some unitSegmentIndices)
    (DisplacedAttribute (position raisedGeometry) (normal raisedGeometry)
       (uv raisedGeometry) raisedMap)
    (normal raisedGeometry) (uv raisedGeometry) (bitangent raisedGeometry) None.

(* ================================================================= *)
(** ** The closest point of a segment, in the spec's words *)

(** [c] is a closest point to [p] on the segment from [a] to [b]: it lies
    on the segment, and no point of the segment is nearer to [p]. *)
Definition closestOnSegment (a b p c : Vector3) : Prop :=
  (exists s, 0 <= s <= 1 /\ c = v3add (multiplyScalar (v3sub b a) s) a) /\
  forall s, 0 <= s <= 1 ->
    distanceToSquared p c <= distanceToSquared p (v3add (multiplyScalar (v3sub b a) s) a).

(** The state in which [raycast] calls [raycastImpl] on [raisedWorld]: the
    displaced geometry has been allocated at address 1 and is the mesh's
    active geometry. *)
Definition raisedActiveWorld : World :=
  mkWorld
    [BufferGeom raisedGeometry None;
     BufferGeom raisedDisplacedGeometry (Some (mkView 0%nat raisedMap (mkRange 100 200)))]
    (Some (DisplacedAttribute (position raisedGeometry) (normal raisedGeometry)
             (uv raisedGeometry) raisedMap))
    (mkMesh 7%nat 1%nat raisedMaterial m4identity (mkV3 1 1 1) (mkRange 100 200)
       (Some 1%nat) None).
(* ================================================================= *)
(** ** The sampling loop *)

Lemma strideLoop_In (fuel i e j : nat) :
  In j (strideLoop fuel i e) ->
  (i <= j < e)%nat /\ exists k, j = (i + step * k)%nat.
Proof.
  revert i. induction fuel as [|fuel IH]; intros i H; simpl in H; [contradiction|].
  destruct (Nat.ltb_spec i e) as [Hlt|Hge]; [|contradiction].
  destruct H as [<-|H].
  - split; [lia|]. exists 0%nat. lia.
  - apply IH in H. destruct H as [Hr [k ->]]. split; [lia|].
    exists (S k). unfold step in *. lia.
Qed.

(** Any two amounts of fuel of at least [endIdx - i] give the same run: the
    loop has stopped by then. *)
Lemma strideLoop_fuel2 (fuel1 fuel2 i e : nat) :
  (e - i <= fuel1)%nat -> (e - i <= fuel2)%nat ->
  strideLoop fuel1 i e = strideLoop fuel2 i e.
Proof.
  revert fuel2 i. induction fuel1 as [|fuel1 IH]; intros fuel2 i H1 H2.
  - destruct fuel2; simpl; [reflexivity|].
    destruct (Nat.ltb_spec i e); [lia|reflexivity].
  - simpl. destruct (Nat.ltb_spec i e) as [Hlt|Hge].
    + destruct fuel2 as [|fuel2]; [lia|]. simpl.
      destruct (Nat.ltb_spec i e); [|lia].
      f_equal. apply IH; unfold step; lia.
    + destruct fuel2; simpl; [reflexivity|].
      destruct (Nat.ltb_spec i e); [lia|reflexivity].
Qed.

Lemma strideLoop_fuel (fuel i e : nat) :
  (e - i <= fuel)%nat -> strideLoop fuel i e = strideLoop (e - i) i e.
Proof. intros H. apply strideLoop_fuel2; lia. Qed.

Lemma segmentStarts_lt (b e : nat) :
  (b < e)%nat -> segmentStarts b e = b :: segmentStarts (b + step) e.
Proof.
  intros H. unfold segmentStarts.
  destruct (e - b)%nat as [|n] eqn:E; [lia|]. simpl.
  destruct (Nat.ltb_spec b e); [|lia].
  f_equal. apply strideLoop_fuel. unfold step. lia.
Qed.

Lemma segmentStarts_ge (b e : nat) :
  (e <= b)%nat -> segmentStarts b e = [].
Proof.
  intros H. unfold segmentStarts. replace (e - b)%nat with 0%nat by lia. reflexivity.
Qed.

Lemma segmentStarts_In (b e j : nat) :
  In j (segmentStarts b e) -> (b <= j < e)%nat /\ exists k, j = (b + step * k)%nat.
Proof. apply strideLoop_In. Qed.

(* ================================================================= *)
(** ** Boxes *)

Ltac minmax :=
  unfold v3le, v3min, v3max, v3add, v3sub, multiplyScalar, Rmin, Rmax in *; simpl in *;
  repeat match goal with
         | |- context [Rle_dec ?a ?b] => destruct (Rle_dec a b)
         | H : context [Rle_dec ?a ?b] |- _ => destruct (Rle_dec a b)
         end;
  repeat split; try lra.

Lemma expandByPoint_self (b : Box3) (p : Vector3) : inBox (expandByPoint b p) p.
Proof. destruct b; simpl; minmax. Qed.

Lemma expandByPoint_mono (b : Box3) (p q : Vector3) :
  inBox b q -> inBox (expandByPoint b p) q.
Proof. destruct b; simpl; [contradiction|]. intros [H1 H2]. minmax. Qed.

Lemma fold_expand_mono (vs : list Vector3) (b : Box3) (q : Vector3) :
  inBox b q -> inBox (fold_left expandByPoint vs b) q.
Proof.
  revert b. induction vs as [|v vs IH]; intros b H; simpl; [exact H|].
  apply IH, expandByPoint_mono, H.
Qed.

Lemma fold_expand_In (vs : list Vector3) (b : Box3) (q : Vector3) :
  In q vs -> inBox (fold_left expandByPoint vs b) q.
Proof.
  revert b. induction vs as [|v vs IH]; intros b H; simpl; [contradiction|].
  destruct H as [->|H].
  - apply fold_expand_mono, expandByPoint_self.
  - apply IH, H.
Qed.

Lemma inBox_translate (b : Box3) (p o : Vector3) :
  inBox b p -> inBox (translate b o) (v3add p o).
Proof. destruct b; simpl; [contradiction|]. intros [H1 H2]. minmax. Qed.

Lemma inBox_union_l (a b : Box3) (p : Vector3) : inBox a p -> inBox (union a b) p.
Proof.
  destruct a, b; simpl; try contradiction; auto. intros [H1 H2]. minmax.
Qed.

Lemma inBox_union_r (a b : Box3) (p : Vector3) : inBox b p -> inBox (union a b) p.
Proof.
  destruct a, b; simpl; try contradiction; auto. intros [H1 H2]. minmax.
Qed.

Lemma inBox_not_empty (b : Box3) (p : Vector3) : inBox b p -> isEmpty b = false.
Proof.
  destruct b; simpl; [contradiction|]. intros [H1 H2]. unfold v3le in *.
  repeat (destruct Rlt_dec; [lra|]). reflexivity.
Qed.





(* ================================================================= *)
(** ** The radius loop *)

Lemma distanceToSquared_nonneg (a b : Vector3) : 0 <= distanceToSquared a b.
Proof.
  unfold distanceToSquared. cbv zeta.
  generalize (vx a - vx b) (vy a - vy b) (vz a - vz b). intros p q r.
  pose proof (Rle_0_sqr p). pose proof (Rle_0_sqr q). pose proof (Rle_0_sqr r).
  unfold Rsqr in *. lra.
Qed.

Lemma maxRadiusSq_fold_ge (c : Vector3) (vs : list Vector3) (acc : R) :
  acc <= fold_left (fun acc v => Rmax acc (distanceToSquared c v)) vs acc.
Proof.
  revert acc. induction vs as [|v vs IH]; intros acc; simpl; [lra|].
  eapply Rle_trans; [apply Rmax_l|apply IH].
Qed.

Lemma maxRadiusSq_fold_In (c : Vector3) (vs : list Vector3) (acc : R) (v : Vector3) :
  In v vs ->
  distanceToSquared c v <= fold_left (fun acc v => Rmax acc (distanceToSquared c v)) vs acc.
Proof.
  revert acc. induction vs as [|u vs IH]; intros acc H; simpl; [contradiction|].
  destruct H as [->|H].
  - eapply Rle_trans; [apply Rmax_r|apply maxRadiusSq_fold_ge].
  - apply IH, H.
Qed.

(** The accumulated maximum is the start value or one of the squared
    distances. *)
Lemma maxRadiusSq_fold_attained (c : Vector3) (vs : list Vector3) (acc : R) :
  fold_left (fun acc v => Rmax acc (distanceToSquared c v)) vs acc = acc \/
  exists v, In v vs /\
    fold_left (fun acc v => Rmax acc (distanceToSquared c v)) vs acc = distanceToSquared c v.
Proof.
  revert acc. induction vs as [|u vs IH]; intros acc; simpl; [left; reflexivity|].
  destruct (IH (Rmax acc (distanceToSquared c u))) as [E|[v [Hv E]]].
  - rewrite E. unfold Rmax. destruct Rle_dec.
    + right. exists u. split; [left; reflexivity|reflexivity].
    + left. reflexivity.
  - right. exists v. split; [right; exact Hv|exact E].
Qed.

Lemma maxRadiusSqFrom_max (c v0 : Vector3) (vs : list Vector3) :
  (forall v, In v (v0 :: vs) -> distanceToSquared c v <= maxRadiusSqFrom c (v0 :: vs)) /\
  exists v, In v (v0 :: vs) /\ maxRadiusSqFrom c (v0 :: vs) = distanceToSquared c v.
Proof.
  split.
  - intros v Hv. apply maxRadiusSq_fold_In, Hv.
  - unfold maxRadiusSqFrom.
    destruct (maxRadiusSq_fold_attained c (v0 :: vs) 0) as [E|H]; [|exact H].
    exists v0. split; [left; reflexivity|]. rewrite E.
    pose proof (maxRadiusSq_fold_In c (v0 :: vs) 0 v0 (or_introl eq_refl)) as Hle.
    rewrite E in Hle. pose proof (distanceToSquared_nonneg c v0). lra.
Qed.

(* ================================================================= *)
(** ** Spheres around boxes *)

Lemma sqrt_le_of_sq (a r : R) : 0 <= r -> a <= r * r -> sqrt a <= r.
Proof.
  intros Hr Ha. rewrite <- (sqrt_square r Hr). apply sqrt_le_1_alt, Ha.
Qed.

Lemma coord_in_half_width (mn mx p : R) :
  mn <= p -> p <= mx ->
  ((mn + mx) * (1 / 2) - p) * ((mn + mx) * (1 / 2) - p)
  <= (mx - mn) * (mx - mn) / 4.
Proof.
  intros H1 H2.
  assert (H : 0 <= (p - mn) * (mx - p)) by (apply Rmult_le_pos; lra).
  lra.
Qed.

(** The bounding sphere of a box contains every point of the box. *)
Lemma inBox_boundingSphere (b : Box3) (p : Vector3) :
  inBox b p -> inSphere (getBoundingSphere b) p.
Proof.
  intros Hin. pose proof (inBox_not_empty b p Hin) as Hne.
  destruct b as [|mn mx]; [contradiction|].
  destruct Hin as [[Hx1 [Hy1 Hz1]] [Hx2 [Hy2 Hz2]]].
  unfold inSphere, getBoundingSphere, getCenter, getSize. rewrite Hne.
  unfold center, radius, distanceTo, length3.
  apply sqrt_le_of_sq.
  - apply Rmult_le_pos; [apply sqrt_pos|lra].
  - assert (HL : 0 <= lengthSq (v3sub mx mn))
      by (unfold lengthSq, dot, v3sub; simpl;
          pose proof (Rle_0_sqr (vx mx - vx mn));
          pose proof (Rle_0_sqr (vy mx - vy mn));
          pose proof (Rle_0_sqr (vz mx - vz mn)); unfold Rsqr in *; lra).
    replace (sqrt (lengthSq (v3sub mx mn)) * (1 / 2) *
             (sqrt (lengthSq (v3sub mx mn)) * (1 / 2)))
      with (sqrt (lengthSq (v3sub mx mn)) * sqrt (lengthSq (v3sub mx mn)) / 4) by lra.
    rewrite (sqrt_sqrt _ HL).
    unfold distanceToSquared, lengthSq, dot, v3sub, multiplyScalar, v3add. simpl.
    pose proof (coord_in_half_width _ _ _ Hx1 Hx2).
    pose proof (coord_in_half_width _ _ _ Hy1 Hy2).
    pose proof (coord_in_half_width _ _ _ Hz1 Hz2).
    lra.
Qed.

(* ================================================================= *)
(** ** Theorems on computeBoundingSphere *)


Lemma getCenter_point (p : Vector3) : getCenter (Box p p) = p.
Proof.
  unfold getCenter, isEmpty.
  repeat (destruct Rlt_dec; [lra|]).
  destruct p. unfold multiplyScalar, v3add. simpl. f_equal; lra.
Qed.

Lemma distanceToSquared_self (p : Vector3) : distanceToSquared p p = 0.
Proof. unfold distanceToSquared. cbv zeta. ring. Qed.

Lemma sampledVertices_agree (position : BufferAttribute) (indices indices' : list nat)
    (beginIdx endIdx : nat) :
  (forall i, In i (segmentStarts beginIdx endIdx) -> indexAt indices i = indexAt indices' i) ->
  sampledVertices position indices beginIdx endIdx
  = sampledVertices position indices' beginIdx endIdx.
Proof.
  intros H. unfold sampledVertices. apply map_ext_in.
  intros i Hi. rewrite (H i Hi). reflexivity.
Qed.

Lemma sampledVertices_one_segment (position : BufferAttribute) (indices : list nat)
    (beginIdx endIdx : nat) :
  (beginIdx < endIdx <= beginIdx + step)%nat ->
  sampledVertices position indices beginIdx endIdx
  = [fromBufferAttribute position (indexAt indices beginIdx)].
Proof.
  intros [Hlt Hle]. unfold sampledVertices.
  rewrite (segmentStarts_lt _ _ Hlt), (segmentStarts_ge (beginIdx + step) endIdx Hle).
  reflexivity.
Qed.

(** One sampled vertex: the sphere is that vertex with radius 0. *)
Lemma computeBoundingSphere_single (position : BufferAttribute) (indices : list nat)
    (beginIdx endIdx : nat) (normal p : Vector3) :
  sampledVertices position indices beginIdx endIdx = [p] ->
  computeBoundingSphere position indices beginIdx endIdx normal None = mkSphere p 0.
Proof.
  intros E. unfold computeBoundingSphere, sampledBox. rewrite E.
  cbn [fold_left expandByPoint makeEmpty]. rewrite getCenter_point.
  unfold maxRadiusSqFrom. cbn [fold_left]. rewrite distanceToSquared_self.
  f_equal. unfold Rmax. destruct Rle_dec; apply sqrt_0.
Qed.

(** C9.  [computeBoundingSphere] reads the index array only at the
    positions [beginIdx, beginIdx + 6, ...]: two index arrays that agree
    there give the same sphere, whatever they hold at [i + 2].  So for a
    feature of exactly one segment the sphere without displacement range
    has the segment's start vertex as centre and radius 0, and the end
    vertex of a segment need not lie in the sphere (it does not for the
    unit segment). *)
Theorem computeBoundingSphere_start_vertices_only :
  (forall position indices indices' beginIdx endIdx normal range,
     (forall i, In i (segmentStarts beginIdx endIdx) ->
        indexAt indices i = indexAt indices' i) ->
     computeBoundingSphere position indices beginIdx endIdx normal range
     = computeBoundingSphere position indices' beginIdx endIdx normal range) /\
  (forall position indices beginIdx endIdx normal,
     (beginIdx < endIdx <= beginIdx + step)%nat ->
     computeBoundingSphere position indices beginIdx endIdx normal None
     = mkSphere (fromBufferAttribute position (indexAt indices beginIdx)) 0) /\
  ~ inSphere (computeBoundingSphere unitSegmentPosition unitSegmentIndices 0 6 v3zero None)
             (fromBufferAttribute unitSegmentPosition (indexAt unitSegmentIndices 2)).
Proof.
  split; [|split].
  - intros position indices indices' b e normal range H.
    unfold computeBoundingSphere, sampledBox.
    rewrite (sampledVertices_agree position indices indices' b e H). reflexivity.
  - intros position indices b e normal H.
    apply computeBoundingSphere_single, sampledVertices_one_segment, H.
  - unfold inSphere.
    rewrite (computeBoundingSphere_single _ _ _ _ _ (mkV3 0 0 0)).
    + unfold center, radius, distanceTo, distanceToSquared. simpl.
      replace ((0 - 1) * (0 - 1) + (0 - 0) * (0 - 0) + (0 - 0) * (0 - 0)) with 1 by ring.
      rewrite sqrt_1. lra.
    + rewrite sampledVertices_one_segment by (unfold step; lia). reflexivity.
Qed.



Lemma computeBoundingSphere_start_vertices_only_witness :
  computeBoundingSphere unitSegmentPosition unitSegmentIndices 0 6 v3zero None
  = mkSphere (fromBufferAttribute unitSegmentPosition (indexAt unitSegmentIndices 0)) 0.
Proof.
  destruct computeBoundingSphere_start_vertices_only as [_ [H _]].
  apply (H unitSegmentPosition unitSegmentIndices 0%nat 6%nat v3zero).
  unfold step. lia.
Defined.

(* ================================================================= *)
(** ** The per-segment test *)

Lemma fold_pushSegment_records (m : SolidLineMesh) (g : BufferGeometry) (indices : list nat)
    (rc : Raycaster) (tmpRay : Ray) (threshold lthSq : R) (segs : list nat) (st : Sinks) :
  fold_left (pushSegment m g indices rc tmpRay threshold lthSq) segs st
  = (fst st ++ flat_map (segmentDebug m g indices rc tmpRay threshold lthSq) segs,
     snd st ++ flat_map (segmentRecords m g indices rc tmpRay threshold lthSq) segs).
Proof.
  revert st. induction segs as [|i segs IH]; intros [dbg out]; simpl.
  - rewrite !app_nil_r. reflexivity.
  - rewrite IH. unfold pushSegment, segmentDebug, segmentRecords.
    destruct (segmentIntersect m g indices rc tmpRay threshold lthSq i) as [[d r]|]; simpl.
    + rewrite <- !app_assoc. reflexivity.
    + reflexivity.
Qed.

Lemma closest_on_centerline (g : BufferGeometry) (indices : list nat) (i : nat)
    (p c : Vector3) :
  closestPointToPoint (mkLine3 (segmentStart g indices i) (segmentEnd g indices i)) p true
  = Some c ->
  exists s, 0 <= s <= 1 /\ c = centerlinePoint g indices i s.
Proof.
  unfold closestPointToPoint, closestPointToPointParameter. cbv zeta.
  destruct Req_dec_T as [|_]; [discriminate|].
  intros [= <-]. eexists. split; [|reflexivity].
  unfold Rmax, Rmin. repeat destruct Rle_dec; lra.
Qed.

(** What [Ray.intersectPlane] answers: a point of the ray on the plane. *)
Lemma intersectPlane_on_ray (r : Ray) (pl : Plane) (p : Vector3) :
  intersectPlane r pl = Some p ->
  exists t, 0 <= t /\ p = rayAt r t /\ planeDistanceToPoint pl p = 0.
Proof.
  unfold intersectPlane, distanceToPlane. cbv zeta.
  destruct (Req_dec_T (dot (pnormal pl) (direction r)) 0) as [Hd|Hd].
  - destruct (Req_dec_T (planeDistanceToPoint pl (origin r)) 0) as [Ho|Ho]; [|discriminate].
    intros [= <-]. exists 0. split; [lra|]. split; [reflexivity|].
    revert Ho. unfold planeDistanceToPoint, rayAt, dot, v3add, multiplyScalar. simpl.
    intros Ho. lra.
  - destruct Rle_dec as [Ht|Ht]; [|discriminate].
    intros [= <-]. eexists. split; [exact Ht|]. split; [reflexivity|].
    unfold planeDistanceToPoint, rayAt, dot, v3add, multiplyScalar in *. simpl.
    field_simplify; [|exact Hd]. apply Rmult_eq_0_compat_r. lra.
Qed.

(** When it answers [null], no point of the ray is on the plane. *)
Lemma intersectPlane_none (r : Ray) (pl : Plane) :
  intersectPlane r pl = None ->
  forall t, 0 <= t -> planeDistanceToPoint pl (rayAt r t) <> 0.
Proof.
  unfold intersectPlane, distanceToPlane. cbv zeta.
  destruct (Req_dec_T (dot (pnormal pl) (direction r)) 0) as [Hd|Hd].
  - destruct (Req_dec_T (planeDistanceToPoint pl (origin r)) 0) as [Ho|Ho]; [discriminate|].
    intros _ t Ht. revert Hd Ho.
    unfold planeDistanceToPoint, rayAt, dot, v3add, multiplyScalar. simpl.
    intros Hd Ho E. apply Ho. nra.
  - destruct Rle_dec as [Ht|Ht]; [discriminate|].
    intros _ t Ht0 E. apply Ht.
    assert (Et : t = - (dot (origin r) (pnormal pl) + pconstant pl)
                     / dot (pnormal pl) (direction r)).
    { revert E Hd. unfold planeDistanceToPoint, rayAt, dot, v3add, multiplyScalar. simpl.
      intros E Hd. field_simplify_eq; [|exact Hd]. lra. }
    rewrite <- Et. exact Ht0.
Qed.

Lemma segmentIntersect_unfold (m : SolidLineMesh) (g : BufferGeometry) (indices : list nat)
    (rc : Raycaster) (tmpRay : Ray) (threshold lthSq : R) (i : nat) :
  segmentIntersect m g indices rc tmpRay threshold lthSq i =
  match intersectPlane tmpRay (segmentPlane g indices i) with
  | None => None
  | Some p =>
      if match closestPointToPoint
                 (mkLine3 (segmentStart g indices i) (segmentEnd g indices i)) p true with
         | Some c => if Rlt_dec lthSq (distanceToSquared p c) then true else false
         | None => false
         end
      then None
      else if Rlt_dec (distanceTo (origin (ray rc)) (applyMatrix4 p (matrixWorld m))) (near rc)
      then None
      else if Rlt_dec (far rc) (distanceTo (origin (ray rc)) (applyMatrix4 p (matrixWorld m)))
      then None
      else Some (mkDebug
                   (line3ApplyMatrix4
                      (mkLine3 (segmentStart g indices i) (segmentEnd g indices i))
                      (matrixWorld m))
                   (mkRay (applyMatrix4 p (matrixWorld m))
                          (transformDirection (readV3 (bitangent g) (indexAt indices i))
                                              (matrixWorld m)))
                   threshold,
                 mkIntersection
                   (distanceTo (origin (ray rc)) (applyMatrix4 p (matrixWorld m)))
                   (applyMatrix4 p (matrixWorld m)) i (meshId m))
  end.
Proof. reflexivity. Qed.

(** The width test of the code against [passesWidthTest]. *)
Lemma missesWidth_false (g : BufferGeometry) (indices : list nat) (lthSq : R) (i : nat)
    (p : Vector3) :
  match closestPointToPoint
          (mkLine3 (segmentStart g indices i) (segmentEnd g indices i)) p true with
  | Some c => if Rlt_dec lthSq (distanceToSquared p c) then true else false
  | None => false
  end = false <-> passesWidthTest g indices lthSq i p.
Proof.
  unfold passesWidthTest.
  destruct (closestPointToPoint _ p true) as [c|]; [|tauto].
  destruct Rlt_dec; split; try reflexivity; try discriminate; lra.
Qed.

Lemma segmentRecords_hit (m : SolidLineMesh) (g : BufferGeometry) (indices : list nat)
    (rc : Raycaster) (tmpRay : Ray) (threshold lthSq : R) (i : nat) (p : Vector3) :
  segmentHitAt m g indices rc tmpRay lthSq i p ->
  segmentRecords m g indices rc tmpRay threshold lthSq i
  = [mkIntersection (distanceTo (origin (ray rc)) (applyMatrix4 p (matrixWorld m)))
                    (applyMatrix4 p (matrixWorld m)) i (meshId m)].
Proof.
  intros [Hp [Hw [Hn Hf]]]. unfold segmentRecords.
  rewrite segmentIntersect_unfold, Hp.
  apply missesWidth_false in Hw. rewrite Hw.
  destruct Rlt_dec; [lra|]. destruct Rlt_dec; [lra|].
  reflexivity.
Qed.

Lemma segmentRecords_In (m : SolidLineMesh) (g : BufferGeometry) (indices : list nat)
    (rc : Raycaster) (tmpRay : Ray) (threshold lthSq : R) (i : nat) (r : Intersection) :
  In r (segmentRecords m g indices rc tmpRay threshold lthSq i) ->
  exists p, segmentHitAt m g indices rc tmpRay lthSq i p /\
    r = mkIntersection (distanceTo (origin (ray rc)) (applyMatrix4 p (matrixWorld m)))
                       (applyMatrix4 p (matrixWorld m)) i (meshId m).
Proof.
  unfold segmentRecords. rewrite segmentIntersect_unfold.
  destruct (intersectPlane tmpRay (segmentPlane g indices i)) as [p|] eqn:Hp;
    [|contradiction].
  match goal with
  | |- context [if ?b then None else _] => destruct b eqn:Hw; [contradiction|]
  end.
  apply missesWidth_false in Hw.
  destruct Rlt_dec as [|Hn]; [contradiction|].
  destruct Rlt_dec as [|Hf]; [contradiction|].
  intros [<-|[]]. exists p. split; [|reflexivity].
  unfold segmentHitAt. rewrite Hp. repeat split; [exact Hw|lra|lra].
Qed.

(* ================================================================= *)
(** ** The heap *)

Lemma storeGeometry_length (h : list GeometryObject) (r : GeometryRef) (o : GeometryObject) :
  List.length (storeGeometry h r o) = List.length h.
Proof.
  revert r. induction h as [|x h IH]; intros r; simpl; [reflexivity|].
  destruct r; simpl; [reflexivity|]. rewrite IH. reflexivity.
Qed.

Lemma lookup_store_same (h : list GeometryObject) (r : GeometryRef) (o : GeometryObject) :
  (r < List.length h)%nat -> lookupGeometry (storeGeometry h r o) r = Some o.
Proof.
  unfold lookupGeometry. revert r. induction h as [|x h IH]; intros r H; simpl in *; [lia|].
  destruct r; simpl; [reflexivity|]. apply IH. lia.
Qed.

Lemma lookup_store_other (h : list GeometryObject) (r r' : GeometryRef) (o : GeometryObject) :
  r <> r' -> lookupGeometry (storeGeometry h r o) r' = lookupGeometry h r'.
Proof.
  unfold lookupGeometry. revert r r'. induction h as [|x h IH]; intros r r' H; simpl.
  - reflexivity.
  - destruct r, r'; simpl; try reflexivity; [contradiction|]. apply IH. lia.
Qed.

Lemma lookup_Some_lt (h : list GeometryObject) (r : GeometryRef) (o : GeometryObject) :
  lookupGeometry h r = Some o -> (r < List.length h)%nat.
Proof. unfold lookupGeometry. intros H. apply nth_error_Some. congruence. Qed.

Lemma lookup_app_new (h : list GeometryObject) (o : GeometryObject) :
  lookupGeometry (h ++ [o]) (List.length h) = Some o.
Proof.
  unfold lookupGeometry. rewrite nth_error_app2 by lia.
  rewrite Nat.sub_diag. reflexivity.
Qed.

Lemma lookup_app_old (h : list GeometryObject) (o : GeometryObject) (r : GeometryRef) :
  (r < List.length h)%nat -> lookupGeometry (h ++ [o]) r = lookupGeometry h r.
Proof. unfold lookupGeometry. intros H. apply nth_error_app1, H. Qed.

(** Storing a buffer geometry with the view that is already there keeps
    every view of the heap. *)
Lemma viewAt_store_same_view (h : list GeometryObject) (r r' : GeometryRef)
    (g g' : BufferGeometry) (v : option DisplacedView) :
  lookupGeometry h r = Some (BufferGeom g v) ->
  viewAt (storeGeometry h r (BufferGeom g' v)) r' = viewAt h r'.
Proof.
  intros H. unfold viewAt. destruct (Nat.eq_dec r r') as [<-|Hne].
  - rewrite lookup_store_same by (eapply lookup_Some_lt, H). rewrite H. reflexivity.
  - rewrite lookup_store_other by exact Hne. reflexivity.
Qed.

(* ================================================================= *)
(** ** What raycastImpl leaves alone *)

Lemma raycastImpl_frame (assertThrows : bool) (w : World) (rc : Raycaster)
    (ints : list Intersection) :
  let '(w', _, _) := raycastImpl assertThrows w rc ints in
  geometry (mesh w') = geometry (mesh w) /\
  m_displacedGeometry (mesh w') = m_displacedGeometry (mesh w) /\
  (forall r, viewAt (heap w') r = viewAt (heap w) r) /\
  List.length (heap w') = List.length (heap w).
Proof.
  unfold raycastImpl. cbv zeta.
  destruct (lookupGeometry (heap w) (geometry (mesh w))) as [[|g view]|] eqn:Hl;
    try (repeat split; reflexivity).
  destruct (index g) as [indices|]; [|repeat split; reflexivity].
  destruct (fold_left _ _ _) as [bV [dbg out]].
  simpl. repeat split.
  - intros r. eapply viewAt_store_same_view, Hl.
  - apply storeGeometry_length.
Qed.

(** Without an index, or without a buffer geometry, [raycastImpl] stops at
    the assertion and changes nothing. *)
Lemma raycastImpl_no_index (assertThrows : bool) (w : World) (rc : Raycaster)
    (ints : list Intersection) :
  activeIndex w = None ->
  raycastImpl assertThrows w rc ints = (w, ints, assertFalse assertThrows).
Proof.
  unfold activeIndex, raycastImpl. cbv zeta.
  destruct (lookupGeometry (heap w) (geometry (mesh w))) as [[|g view]|]; try reflexivity.
  intros ->. reflexivity.
Qed.

(* ================================================================= *)
(** ** The feature loop *)

Lemma flat_map_debug_records_length (m : SolidLineMesh) (g : BufferGeometry)
    (indices : list nat) (rc : Raycaster) (tmpRay : Ray) (threshold lthSq : R)
    (segs : list nat) :
  List.length (flat_map (segmentDebug m g indices rc tmpRay threshold lthSq) segs)
  = List.length (flat_map (segmentRecords m g indices rc tmpRay threshold lthSq) segs).
Proof.
  induction segs as [|i segs IH]; simpl; [reflexivity|].
  rewrite !length_app, IH. unfold segmentDebug, segmentRecords.
  destruct segmentIntersect as [[d r]|]; reflexivity.
Qed.

(** [featureIntersect] only appends, one debug entry per record. *)
Lemma featureIntersect_appends (m : SolidLineMesh) (g : BufferGeometry) (indices : list nat)
    (rc : Raycaster) (tmpRay : Ray) (threshold lthSq : R) (b e : nat) (bSphere : Sphere)
    (st : Sinks) :
  exists newD newR,
    featureIntersect m g indices rc tmpRay threshold lthSq b e bSphere st
    = (fst st ++ newD, snd st ++ newR) /\
    List.length newD = List.length newR.
Proof.
  unfold featureIntersect. cbv zeta.
  destruct (negb _).
  - exists [], []. rewrite !app_nil_r. destruct st. split; reflexivity.
  - rewrite fold_pushSegment_records. eexists. eexists. split; [reflexivity|].
    apply flat_map_debug_records_length.
Qed.

(** One turn of the feature loop. *)
Lemma featureStep_appends (m : SolidLineMesh) (g : BufferGeometry) (indices : list nat)
    (rc : Raycaster) (tmpRay : Ray) (threshold lthSq : R) (featureStarts : list nat)
    (tmpNormal : Vector3) (range : option DisplacementRange) (a : nat)
    (bV : list Sphere) (dbg : list DebugEntry) (out : list Intersection) :
  exists x newD newR,
    featureStep m g indices rc tmpRay threshold lthSq featureStarts tmpNormal range
                (bV, (dbg, out)) a
    = (bV ++ x, (dbg ++ newD, out ++ newR)) /\
    List.length newD = List.length newR /\
    ((a <= List.length bV)%nat ->
     List.length (bV ++ x) = Nat.max (List.length bV) (S a)).
Proof.
  unfold featureStep. cbv zeta. cbn [fst snd].
  assert (HbV : exists x,
             (if (List.length bV <=? a)%nat
              then bV ++ [computeBoundingSphere (position g) indices
                            (nth a featureStarts 0%nat)
                            (if (a =? List.length featureStarts - 1)%nat
                             then List.length indices
                             else nth (a + 1) featureStarts 0%nat)
                            tmpNormal range]
              else bV) = bV ++ x /\
             ((a <= List.length bV)%nat ->
              List.length (bV ++ x) = Nat.max (List.length bV) (S a))).
  { destruct (Nat.leb_spec (List.length bV) a).
    - eexists. split; [reflexivity|]. rewrite length_app. simpl. lia.
    - exists []. rewrite app_nil_r. split; [reflexivity|]. lia. }
  destruct HbV as [x [-> Hmax]].
  match goal with
  | |- context [featureIntersect ?m ?g ?i ?r ?t ?th ?l ?b ?e ?s ?st] =>
      destruct (featureIntersect_appends m g i r t th l b e s st) as [d1 [r1 [E1 L1]]]
  end.
  exists x, d1, r1. split; [|split; [exact L1|exact Hmax]].
  f_equal. exact E1.
Qed.

(** The feature loop from feature [a] on: the cache and both sinks only
    grow, one debug entry per record, and the cache ends up with one sphere
    for every feature visited. *)
Lemma featureLoop_appends (m : SolidLineMesh) (g : BufferGeometry) (indices : list nat)
    (rc : Raycaster) (tmpRay : Ray) (threshold lthSq : R) (featureStarts : list nat)
    (tmpNormal : Vector3) (range : option DisplacementRange) (n a : nat)
    (bV : list Sphere) (dbg : list DebugEntry) (out : list Intersection) :
  (a <= List.length bV)%nat ->
  exists extra newD newR,
    fold_left (featureStep m g indices rc tmpRay threshold lthSq featureStarts tmpNormal range)
              (seq a n) (bV, (dbg, out))
    = (bV ++ extra, (dbg ++ newD, out ++ newR)) /\
    List.length newD = List.length newR /\
    List.length (bV ++ extra) = Nat.max (List.length bV) (a + n).
Proof.
  revert a bV dbg out. induction n as [|n IH]; intros a bV dbg out Ha.
  - exists [], [], []. simpl. rewrite !app_nil_r. repeat split. lia.
  - cbn [seq fold_left].
    destruct (featureStep_appends m g indices rc tmpRay threshold lthSq featureStarts
                tmpNormal range a bV dbg out) as [x [d1 [r1 [E1 [L1 M1]]]]].
    rewrite E1. specialize (M1 Ha).
    destruct (IH (S a) (bV ++ x) (dbg ++ d1) (out ++ r1)) as [x2 [d2 [r2 [E2 [L2 M2]]]]];
      [lia|].
    rewrite E2. exists (x ++ x2), (d1 ++ d2), (r1 ++ r2).
    rewrite !app_assoc. split; [reflexivity|]. split.
    + rewrite !length_app. lia.
    + rewrite <- !app_assoc in M2. rewrite !app_assoc in M2. lia.
Qed.

(* ================================================================= *)
(** ** The geometry substitution *)

Lemma displacedPath_lookup (w : World) (g : BufferGeometry) (map : DataTexture) :
  displacedPath w = Some (g, map) ->
  exists v, lookupGeometry (heap w) (geometry (mesh w)) = Some (BufferGeom g v).
Proof.
  unfold displacedPath.
  destruct (lookupGeometry (heap w) (geometry (mesh w))) as [[|g' v]|]; try discriminate.
  destruct (hasDisplacementFeature _); [|discriminate].
  destruct (displacementMap _) as [[t|]|]; try discriminate.
  intros [= -> _]. exists v. reflexivity.
Qed.

(** After the substitution the mesh's geometry is the displaced view, and
    the view remembers the geometry it replaced. *)
Lemma substituteGeometry_spec (w : World) (g : BufferGeometry) (map : DataTexture) :
  validRefs w ->
  let '(w1, d) := substituteGeometry w g map in
  geometry (mesh w1) = d /\
  m_displacedGeometry (mesh w1) = Some d /\
  feature (mesh w1) = feature (mesh w) /\
  (List.length (heap w) <= List.length (heap w1))%nat /\
  (forall r, (r < List.length (heap w))%nat -> debugAt (heap w1) r = debugAt (heap w) r) /\
  exists dbg,
    lookupGeometry (heap w1) d
    = Some (displacedGeometryOver (geometry (mesh w)) g map
              (m_getDisplacementRange (mesh w)) dbg).
Proof.
  intros Hv. unfold substituteGeometry. cbv zeta.
  destruct (m_displacedGeometry (mesh w)) as [d|] eqn:Hd.
  - specialize (Hv d Hd). cbn. repeat split.
    + rewrite storeGeometry_length. lia.
    + intros r Hr. unfold debugAt. destruct (Nat.eq_dec d r) as [<-|Hne].
      * rewrite lookup_store_same by exact Hv. reflexivity.
      * rewrite lookup_store_other by exact Hne. reflexivity.
    + eexists. apply lookup_store_same, Hv.
  - cbn. repeat split.
    + rewrite length_app. lia.
    + intros r Hr. unfold debugAt. rewrite lookup_app_old by exact Hr. reflexivity.
    + eexists. apply lookup_app_new.
Qed.

Lemma originalGeometryAt_viewAt (h : list GeometryObject) (d o : GeometryRef)
    (v : DisplacedView) :
  viewAt h d = Some v -> originalGeometryAt h d o = originalGeometry v.
Proof.
  unfold viewAt, originalGeometryAt.
  destruct (lookupGeometry h d) as [[|g [v'|]]|]; try discriminate.
  intros [= ->]. reflexivity.
Qed.

(** C1, as the code has it.  A call of [raycast] that takes the displaced
    path runs [raycastImpl] with the displaced view as the mesh's geometry,
    the view recording the geometry it replaced.  When the call returns,
    the mesh's geometry is again the one it had before the call; this
    covers the early returns of [raycastImpl].  When a failed assertion
    throws, nothing restores the geometry: the mesh is left with the
    displaced view as its geometry. *)
Theorem raycast_restores_geometry_on_return
    (assertThrows : bool) (w : World) (rc : Raycaster) (ints : list Intersection)
    (g : BufferGeometry) (map : DataTexture) :
  displacedPath w = Some (g, map) ->
  validRefs w ->
  (let '(w1, d) := substituteGeometry w g map in
   geometry (mesh w1) = d /\
   option_map originalGeometry (viewAt (heap w1) d) = Some (geometry (mesh w))) /\
  (let '(w', _, c) := raycast assertThrows w rc ints in
   match c with
   | Returned => geometry (mesh w') = geometry (mesh w)
   | Thrown => m_displacedGeometry (mesh w') = Some (geometry (mesh w')) /\
               option_map originalGeometry (viewAt (heap w') (geometry (mesh w')))
               = Some (geometry (mesh w))
   end).
Proof.
  intros Hp Hv. unfold raycast. rewrite Hp.
  pose proof (substituteGeometry_spec w g map Hv) as Hs.
  destruct (substituteGeometry w g map) as [w1 d].
  destruct Hs as [Hg [Hd [_ [_ [_ [dbg Hl]]]]]].
  assert (Hview : viewAt (heap w1) d
                  = Some (mkView (geometry (mesh w)) map (m_getDisplacementRange (mesh w)))).
  { unfold viewAt. rewrite Hl. reflexivity. }
  split.
  - split; [exact Hg|]. rewrite Hview. reflexivity.
  - pose proof (raycastImpl_frame assertThrows w1 rc ints) as Hf.
    destruct (raycastImpl assertThrows w1 rc ints) as [[w2 out] c].
    destruct Hf as [Hg2 [Hd2 [Hv2 _]]].
    destruct c.
    + cbn. rewrite (originalGeometryAt_viewAt _ _ _ _ (eq_trans (Hv2 d) Hview)).
      reflexivity.
    + rewrite Hd2, Hg2, Hd, Hg. split; [reflexivity|].
      rewrite Hv2, Hview. reflexivity.
Qed.

Lemma noIndexWorld_validRefs : validRefs noIndexWorld.
Proof. intros d H. discriminate H. Defined.

Lemma raycast_restores_geometry_on_return_witness :
  (let '(w1, d) := substituteGeometry noIndexWorld (unitSegmentGeometry None) zeroMap in
   geometry (mesh w1) = d /\
   option_map originalGeometry (viewAt (heap w1) d) = Some (geometry (mesh noIndexWorld))) /\
  (let '(w', _, c) := raycast false noIndexWorld downRay [] in
   match c with
   | Returned => geometry (mesh w') = geometry (mesh noIndexWorld)
   | Thrown => m_displacedGeometry (mesh w') = Some (geometry (mesh w')) /\
               option_map originalGeometry (viewAt (heap w') (geometry (mesh w')))
               = Some (geometry (mesh noIndexWorld))
   end).
Proof.
  apply (raycast_restores_geometry_on_return false noIndexWorld downRay []
           (unitSegmentGeometry None) zeroMap).
  - reflexivity.
  - exact noIndexWorld_validRefs.
Defined.

(** C1, counterexample to the claim as stated.  On a displacement-capable
    mesh whose buffer geometry has no index, with assertions enabled, the
    call takes the displaced path, the assertion in [raycastImpl] throws,
    and the mesh's geometry after the call (address 1, the displaced view)
    is not the one before the call (address 0). *)
Lemma raycast_geometry_not_restored_on_throw :
  displacedPath noIndexWorld <> None /\
  validRefs noIndexWorld /\
  snd (raycast true noIndexWorld downRay []) = Thrown /\
  geometry (mesh noIndexWorld) = 0%nat /\
  geometry (mesh (fst (fst (raycast true noIndexWorld downRay [])))) = 1%nat.
Proof.
  split; [discriminate|]. split; [exact noIndexWorld_validRefs|].
  assert (E : raycast true noIndexWorld downRay []
              = (fst (substituteGeometry noIndexWorld (unitSegmentGeometry None) zeroMap),
                 [], Thrown)).
  { unfold raycast.
    change (displacedPath noIndexWorld) with (Some (unitSegmentGeometry None, zeroMap)).
    cbv iota beta.
    destruct (substituteGeometry noIndexWorld (unitSegmentGeometry None) zeroMap)
      as [w1 d] eqn:Es.
    rewrite raycastImpl_no_index; [reflexivity|].
    revert Es. unfold substituteGeometry. cbn. intros [= <- <-]. reflexivity. }
  rewrite E. repeat split.
Qed.

(* ================================================================= *)
(** ** Missing index *)

Lemma activeIndex_after_substitute (w : World) (g : BufferGeometry) (map : DataTexture) :
  validRefs w ->
  activeIndex (fst (substituteGeometry w g map)) = index g.
Proof.
  intros Hv. pose proof (substituteGeometry_spec w g map Hv) as Hs.
  destruct (substituteGeometry w g map) as [w1 d].
  destruct Hs as [Hg [_ [_ [_ [_ [dbg Hl]]]]]].
  unfold activeIndex. cbn [fst]. rewrite Hg, Hl. reflexivity.
Qed.

Lemma displacedPath_index (w : World) (g : BufferGeometry) (map : DataTexture) :
  displacedPath w = Some (g, map) -> activeIndex w = index g.
Proof.
  intros H. destruct (displacedPath_lookup w g map H) as [v Hl].
  unfold activeIndex. rewrite Hl. reflexivity.
Qed.

(** C8.  When the mesh's active geometry is not a buffer geometry or has no
    index, [raycast] ends at [assert(false)] in [raycastImpl]: the call
    completes as the failed assertion does, the caller's list of
    intersections is returned as it was, and neither the feature cache nor
    any geometry's debug list is written. *)
Theorem raycast_without_index_asserts
    (assertThrows : bool) (w : World) (rc : Raycaster) (ints : list Intersection) :
  activeIndex w = None ->
  validRefs w ->
  let '(w', ints', c) := raycast assertThrows w rc ints in
  c = assertFalse assertThrows /\
  ints' = ints /\
  feature (mesh w') = feature (mesh w) /\
  (forall r, (r < List.length (heap w))%nat -> debugAt (heap w') r = debugAt (heap w) r).
Proof.
  intros Hi Hv. unfold raycast.
  destruct (displacedPath w) as [[g map]|] eqn:Hp.
  - pose proof (displacedPath_index w g map Hp) as Hg. rewrite Hi in Hg.
    pose proof (activeIndex_after_substitute w g map Hv) as Ha.
    pose proof (substituteGeometry_spec w g map Hv) as Hs.
    destruct (substituteGeometry w g map) as [w1 d]. cbn [fst] in Ha.
    destruct Hs as [_ [_ [Hf [_ [Hdbg _]]]]].
    rewrite raycastImpl_no_index by congruence.
    unfold assertFalse. destruct assertThrows; cbn; repeat split; assumption.
  - rewrite raycastImpl_no_index by exact Hi. repeat split.
Qed.

Lemma raycast_without_index_asserts_witness :
  let '(w', ints', c) := raycast true noIndexWorld downRay [] in
  c = assertFalse true /\
  ints' = [] /\
  feature (mesh w') = feature (mesh noIndexWorld) /\
  (forall r, (r < List.length (heap noIndexWorld))%nat ->
     debugAt (heap w') r = debugAt (heap noIndexWorld) r).
Proof.
  apply (raycast_without_index_asserts true noIndexWorld downRay []).
  - reflexivity.
  - exact noIndexWorld_validRefs.
Defined.

(* ================================================================= *)
(** ** Persistent effects of raycastImpl *)

(** [raycastImpl] on a geometry with index, laid out as the feature loop
    followed by the write-back of the three arrays. *)
Lemma raycastImpl_loop (assertThrows : bool) (w : World) (rc : Raycaster)
    (ints : list Intersection) (g : BufferGeometry) (view : option DisplacedView)
    (indices : list nat) :
  lookupGeometry (heap w) (geometry (mesh w)) = Some (BufferGeom g view) ->
  index g = Some indices ->
  let m := mesh w in
  let threshold := lineWidth (material m) + outlineWidth (material m) in
  let out :=
    fold_left
      (featureStep m g indices rc (rayApplyMatrix4 (ray rc) (getInverse (matrixWorld m)))
         threshold (localThresholdOf m threshold * localThresholdOf m threshold)
         (featureStartsOf m) (readV3 (normal g) 0)
         (if geomRefEqb (geometry m) (m_displacedGeometry m)
          then option_map displacementRange view else None))
      (seq 0 (List.length (featureStartsOf m)))
      (cachedVolumes m, ([], ints)) in
  raycastImpl assertThrows w rc ints
  = (setFeature
       (mkWorld (storeGeometry (heap w) (geometry m)
                   (BufferGeom (setDebug g (fst (snd out))) view))
                (displacedPositions w) m)
       (mkFeature (match feature m with Some f => starts f | None => None end)
                  (Some (fst out))),
     snd (snd out), Returned).
Proof.
  intros Hl Hi. cbv zeta. unfold raycastImpl. cbv zeta. rewrite Hl, Hi.
  unfold featureStartsOf, cachedVolumes.
  destruct (feature (mesh w)) as [f|]; [destruct (starts f)|];
    destruct (fold_left _ _ _) as [bV [dbg out]]; reflexivity.
Qed.

Lemma activeIndex_Some (w : World) (indices : list nat) :
  activeIndex w = Some indices ->
  exists g view, lookupGeometry (heap w) (geometry (mesh w)) = Some (BufferGeom g view) /\
                 index g = Some indices.
Proof.
  unfold activeIndex.
  destruct (lookupGeometry (heap w) (geometry (mesh w))) as [[|g view]|]; try discriminate.
  intros H. exists g, view. split; [reflexivity|exact H].
Qed.

(** C10.  A call of [raycastImpl] that reaches the feature loop (the active
    geometry is a buffer geometry with an index) returns normally and
    leaves persistent state behind: [userData.debug] of the active geometry
    is replaced by the entries pushed during this call, one per record
    appended to the caller's list, whatever it held before;
    [this.userData.feature] exists afterwards with its [starts] as before
    and with [boundingVolumes] present, the former cache extended at its end
    to one sphere per feature. *)
Theorem raycastImpl_persistent_effects
    (assertThrows : bool) (w : World) (rc : Raycaster) (ints : list Intersection)
    (indices : list nat) :
  activeIndex w = Some indices ->
  let '(w', ints', c) := raycastImpl assertThrows w rc ints in
  c = Returned /\
  exists newDebug newRecords extra f,
    ints' = ints ++ newRecords /\
    debugAt (heap w') (geometry (mesh w)) = Some newDebug /\
    List.length newDebug = List.length newRecords /\
    feature (mesh w') = Some f /\
    starts f = match feature (mesh w) with Some f0 => starts f0 | None => None end /\
    boundingVolumes f = Some (cachedVolumes (mesh w) ++ extra) /\
    List.length (cachedVolumes (mesh w) ++ extra)
    = Nat.max (List.length (cachedVolumes (mesh w)))
              (List.length (featureStartsOf (mesh w))).
Proof.
  intros Ha. destruct (activeIndex_Some w indices Ha) as [g [view [Hl Hi]]].
  rewrite (raycastImpl_loop assertThrows w rc ints g view indices Hl Hi).
  cbv zeta.
  match goal with
  | |- context [fold_left (featureStep ?m ?g ?i ?r ?t ?th ?l ?fs ?n ?rg) (seq 0 ?k) _] =>
      destruct (featureLoop_appends m g i r t th l fs n rg k 0
                  (cachedVolumes (mesh w)) [] ints (Nat.le_0_l _))
        as [extra [newD [newR [E [L M]]]]]
  end.
  rewrite E. cbn [fst snd]. split; [reflexivity|].
  exists newD, newR, extra. eexists. split; [reflexivity|]. split.
  - unfold debugAt. cbn [heap setFeature mesh].
    rewrite lookup_store_same by (eapply lookup_Some_lt, Hl). reflexivity.
  - split; [exact L|]. cbn. repeat split. exact M.
Qed.

Lemma raycastImpl_persistent_effects_witness :
  let '(w', ints', c) := raycastImpl true plainWorld downRay [] in
  c = Returned /\
  exists newDebug newRecords extra f,
    ints' = [] ++ newRecords /\
    debugAt (heap w') (geometry (mesh plainWorld)) = Some newDebug /\
    List.length newDebug = List.length newRecords /\
    feature (mesh w') = Some f /\
    starts f = match feature (mesh plainWorld) with Some f0 => starts f0 | None => None end /\
    boundingVolumes f = Some (cachedVolumes (mesh plainWorld) ++ extra) /\
    List.length (cachedVolumes (mesh plainWorld) ++ extra)
    = Nat.max (List.length (cachedVolumes (mesh plainWorld)))
              (List.length (featureStartsOf (mesh plainWorld))).
Proof.
  apply (raycastImpl_persistent_effects true plainWorld downRay [] unitSegmentIndices).
  reflexivity.
Defined.

(* ================================================================= *)
(** ** Evaluation under the identity transform *)

Lemma v3_eq (a b : Vector3) :
  vx a = vx b -> vy a = vy b -> vz a = vz b -> a = b.
Proof. destruct a, b. simpl. intros -> -> ->. reflexivity. Qed.

Ltac rdec :=
  repeat match goal with
         | |- context [Req_dec_T ?a ?b] => destruct (Req_dec_T a b); try (exfalso; lra)
         | |- context [Rle_dec ?a ?b] => destruct (Rle_dec a b); try (exfalso; lra)
         | |- context [Rlt_dec ?a ?b] => destruct (Rlt_dec a b); try (exfalso; lra)
         end.

(** Evaluates [Rmin] and [Rmax] of numerals, innermost first. *)
Ltac rminmax :=
  repeat match goal with
         | |- context [Rmin ?a ?b] =>
             first [rewrite (Rmin_left a b) by lra | rewrite (Rmin_right a b) by lra]
         | |- context [Rmax ?a ?b] =>
             first [rewrite (Rmax_left a b) by lra | rewrite (Rmax_right a b) by lra]
         end.

Lemma m4_eq (a b : Matrix4) :
  n11 a = n11 b -> n12 a = n12 b -> n13 a = n13 b -> n14 a = n14 b ->
  n21 a = n21 b -> n22 a = n22 b -> n23 a = n23 b -> n24 a = n24 b ->
  n31 a = n31 b -> n32 a = n32 b -> n33 a = n33 b -> n34 a = n34 b ->
  n41 a = n41 b -> n42 a = n42 b -> n43 a = n43 b -> n44 a = n44 b ->
  a = b.
Proof.
  destruct a, b. simpl. intros. subst. reflexivity.
Qed.

Lemma getInverse_identity : getInverse m4identity = m4identity.
Proof.
  unfold getInverse, m4identity. simpl.
  match goal with
  | |- context [Req_dec_T ?d 0] => replace d with 1 by ring
  end.
  destruct (Req_dec_T 1 0) as [E|_]; [exfalso; lra|].
  apply m4_eq; simpl; lra.
Qed.

Lemma applyMatrix4_identity (v : Vector3) : applyMatrix4 v m4identity = v.
Proof.
  unfold applyMatrix4, m4identity. simpl. apply v3_eq; simpl; field.
Qed.

Lemma normalize_unit (v : Vector3) : lengthSq v = 1 -> normalize v = v.
Proof.
  intros H. unfold normalize, length3. rewrite H, sqrt_1. cbv zeta. rdec.
  unfold divideScalar, multiplyScalar. apply v3_eq; simpl; field.
Qed.

Lemma transformDirection_identity (v : Vector3) :
  lengthSq v = 1 -> transformDirection v m4identity = v.
Proof.
  intros H. unfold transformDirection, m4identity. simpl.
  replace (mkV3 (1 * vx v + 0 * vy v + 0 * vz v) (0 * vx v + 1 * vy v + 0 * vz v)
                (0 * vx v + 0 * vy v + 1 * vz v)) with v
    by (apply v3_eq; simpl; ring).
  apply normalize_unit, H.
Qed.

Lemma Rmax_same (a : R) : Rmax a a = a.
Proof. unfold Rmax. destruct Rle_dec; reflexivity. Qed.

Lemma getMaxScaleOnAxis_identity : getMaxScaleOnAxis m4identity = 1.
Proof.
  unfold getMaxScaleOnAxis, m4identity. simpl.
  replace (1 * 1 + 0 * 0 + 0 * 0) with 1 by ring.
  replace (0 * 0 + 1 * 1 + 0 * 0) with 1 by ring.
  replace (0 * 0 + 0 * 0 + 1 * 1) with 1 by ring.
  rewrite !Rmax_same. apply sqrt_1.
Qed.

Lemma rayApplyMatrix4_identity (r : Ray) :
  lengthSq (direction r) = 1 -> rayApplyMatrix4 r m4identity = r.
Proof.
  intros H. unfold rayApplyMatrix4.
  rewrite applyMatrix4_identity, (transformDirection_identity _ H).
  destruct r. reflexivity.
Qed.

Lemma sphereApplyMatrix4_identity (s : Sphere) : sphereApplyMatrix4 s m4identity = s.
Proof.
  unfold sphereApplyMatrix4. rewrite applyMatrix4_identity, getMaxScaleOnAxis_identity.
  destruct s. simpl. f_equal. ring.
Qed.

(** Normalising a vector along the z axis. *)
Lemma normalize_z (k : R) :
  k <> 0 -> normalize (mkV3 0 0 k) = mkV3 0 0 (k / Rabs k).
Proof.
  intros Hk. unfold normalize, length3, lengthSq, dot. simpl.
  replace (0 * 0 + 0 * 0 + k * k) with (Rsqr k) by (unfold Rsqr; ring).
  rewrite sqrt_Rsqr_abs.
  assert (Ha : Rabs k <> 0) by (apply Rabs_no_R0, Hk).
  destruct Req_dec_T as [E|_]; [contradiction|].
  unfold divideScalar, multiplyScalar. apply v3_eq; simpl; field; exact Ha.
Qed.

(** A ray pointing straight down meets a plane through the origin that
    faces along z at height zero. *)
Lemma intersectPlane_down (ox oy oz s : R) (pl : Plane) :
  pnormal pl = mkV3 0 0 s -> pconstant pl = 0 ->
  s <> 0 -> 0 <= oz ->
  intersectPlane (mkRay (mkV3 ox oy oz) (mkV3 0 0 (-1))) pl = Some (mkV3 ox oy 0).
Proof.
  intros Hn Hc Hs Ho. unfold intersectPlane, distanceToPlane. rewrite Hn, Hc.
  unfold dot. simpl.
  destruct Req_dec_T as [E|_]; [exfalso; apply Hs; lra|].
  assert (Et : - (ox * 0 + oy * 0 + oz * s + 0) / (0 * 0 + 0 * 0 + s * -1) = oz)
    by (field; exact Hs).
  rewrite Et. destruct Rle_dec; [|contradiction].
  f_equal. unfold rayAt, v3add, multiplyScalar. apply v3_eq; simpl; ring.
Qed.

(** Distance from the centre of a sphere to a ray pointing straight down
    from above the centre. *)
Lemma distanceSqToPoint_down (ox oy oz : R) (c : Vector3) :
  vz c <= oz ->
  distanceSqToPoint (mkRay (mkV3 ox oy oz) (mkV3 0 0 (-1))) c
  = (ox - vx c) * (ox - vx c) + (oy - vy c) * (oy - vy c).
Proof.
  intros H. unfold distanceSqToPoint, dot, v3sub, rayAt, v3add, multiplyScalar. simpl.
  destruct Rlt_dec as [Hlt|_]; [exfalso; lra|].
  unfold distanceToSquared. simpl. ring.
Qed.

Lemma intersectsSphere_down (ox oy oz : R) (s : Sphere) :
  vz (center s) <= oz ->
  intersectsSphere (mkRay (mkV3 ox oy oz) (mkV3 0 0 (-1))) s
  = if Rle_dec ((ox - vx (center s)) * (ox - vx (center s))
                + (oy - vy (center s)) * (oy - vy (center s)))
               (radius s * radius s)
    then true else false.
Proof.
  intros H. unfold intersectsSphere. rewrite (distanceSqToPoint_down _ _ _ _ H).
  reflexivity.
Qed.

Lemma clamp01 (t : R) : 0 <= t <= 1 -> Rmax 0 (Rmin 1 t) = t.
Proof. intros H. unfold Rmax, Rmin. repeat destruct Rle_dec; lra. Qed.

Lemma sumsq3_zero (p q r : R) :
  p * p + q * q + r * r = 0 -> p = 0 /\ q = 0 /\ r = 0.
Proof.
  intros E.
  pose proof (Rle_0_sqr p) as Hp. pose proof (Rle_0_sqr q) as Hq.
  pose proof (Rle_0_sqr r) as Hr. unfold Rsqr in *.
  assert (Ep : p * p = 0) by lra.
  assert (Eq : q * q = 0) by lra.
  assert (Er : r * r = 0) by lra.
  repeat split.
  - destruct (Rmult_integral _ _ Ep); assumption.
  - destruct (Rmult_integral _ _ Eq); assumption.
  - destruct (Rmult_integral _ _ Er); assumption.
Qed.

(** The closest point of a centreline to one of its own points. *)
Lemma closestPointToPoint_on_line (a b : Vector3) (s : R) :
  a <> b -> 0 <= s <= 1 ->
  closestPointToPoint (mkLine3 a b) (v3add (multiplyScalar (v3sub b a) s) a) true
  = Some (v3add (multiplyScalar (v3sub b a) s) a).
Proof.
  intros Hab Hs. unfold closestPointToPoint, closestPointToPointParameter.
  cbv zeta. cbn [lstart lend].
  assert (Hd : dot (v3sub b a) (v3sub b a) <> 0).
  { intros E. apply Hab. unfold dot, v3sub in E. simpl in E.
    destruct (sumsq3_zero _ _ _ E) as [Hx [Hy Hz]].
    apply v3_eq; lra. }
  destruct Req_dec_T as [E|_]; [contradiction|].
  replace (dot (v3sub b a) (v3sub (v3add (multiplyScalar (v3sub b a) s) a) a)
           / dot (v3sub b a) (v3sub b a)) with s.
  - rewrite (clamp01 s Hs). reflexivity.
  - unfold dot, v3sub, v3add, multiplyScalar in *. simpl in *. field. exact Hd.
Qed.

Lemma distanceTo_vertical (x y z z' : R) :
  z' <= z -> distanceTo (mkV3 x y z) (mkV3 x y z') = z - z'.
Proof.
  intros H. unfold distanceTo, distanceToSquared. simpl.
  replace ((x - x) * (x - x) + (y - y) * (y - y) + (z - z') * (z - z'))
    with ((z - z') * (z - z')) by ring.
  apply sqrt_square. lra.
Qed.

(* ================================================================= *)
(** ** Segments in the plane z = 0 under a vertical ray *)

(** The plane of a segment that lies in z = 0 with its extrusion direction
    in z = 0 faces along z and passes through the origin. *)
Lemma segmentPlane_flat (g : BufferGeometry) (indices : list nat) (i : nat)
    (ax ay bx by' ex ey : R) :
  segmentStart g indices i = mkV3 ax ay 0 ->
  segmentEnd g indices i = mkV3 bx by' 0 ->
  readV3 (bitangent g) (indexAt indices i) = mkV3 ex ey 0 ->
  (bx - ax) * ey - (by' - ay) * ex <> 0 ->
  exists s, s <> 0 /\
    pnormal (segmentPlane g indices i) = mkV3 0 0 s /\
    pconstant (segmentPlane g indices i) = 0.
Proof.
  intros Ha Hb He Hk. unfold segmentPlane, setFromCoplanarPoints. rewrite Ha, Hb, He.
  cbv zeta. cbn [pnormal pconstant].
  set (k := (by' - ay) * ex - (bx - ax) * ey).
  assert (Hk' : k <> 0) by (unfold k; lra).
  replace (cross (v3sub (mkV3 bx by' 0) (v3add (mkV3 ax ay 0) (mkV3 ex ey 0)))
                 (v3sub (mkV3 ax ay 0) (v3add (mkV3 ax ay 0) (mkV3 ex ey 0))))
    with (mkV3 0 0 k)
    by (unfold k; apply v3_eq; simpl; ring).
  rewrite (normalize_z k Hk').
  exists (k / Rabs k). split; [|split; [reflexivity|]].
  - assert (Hab : Rabs k <> 0) by (apply Rabs_no_R0, Hk').
    intros E. apply Hk'. apply (Rmult_eq_compat_r (Rabs k)) in E.
    field_simplify in E; [lra|exact Hab].
  - unfold dot. simpl. ring.
Qed.

(** A vertical ray through a point of such a segment's centreline hits the
    segment, whatever the non-negative threshold, when the height of the ray
    origin is within [near, far]. *)
Lemma segmentHitAt_flat (m : SolidLineMesh) (g : BufferGeometry) (indices : list nat)
    (i : nat) (ox oy oz nr fr lthSq ax ay bx by' ex ey s : R) :
  matrixWorld m = m4identity ->
  segmentStart g indices i = mkV3 ax ay 0 ->
  segmentEnd g indices i = mkV3 bx by' 0 ->
  readV3 (bitangent g) (indexAt indices i) = mkV3 ex ey 0 ->
  (bx - ax) * ey - (by' - ay) * ex <> 0 ->
  0 <= s <= 1 ->
  ox = (bx - ax) * s + ax -> oy = (by' - ay) * s + ay ->
  0 <= lthSq -> 0 <= oz -> nr <= oz <= fr ->
  segmentHitAt m g indices
    (mkRaycaster (mkRay (mkV3 ox oy oz) (mkV3 0 0 (-1))) nr fr)
    (mkRay (mkV3 ox oy oz) (mkV3 0 0 (-1))) lthSq i (mkV3 ox oy 0).
Proof.
  intros Hm Ha Hb He Hk Hs Hx Hy Hl Hoz Hnf.
  destruct (segmentPlane_flat g indices i ax ay bx by' ex ey Ha Hb He Hk)
    as [sgn [Hsgn [Hn Hc]]].
  unfold segmentHitAt. split; [|split].
  - apply (intersectPlane_down ox oy oz sgn); assumption.
  - assert (Hab : mkV3 ax ay 0 <> mkV3 bx by' 0).
    { intros [= E1 E2]. apply Hk. subst. ring. }
    unfold passesWidthTest. rewrite Ha, Hb.
    replace (mkV3 ox oy 0)
      with (v3add (multiplyScalar (v3sub (mkV3 bx by' 0) (mkV3 ax ay 0)) s) (mkV3 ax ay 0))
      by (apply v3_eq; simpl; lra).
    rewrite (closestPointToPoint_on_line _ _ s Hab Hs), distanceToSquared_self. exact Hl.
  - rewrite Hm, applyMatrix4_identity. cbn [ray origin near far].
    rewrite (distanceTo_vertical ox oy oz 0 Hoz). lra.
Qed.

(* ================================================================= *)
(** ** A mesh with a single feature *)

Lemma featureIntersect_pass (m : SolidLineMesh) (g : BufferGeometry) (indices : list nat)
    (rc : Raycaster) (tmpRay : Ray) (threshold lthSq : R) (b e : nat) (bSphere : Sphere)
    (st : Sinks) :
  intersectsSphere (ray rc) (inflatedSphere m bSphere threshold) = true ->
  featureIntersect m g indices rc tmpRay threshold lthSq b e bSphere st
  = (fst st ++ flat_map (segmentDebug m g indices rc tmpRay threshold lthSq)
                        (segmentStarts b e),
     snd st ++ flat_map (segmentRecords m g indices rc tmpRay threshold lthSq)
                        (segmentStarts b e)).
Proof.
  intros Hs. unfold featureIntersect. cbv zeta.
  change (mkSphere _ _) with (inflatedSphere m bSphere threshold).
  rewrite Hs. cbn [negb]. apply fold_pushSegment_records.
Qed.

Lemma featureIntersect_reject (m : SolidLineMesh) (g : BufferGeometry) (indices : list nat)
    (rc : Raycaster) (tmpRay : Ray) (threshold lthSq : R) (b e : nat) (bSphere : Sphere)
    (st : Sinks) :
  intersectsSphere (ray rc) (inflatedSphere m bSphere threshold) = false ->
  featureIntersect m g indices rc tmpRay threshold lthSq b e bSphere st = st.
Proof.
  intros Hs. unfold featureIntersect. cbv zeta.
  change (mkSphere _ _) with (inflatedSphere m bSphere threshold).
  rewrite Hs. reflexivity.
Qed.

(** With no feature data on the mesh there is one feature, the whole index
    array, and its sphere is computed afresh. *)
Lemma raycastImpl_single_feature (assertThrows : bool) (w : World) (rc : Raycaster)
    (ints : list Intersection) (g : BufferGeometry) (view : option DisplacedView)
    (indices : list nat) :
  lookupGeometry (heap w) (geometry (mesh w)) = Some (BufferGeom g view) ->
  index g = Some indices ->
  feature (mesh w) = None ->
  let m := mesh w in
  let threshold := lineWidth (material m) + outlineWidth (material m) in
  snd (fst (raycastImpl assertThrows w rc ints))
  = snd (featureIntersect m g indices rc
           (rayApplyMatrix4 (ray rc) (getInverse (matrixWorld m)))
           threshold (localThresholdOf m threshold * localThresholdOf m threshold)
           0 (List.length indices)
           (computeBoundingSphere (position g) indices 0 (List.length indices)
              (readV3 (normal g) 0)
              (if geomRefEqb (geometry m) (m_displacedGeometry m)
               then option_map displacementRange view else None))
           ([], ints)).
Proof.
  intros Hl Hi Hf. cbv zeta.
  rewrite (raycastImpl_loop assertThrows w rc ints g view indices Hl Hi).
  cbv zeta. unfold featureStartsOf, cachedVolumes. rewrite Hf.
  cbn [List.length seq fold_left fst snd]. unfold featureStep. cbv zeta.
  cbn [List.length fst snd Nat.leb Nat.eqb Nat.sub nth app].
  reflexivity.
Qed.

Lemma raycast_displaced_records (assertThrows : bool) (w : World) (rc : Raycaster)
    (ints : list Intersection) (g : BufferGeometry) (map : DataTexture) :
  displacedPath w = Some (g, map) ->
  snd (fst (raycast assertThrows w rc ints))
  = snd (fst (raycastImpl assertThrows (fst (substituteGeometry w g map)) rc ints)).
Proof.
  intros Hp. unfold raycast. rewrite Hp.
  destruct (substituteGeometry w g map) as [w1 d]. cbn [fst].
  destruct (raycastImpl assertThrows w1 rc ints) as [[w2 out] c].
  destruct c; reflexivity.
Qed.

Lemma localThresholdSq_nonneg (m : SolidLineMesh) (t : R) :
  0 <= localThresholdOf m t * localThresholdOf m t.
Proof. generalize (localThresholdOf m t). intros x. nra. Qed.

(* ================================================================= *)
(** ** The unit segment under the vertical ray *)

Lemma downRay_hits_unit_segment (lthSq : R) :
  0 <= lthSq ->
  segmentHitAt (mesh plainWorld) (unitSegmentGeometry (Some unitSegmentIndices))
    unitSegmentIndices downRay (ray downRay) lthSq 0 (mkV3 1 0 0).
Proof.
  intros Hl.
  apply (segmentHitAt_flat (mesh plainWorld) _ unitSegmentIndices 0%nat
           1 0 5 0 100 lthSq 0 0 1 0 0 1 1); try reflexivity; try lra.
Qed.

Lemma downRay_meets_unit_sphere (t : R) :
  1 <= t ->
  intersectsSphere (ray downRay) (inflatedSphere (mesh plainWorld) (mkSphere (mkV3 0 0 0) 0) t)
  = true.
Proof.
  intros Ht. unfold inflatedSphere.
  change (matrixWorld (mesh plainWorld)) with m4identity.
  rewrite sphereApplyMatrix4_identity.
  change (ray downRay) with (mkRay (mkV3 1 0 5) (mkV3 0 0 (-1))).
  rewrite intersectsSphere_down by (simpl; lra).
  simpl. destruct Rle_dec as [|Hn]; [reflexivity|]. exfalso. apply Hn. nra.
Qed.

Lemma plainWorld_records :
  snd (fst (raycast true plainWorld downRay [])) = [mkIntersection 5 (mkV3 1 0 0) 0 7].
Proof.
  unfold raycast. change (displacedPath plainWorld) with (@None (BufferGeometry * DataTexture)).
  cbv iota.
  rewrite (raycastImpl_single_feature true plainWorld downRay []
             (unitSegmentGeometry (Some unitSegmentIndices)) None unitSegmentIndices
             eq_refl eq_refl eq_refl).
  cbv zeta.
  change (matrixWorld (mesh plainWorld)) with m4identity.
  rewrite getInverse_identity.
  rewrite rayApplyMatrix4_identity by (unfold lengthSq, dot; simpl; ring).
  change (if geomRefEqb _ _ then _ else _) with (@None DisplacementRange).
  rewrite (computeBoundingSphere_single _ _ _ _ _ (mkV3 0 0 0))
    by (rewrite sampledVertices_one_segment by (unfold step; simpl; lia); reflexivity).
  rewrite featureIntersect_pass
    by (apply downRay_meets_unit_sphere; simpl; lra).
  cbn [snd app].
  change (segmentStarts 0 (List.length unitSegmentIndices)) with [0%nat].
  cbn [flat_map].
  rewrite (segmentRecords_hit _ _ _ _ _ _ _ _ (mkV3 1 0 0))
    by (apply downRay_hits_unit_segment, localThresholdSq_nonneg).
  change (matrixWorld (mesh plainWorld)) with m4identity.
  rewrite applyMatrix4_identity.
  change (origin (ray downRay)) with (mkV3 1 0 5).
  rewrite (distanceTo_vertical 1 0 5 0) by lra.
  replace (5 - 0) with 5 by ring. reflexivity.
Qed.

(* ================================================================= *)
(** ** The fallback of raycast *)

(** C2, as the code has it.  When the geometry is not a buffer geometry,
    or the material lacks the displacement feature or a data-texture
    displacement map, [raycast] calls the mesh's own [raycastImpl] on the
    mesh as it is, with no displaced view substituted, and returns what
    [raycastImpl] returns: the per-feature, per-segment line test is the
    fallback. *)
Theorem raycast_fallback_runs_raycastImpl
    (assertThrows : bool) (w : World) (rc : Raycaster) (ints : list Intersection) :
  displacedPath w = None ->
  raycast assertThrows w rc ints = raycastImpl assertThrows w rc ints.
Proof. intros H. unfold raycast. rewrite H. reflexivity. Qed.

Lemma raycast_fallback_runs_raycastImpl_witness :
  raycast true plainWorld downRay [] = raycastImpl true plainWorld downRay [].
Proof.
  apply (raycast_fallback_runs_raycastImpl true plainWorld downRay []).
  reflexivity.
Defined.

(** C2, counterexample to the claim as stated.  The mesh of [plainWorld]
    has a material without displacement.  [raycast] nevertheless performs
    the per-segment test itself: it returns the record of segment 0 built
    by [featureIntersect], and it creates the feature cache on the mesh, so
    its result is not that of handing the call to any whole-mesh triangle
    intersection that leaves the mesh alone. *)
Lemma raycast_fallback_not_delegated :
  displacedPath plainWorld = None /\
  snd (fst (raycast true plainWorld downRay [])) = [mkIntersection 5 (mkV3 1 0 0) 0 7] /\
  feature (mesh plainWorld) = None /\
  feature (mesh (fst (fst (raycast true plainWorld downRay [])))) <> None /\
  forall defaultRaycast,
    raycast true plainWorld downRay [] <> delegatedRaycast defaultRaycast plainWorld downRay [].
Proof.
  assert (Hf : feature (mesh (fst (fst (raycast true plainWorld downRay [])))) <> None).
  { unfold raycast.
    change (displacedPath plainWorld) with (@None (BufferGeometry * DataTexture)). cbv iota.
    rewrite (raycastImpl_loop true plainWorld downRay []
               (unitSegmentGeometry (Some unitSegmentIndices)) None unitSegmentIndices
               eq_refl eq_refl).
    cbn. discriminate. }
  split; [reflexivity|]. split; [exact plainWorld_records|]. split; [reflexivity|].
  split; [exact Hf|].
  intros defaultRaycast E. apply Hf. rewrite E. reflexivity.
Qed.

(* ================================================================= *)
(** ** The local threshold *)



(* ================================================================= *)
(** ** The diamond feature *)

Lemma displaced_by_zeroMap (pos : BufferAttribute) (nrm : list Vector3)
    (uvs : list Vector2) (i : nat) :
  fromBufferAttribute (DisplacedAttribute pos nrm uvs zeroMap) i = fromBufferAttribute pos i.
Proof. cbn [fromBufferAttribute]. apply v3_eq; simpl; ring. Qed.

Lemma sampledVertices_zeroMap (pos : BufferAttribute) (nrm : list Vector3)
    (uvs : list Vector2) (indices : list nat) (b e : nat) :
  sampledVertices (DisplacedAttribute pos nrm uvs zeroMap) indices b e
  = sampledVertices pos indices b e.
Proof.
  unfold sampledVertices. apply map_ext. intros i. apply displaced_by_zeroMap.
Qed.

Lemma diamond_sampledVertices :
  sampledVertices diamondPosition diamondIndices 0 24
  = [mkV3 (-4) 0 0; mkV3 0 (-4) 0; mkV3 4 0 0; mkV3 0 4 0].
Proof. reflexivity. Qed.

Lemma diamond_box :
  sampledBox diamondPosition diamondIndices 0 24 = Box (mkV3 (-4) (-4) 0) (mkV3 4 4 0).
Proof.
  unfold sampledBox. rewrite diamond_sampledVertices.
  cbn [fold_left expandByPoint makeEmpty].
  f_equal; apply v3_eq; simpl; rminmax; lra.
Qed.

Lemma diamond_center : getCenter (Box (mkV3 (-4) (-4) 0) (mkV3 4 4 0)) = mkV3 0 0 0.
Proof.
  unfold getCenter, isEmpty. simpl. rdec. apply v3_eq; simpl; lra.
Qed.

(** Without displacement range the diamond's sphere has radius 4. *)
Lemma diamond_tight_sphere (n : Vector3) :
  computeBoundingSphere diamondPosition diamondIndices 0 24 n None
  = mkSphere (mkV3 0 0 0) 4.
Proof.
  unfold computeBoundingSphere. rewrite diamond_box, diamond_center, diamond_sampledVertices.
  f_equal. unfold maxRadiusSqFrom. cbn [fold_left].
  replace (distanceToSquared (mkV3 0 0 0) (mkV3 (-4) 0 0)) with 16
    by (unfold distanceToSquared; simpl; ring).
  replace (distanceToSquared (mkV3 0 0 0) (mkV3 0 (-4) 0)) with 16
    by (unfold distanceToSquared; simpl; ring).
  replace (distanceToSquared (mkV3 0 0 0) (mkV3 4 0 0)) with 16
    by (unfold distanceToSquared; simpl; ring).
  replace (distanceToSquared (mkV3 0 0 0) (mkV3 0 4 0)) with 16
    by (unfold distanceToSquared; simpl; ring).
  replace (Rmax 0 16) with 16 by (unfold Rmax; rdec; lra).
  rewrite !Rmax_same.
  replace 16 with (4 * 4) by ring. apply sqrt_square. lra.
Qed.

(** With the displacement range (0, 0) it is the sphere around the box,
    of radius half the diagonal of the square of side 8. *)
Lemma diamond_box_sphere (nrm : list Vector3) (uvs : list Vector2) :
  computeBoundingSphere (DisplacedAttribute diamondPosition nrm uvs zeroMap)
    diamondIndices 0 24 (mkV3 0 0 1) (Some (mkRange 0 0))
  = mkSphere (mkV3 0 0 0) (sqrt 128 * (1 / 2)).
Proof.
  unfold computeBoundingSphere, sampledBox. rewrite sampledVertices_zeroMap.
  fold (sampledBox diamondPosition diamondIndices 0 24). rewrite diamond_box.
  cbv zeta. cbn [rmin rmax translate union].
  replace (Box _ _) with (Box (mkV3 (-4) (-4) 0) (mkV3 4 4 0))
    by (f_equal; apply v3_eq; simpl; rminmax; lra).
  unfold getBoundingSphere. rewrite diamond_center. f_equal.
  unfold getSize, isEmpty. simpl. rdec.
  unfold length3, lengthSq, dot, v3sub. simpl.
  replace ((4 - -4) * (4 - -4) + (4 - -4) * (4 - -4) + (0 - 0) * (0 - 0)) with 128 by ring.
  reflexivity.
Qed.

(** With displacement disabled the corner ray misses the inflated tight
    sphere (32 > 25) and the feature is skipped. *)
Lemma diamond_plain_records :
  snd (fst (raycast true diamondPlainWorld cornerRay [])) = [].
Proof.
  unfold raycast.
  change (displacedPath diamondPlainWorld) with (@None (BufferGeometry * DataTexture)).
  cbv iota.
  rewrite (raycastImpl_single_feature true diamondPlainWorld cornerRay []
             diamondGeometry None diamondIndices eq_refl eq_refl eq_refl).
  cbv zeta.
  change (if geomRefEqb _ _ then _ else _) with (@None DisplacementRange).
  change (List.length diamondIndices) with 24%nat.
  change (position diamondGeometry) with diamondPosition.
  rewrite diamond_tight_sphere.
  rewrite featureIntersect_reject; [reflexivity|].
  unfold inflatedSphere.
  change (matrixWorld (mesh diamondPlainWorld)) with m4identity.
  rewrite sphereApplyMatrix4_identity.
  change (ray cornerRay) with (mkRay (mkV3 (-4) 4 5) (mkV3 0 0 (-1))).
  rewrite intersectsSphere_down by (simpl; lra).
  simpl. destruct Rle_dec as [H|]; [exfalso; lra|reflexivity].
Qed.

(** The displaced geometry that [raycast] substitutes on the diamond. *)
Lemma diamond_substituted :
  exists w1 gD,
    fst (substituteGeometry diamondDisplacedWorld diamondGeometry zeroMap) = w1 /\
    lookupGeometry (heap w1) (geometry (mesh w1))
    = Some (BufferGeom gD (Some (mkView 0%nat zeroMap (mkRange 0 0)))) /\
    index gD = Some diamondIndices /\
    position gD = DisplacedAttribute diamondPosition (normal diamondGeometry)
                    (uv diamondGeometry) zeroMap /\
    normal gD = normal diamondGeometry /\
    bitangent gD = bitangent diamondGeometry /\
    feature (mesh w1) = None /\
    matrixWorld (mesh w1) = m4identity /\
    material (mesh w1) = displacedMaterial /\
    meshId (mesh w1) = 7%nat /\
    geomRefEqb (geometry (mesh w1)) (m_displacedGeometry (mesh w1)) = true.
Proof.
  eexists. eexists. split; [reflexivity|]. cbn. repeat split.
Qed.

(** With displacement enabled, range (0, 0) and a map that samples to zero,
    the corner ray meets the inflated box sphere and the last segment
    reports a hit at its end vertex. *)
Lemma diamond_displaced_records :
  In (mkIntersection 5 (mkV3 (-4) 4 0) 18 7)
     (snd (fst (raycast true diamondDisplacedWorld cornerRay []))).
Proof.
  rewrite (raycast_displaced_records true diamondDisplacedWorld cornerRay []
             diamondGeometry zeroMap eq_refl).
  destruct diamond_substituted
    as [w1 [gD [-> [Hl [Hi [Hp [Hn [Hb [Hf [Hm [Hmat [Hid Heq]]]]]]]]]]]].
  rewrite (raycastImpl_single_feature true w1 cornerRay [] gD _ diamondIndices Hl Hi Hf).
  cbv zeta. rewrite Heq, Hm, Hmat, Hp, Hn. cbn [option_map displacementRange].
  rewrite getInverse_identity.
  rewrite rayApplyMatrix4_identity by (unfold lengthSq, dot; simpl; ring).
  change (List.length diamondIndices) with 24%nat.
  change (readV3 (normal diamondGeometry) 0) with (mkV3 0 0 1).
  rewrite diamond_box_sphere.
  rewrite featureIntersect_pass.
  - cbn [snd app]. apply in_flat_map. exists 18%nat. split.
    + change (segmentStarts 0 24) with [0; 6; 12; 18]%nat. simpl. auto.
    + assert (Hhit : segmentHitAt (mesh w1) gD diamondIndices cornerRay (ray cornerRay)
                       (localThresholdOf (mesh w1)
                          (lineWidth displacedMaterial + outlineWidth displacedMaterial)
                        * localThresholdOf (mesh w1)
                            (lineWidth displacedMaterial + outlineWidth displacedMaterial))
                       18 (mkV3 (-4) 4 0)).
      { apply (segmentHitAt_flat (mesh w1) gD diamondIndices 18%nat
                 (-4) 4 5 0 100 _ 0 4 (-4) 4 0 1 1); try lra.
        - exact Hm.
        - unfold segmentStart. rewrite Hp. apply v3_eq; simpl; ring.
        - unfold segmentEnd. rewrite Hp. apply v3_eq; simpl; ring.
        - rewrite Hb. reflexivity.
        - apply localThresholdSq_nonneg. }
      rewrite (segmentRecords_hit _ _ _ _ _ _ _ _ _ Hhit).
      rewrite Hm, applyMatrix4_identity, Hid.
      change (origin (ray cornerRay)) with (mkV3 (-4) 4 5).
      rewrite (distanceTo_vertical (-4) 4 5 0) by lra.
      replace (5 - 0) with 5 by ring. left. reflexivity.
  - unfold inflatedSphere. rewrite Hm, sphereApplyMatrix4_identity.
    change (ray cornerRay) with (mkRay (mkV3 (-4) 4 5) (mkV3 0 0 (-1))).
    rewrite intersectsSphere_down by (simpl; lra).
    simpl. destruct Rle_dec as [|Hn']; [reflexivity|]. exfalso. apply Hn'.
    pose proof (sqrt_pos 128) as Hq.
    assert (Hqq : sqrt 128 * sqrt 128 = 128) by (apply sqrt_sqrt; lra).
    nra.
Qed.

(** C7, the code at the failing input.  The diamond mesh has displacement
    range (0, 0).  With displacement disabled the raycast along [cornerRay]
    reports nothing; with the displaced path enabled (a displacement map
    that samples to zero everywhere) the same ray on the same mesh reports
    a hit on the last segment, at distance 5.  The two result lists differ
    in length. *)
Theorem raycast_zero_range_results_differ :
  m_getDisplacementRange (mesh diamondDisplacedWorld) = mkRange 0 0 /\
  heap diamondDisplacedWorld = heap diamondPlainWorld /\
  displacedPath diamondDisplacedWorld <> None /\
  displacedPath diamondPlainWorld = None /\
  snd (fst (raycast true diamondPlainWorld cornerRay [])) = [] /\
  In (mkIntersection 5 (mkV3 (-4) 4 0) 18 7)
     (snd (fst (raycast true diamondDisplacedWorld cornerRay []))).
Proof.
  split; [reflexivity|]. split; [reflexivity|]. split; [discriminate|].
  split; [reflexivity|]. split.
  - exact diamond_plain_records.
  - exact diamond_displaced_records.
Qed.

(* ================================================================= *)
(** ** More on the segment loop *)

Lemma segmentStarts_as_map (n b e : nat) :
  (e - b <= n)%nat ->
  segmentStarts b e
  = map (fun k => b + step * k)%nat (seq 0 (List.length (segmentStarts b e))) /\
  (e - b <= step * List.length (segmentStarts b e) < e - b + step)%nat.
Proof.
  revert b. induction n as [|n IH]; intros b Hn.
  - rewrite segmentStarts_ge by lia. simpl. unfold step. split; [reflexivity|lia].
  - destruct (Nat.lt_ge_cases b e) as [Hlt|Hge].
    + rewrite (segmentStarts_lt _ _ Hlt). cbn [List.length seq map].
      destruct (IH (b + step)%nat) as [E B]; [unfold step; lia|].
      split.
      * f_equal; [unfold step; lia|].
        rewrite <- seq_shift, map_map. rewrite E at 1.
        apply map_ext. intros k. unfold step. lia.
      * unfold step in *. lia.
    + rewrite segmentStarts_ge by lia. simpl. unfold step. split; [reflexivity|lia].
Qed.

(** X1.  The loop [for (i = beginIdx; i < endIdx; i += 6)] of
    [computeBoundingSphere] and [featureIntersect] visits exactly the
    positions [beginIdx + 6k] below [endIdx], each once and in increasing
    order; the number of turns [n] is the least with [endIdx - beginIdx <= 6n]. *)
Theorem segmentStarts_exact (beginIdx endIdx : nat) :
  (forall j, In j (segmentStarts beginIdx endIdx) <->
     (beginIdx <= j < endIdx)%nat /\ exists k, j = (beginIdx + step * k)%nat) /\
  segmentStarts beginIdx endIdx
  = map (fun k => beginIdx + step * k)%nat
        (seq 0 (List.length (segmentStarts beginIdx endIdx))) /\
  (endIdx - beginIdx <= step * List.length (segmentStarts beginIdx endIdx)
   < endIdx - beginIdx + step)%nat.
Proof.
  destruct (segmentStarts_as_map (endIdx - beginIdx) beginIdx endIdx (Nat.le_refl _))
    as [E B].
  split; [|split; [exact E|exact B]].
  intros j. split; [apply segmentStarts_In|].
  intros [Hr [k ->]]. rewrite E. apply in_map_iff. exists k. split; [reflexivity|].
  apply in_seq. unfold step in *. lia.
Qed.

(* ================================================================= *)
(** ** More on computeBoundingSphere *)

Lemma sampledVertices_empty (position : BufferAttribute) (indices : list nat) (b e : nat) :
  (e <= b)%nat -> sampledVertices position indices b e = [].
Proof. intros H. unfold sampledVertices. rewrite segmentStarts_ge by exact H. reflexivity. Qed.

(** X2.  For a feature without segments ([endIdx <= beginIdx]) the box
    stays empty and [computeBoundingSphere] returns the sphere of radius 0
    at the origin, with or without a displacement range. *)
Theorem computeBoundingSphere_empty_feature
    (position : BufferAttribute) (indices : list nat) (beginIdx endIdx : nat)
    (normal : Vector3) (range : option DisplacementRange) :
  (endIdx <= beginIdx)%nat ->
  computeBoundingSphere position indices beginIdx endIdx normal range
  = mkSphere (mkV3 0 0 0) 0.
Proof.
  intros H. unfold computeBoundingSphere, sampledBox.
  rewrite (sampledVertices_empty position indices _ _ H).
  cbn [fold_left makeEmpty]. destruct range as [range|]; cbv zeta.
  - cbn [translate union]. unfold getBoundingSphere. cbn [getCenter getSize].
    f_equal. unfold length3, lengthSq, dot, v3zero. simpl.
    replace (0 * 0 + 0 * 0 + 0 * 0) with 0 by ring. rewrite sqrt_0. ring.
  - cbn [getCenter]. unfold maxRadiusSqFrom. cbn [fold_left]. rewrite sqrt_0. reflexivity.
Qed.

Lemma computeBoundingSphere_empty_feature_witness :
  computeBoundingSphere unitSegmentPosition unitSegmentIndices 6 6 (mkV3 0 0 1)
    (Some (mkRange 1 2))
  = mkSphere (mkV3 0 0 0) 0.
Proof.
  apply (computeBoundingSphere_empty_feature unitSegmentPosition unitSegmentIndices
           6 6 (mkV3 0 0 1) (Some (mkRange 1 2))).
  lia.
Defined.

Lemma translate_by_zero (b : Box3) (n : Vector3) : translate b (multiplyScalar n 0) = b.
Proof.
  destruct b as [|mn mx]; [reflexivity|]. cbn [translate].
  f_equal; apply v3_eq; simpl; ring.
Qed.

Lemma Rmin_same (a : R) : Rmin a a = a.
Proof. unfold Rmin. destruct Rle_dec; reflexivity. Qed.

Lemma union_same (b : Box3) : union b b = b.
Proof.
  destruct b as [|mn mx]; [reflexivity|]. cbn [union].
  f_equal; apply v3_eq; simpl; first [apply Rmin_same|apply Rmax_same].
Qed.

(** X3.  For a feature with at least one segment ([beginIdx < endIdx]) and
    the displacement range (0, 0), the sphere of [computeBoundingSphere] is
    the sphere around the box of the sampled vertices: it has the centre of
    the sphere computed without range, and its radius is at least that
    sphere's radius. *)
Theorem computeBoundingSphere_zero_range_covers_tight
    (position : BufferAttribute) (indices : list nat) (beginIdx endIdx : nat)
    (normal : Vector3) :
  (beginIdx < endIdx)%nat ->
  let tight := computeBoundingSphere position indices beginIdx endIdx normal None in
  let loose := computeBoundingSphere position indices beginIdx endIdx normal
                 (Some (mkRange 0 0)) in
  loose = getBoundingSphere (sampledBox position indices beginIdx endIdx) /\
  center loose = center tight /\
  radius tight <= radius loose.
Proof.
  intros Hlt tight loose.
  assert (El : loose = getBoundingSphere (sampledBox position indices beginIdx endIdx)).
  { subst loose. unfold computeBoundingSphere. cbv zeta. cbn [rmin rmax].
    rewrite translate_by_zero, union_same. reflexivity. }
  split; [exact El|]. rewrite El. split; [reflexivity|].
  subst tight. unfold computeBoundingSphere. cbv zeta. cbn [radius].
  assert (E : sampledVertices position indices beginIdx endIdx
              = fromBufferAttribute position (indexAt indices beginIdx)
                :: sampledVertices position indices (beginIdx + step) endIdx).
  { unfold sampledVertices. rewrite (segmentStarts_lt _ _ Hlt). reflexivity. }
  unfold sampledBox. rewrite E.
  set (v0 := fromBufferAttribute position (indexAt indices beginIdx)).
  set (vs := sampledVertices position indices (beginIdx + step) endIdx).
  destruct (maxRadiusSqFrom_max (getCenter (fold_left expandByPoint (v0 :: vs) makeEmpty))
                                v0 vs) as [_ [v [Hv Hmax]]].
  rewrite Hmax.
  apply (inBox_boundingSphere (fold_left expandByPoint (v0 :: vs) makeEmpty) v).
  apply fold_expand_In, Hv.
Qed.

Lemma computeBoundingSphere_zero_range_covers_tight_witness :
  let tight := computeBoundingSphere cornerPosition cornerIndices 0 12 (mkV3 0 0 1) None in
  let loose := computeBoundingSphere cornerPosition cornerIndices 0 12 (mkV3 0 0 1)
                 (Some (mkRange 0 0)) in
  loose = getBoundingSphere (sampledBox cornerPosition cornerIndices 0 12) /\
  center loose = center tight /\
  radius tight <= radius loose.
Proof.
  apply (computeBoundingSphere_zero_range_covers_tight cornerPosition cornerIndices
           0 12 (mkV3 0 0 1)).
  lia.
Defined.

(* ================================================================= *)
(** ** The records of a feature *)

Lemma segmentRecords_fields (m : SolidLineMesh) (g : BufferGeometry) (indices : list nat)
    (rc : Raycaster) (tmpRay : Ray) (threshold lthSq : R) (i : nat) (r : Intersection) :
  In r (segmentRecords m g indices rc tmpRay threshold lthSq i) ->
  iindex r = i /\ object r = meshId m /\ near rc <= distance r <= far rc.
Proof.
  intros H. apply segmentRecords_In in H. destruct H as [p [[_ [_ Hnf]] ->]].
  cbn [iindex object distance]. repeat split; lra.
Qed.

Lemma flat_map_records_indices (m : SolidLineMesh) (g : BufferGeometry) (indices : list nat)
    (rc : Raycaster) (tmpRay : Ray) (threshold lthSq : R) (segs : list nat) :
  map iindex (flat_map (segmentRecords m g indices rc tmpRay threshold lthSq) segs)
  = filter (segmentHits m g indices rc tmpRay threshold lthSq) segs.
Proof.
  induction segs as [|i segs IH]; [reflexivity|].
  cbn [flat_map filter]. rewrite map_app, IH.
  unfold segmentRecords, segmentHits. rewrite segmentIntersect_unfold.
  destruct (intersectPlane tmpRay (segmentPlane g indices i)) as [p|]; [|reflexivity].
  destruct (closestPointToPoint _ p true) as [c|];
    repeat (destruct Rlt_dec; [reflexivity|]); reflexivity.
Qed.

Lemma filter_none {A : Type} (l : list A) : filter (fun _ => false) l = [].
Proof. induction l; [reflexivity|exact IHl]. Qed.

(** What one call of [featureIntersect] appends, whatever the sinks hold. *)
Lemma featureIntersect_uniform (m : SolidLineMesh) (g : BufferGeometry) (indices : list nat)
    (rc : Raycaster) (tmpRay : Ray) (threshold lthSq : R) (b e : nat) (bSphere : Sphere) :
  exists (newD : list DebugEntry) (newR : list Intersection) (hit : nat -> bool),
    (forall st, featureIntersect m g indices rc tmpRay threshold lthSq b e bSphere st
                = (fst st ++ newD, snd st ++ newR)) /\
    List.length newD = List.length newR /\
    map iindex newR = filter hit (segmentStarts b e) /\
    Forall (fun r => object r = meshId m /\ near rc <= distance r <= far rc) newR.
Proof.
  destruct (intersectsSphere (ray rc) (inflatedSphere m bSphere threshold)) eqn:Hs.
  - eexists. eexists. exists (segmentHits m g indices rc tmpRay threshold lthSq).
    split; [intros st; apply featureIntersect_pass, Hs|].
    split; [apply flat_map_debug_records_length|].
    split; [apply flat_map_records_indices|].
    apply Forall_forall. intros r Hr. apply in_flat_map in Hr.
    destruct Hr as [i [_ Hi]]. apply segmentRecords_fields in Hi. tauto.
  - exists [], [], (fun _ => false).
    split; [intros st; rewrite featureIntersect_reject by exact Hs;
            rewrite !app_nil_r; destruct st; reflexivity|].
    split; [reflexivity|]. split; [symmetry; apply filter_none|]. constructor.
Qed.

(** X4.  One call of [featureIntersect] only appends to the debug list and
    to the caller's list, one debug entry per record.  The records carry
    the positions of the segments that were hit, a subsequence of the
    positions the segment loop visits: at most one record per segment, in
    ascending index order.  Every record names the mesh as its object and
    has its distance within [near, far]. *)
Theorem featureIntersect_records_in_segment_order
    (m : SolidLineMesh) (g : BufferGeometry) (indices : list nat)
    (rc : Raycaster) (tmpRay : Ray) (threshold lthSq : R)
    (beginIdx endIdx : nat) (bSphere : Sphere) (st : Sinks) :
  exists (newD : list DebugEntry) (newR : list Intersection) (hit : nat -> bool),
    featureIntersect m g indices rc tmpRay threshold lthSq beginIdx endIdx bSphere st
    = (fst st ++ newD, snd st ++ newR) /\
    List.length newD = List.length newR /\
    map iindex newR = filter hit (segmentStarts beginIdx endIdx) /\
    Forall (fun r => object r = meshId m /\ near rc <= distance r <= far rc) newR.
Proof.
  destruct (featureIntersect_uniform m g indices rc tmpRay threshold lthSq
              beginIdx endIdx bSphere) as [newD [newR [hit [E [L [I F]]]]]].
  exists newD, newR, hit. split; [apply E|]. split; [exact L|]. split; [exact I|exact F].
Qed.

(* ================================================================= *)
(** ** The cache of bounding spheres *)

(** A feature that has its sphere in the cache is tested against the cached
    sphere; nothing is computed and the cache is left as it is. *)
Lemma featureStep_cached (m : SolidLineMesh) (g : BufferGeometry) (indices : list nat)
    (rc : Raycaster) (tmpRay : Ray) (threshold lthSq : R) (featureStarts : list nat)
    (tmpNormal : Vector3) (range : option DisplacementRange) (a : nat)
    (cache : list Sphere) (st : Sinks) :
  (a < List.length cache)%nat ->
  featureStep m g indices rc tmpRay threshold lthSq featureStarts tmpNormal range
              (cache, st) a
  = (cache,
     featureIntersect m g indices rc tmpRay threshold lthSq
       (fst (featureRange featureStarts (List.length indices) a))
       (snd (featureRange featureStarts (List.length indices) a))
       (nth a cache zeroSphere) st).
Proof.
  intros H. unfold featureStep, featureRange. cbv zeta. cbn [fst snd].
  destruct (Nat.leb_spec (List.length cache) a); [lia|reflexivity].
Qed.

(** A feature just beyond the cache has its sphere computed and appended. *)
Lemma featureStep_computed (m : SolidLineMesh) (g : BufferGeometry) (indices : list nat)
    (rc : Raycaster) (tmpRay : Ray) (threshold lthSq : R) (featureStarts : list nat)
    (tmpNormal : Vector3) (range : option DisplacementRange) (a : nat)
    (cache : list Sphere) (st : Sinks) :
  (List.length cache <= a)%nat ->
  let s := computeBoundingSphere (position g) indices
             (fst (featureRange featureStarts (List.length indices) a))
             (snd (featureRange featureStarts (List.length indices) a))
             tmpNormal range in
  featureStep m g indices rc tmpRay threshold lthSq featureStarts tmpNormal range
              (cache, st) a
  = (cache ++ [s],
     featureIntersect m g indices rc tmpRay threshold lthSq
       (fst (featureRange featureStarts (List.length indices) a))
       (snd (featureRange featureStarts (List.length indices) a))
       (nth a (cache ++ [s]) zeroSphere) st).
Proof.
  intros H. unfold featureStep, featureRange. cbv zeta. cbn [fst snd].
  destruct (Nat.leb_spec (List.length cache) a); [reflexivity|lia].
Qed.

(** The feature loop from feature [a] on, run on a cache that reaches at
    least to [a]: what it appends does not depend on what the sinks hold,
    and a second run on the cache it leaves behind (or on any longer one)
    appends the same and leaves that cache as it is. *)
Lemma featureLoop_rerun (m : SolidLineMesh) (g : BufferGeometry) (indices : list nat)
    (rc : Raycaster) (tmpRay : Ray) (threshold lthSq : R) (featureStarts : list nat)
    (tmpNormal : Vector3) (range : option DisplacementRange) (n a : nat)
    (cache : list Sphere) :
  (a <= List.length cache)%nat ->
  exists extra newD newR,
    (forall dbg out,
       fold_left (featureStep m g indices rc tmpRay threshold lthSq featureStarts
                              tmpNormal range)
                 (seq a n) (cache, (dbg, out))
       = (cache ++ extra, (dbg ++ newD, out ++ newR))) /\
    (forall more dbg out,
       fold_left (featureStep m g indices rc tmpRay threshold lthSq featureStarts
                              tmpNormal range)
                 (seq a n) ((cache ++ extra) ++ more, (dbg, out))
       = ((cache ++ extra) ++ more, (dbg ++ newD, out ++ newR))) /\
    List.length newD = List.length newR /\
    Forall (fun r => object r = meshId m /\ near rc <= distance r <= far rc) newR.
Proof.
  revert a cache. induction n as [|n IH]; intros a cache Ha.
  - exists [], [], []. cbn [seq fold_left]. repeat split.
    + intros dbg out. rewrite !app_nil_r. reflexivity.
    + intros more dbg out. rewrite !app_nil_r. reflexivity.
    + constructor.
  - assert (Hx : exists x, (a < List.length (cache ++ x))%nat /\
               forall st,
                 featureStep m g indices rc tmpRay threshold lthSq featureStarts
                             tmpNormal range (cache, st) a
                 = (cache ++ x,
                    featureIntersect m g indices rc tmpRay threshold lthSq
                      (fst (featureRange featureStarts (List.length indices) a))
                      (snd (featureRange featureStarts (List.length indices) a))
                      (nth a (cache ++ x) zeroSphere) st)).
    { destruct (Nat.lt_ge_cases a (List.length cache)) as [Hlt|Hge].
      - exists []. rewrite app_nil_r. split; [exact Hlt|].
        intros st. apply featureStep_cached, Hlt.
      - eexists. split; [|intros st; apply featureStep_computed, Hge].
        rewrite length_app. simpl. lia. }
    destruct Hx as [x [Hlen Hstep]].
    destruct (featureIntersect_uniform m g indices rc tmpRay threshold lthSq
                (fst (featureRange featureStarts (List.length indices) a))
                (snd (featureRange featureStarts (List.length indices) a))
                (nth a (cache ++ x) zeroSphere)) as [d1 [r1 [hit [E1 [L1 [_ F1]]]]]].
    destruct (IH (S a) (cache ++ x) Hlen) as [x2 [d2 [r2 [Hrun [Hrerun [L2 F2]]]]]].
    exists (x ++ x2), (d1 ++ d2), (r1 ++ r2). repeat split.
    + intros dbg out. cbn [seq fold_left]. rewrite Hstep, E1. cbn [fst snd].
      rewrite Hrun, !app_assoc. reflexivity.
    + intros more dbg out. cbn [seq fold_left].
      rewrite featureStep_cached by (rewrite !length_app in *; lia).
      assert (Hnth : nth a ((cache ++ x ++ x2) ++ more) zeroSphere
                     = nth a (cache ++ x) zeroSphere).
      { rewrite (app_assoc cache x x2), <- (app_assoc (cache ++ x) x2 more).
        apply app_nth1, Hlen. }
      rewrite Hnth, E1. cbn [fst snd].
      rewrite (app_assoc cache x x2), Hrerun, !app_assoc. reflexivity.
    + rewrite !length_app. lia.
    + apply Forall_app. split; assumption.
Qed.

Lemma substituteGeometry_mesh (w : World) (g : BufferGeometry) (map : DataTexture) :
  let m' := mesh (fst (substituteGeometry w g map)) in
  meshId m' = meshId (mesh w) /\ material m' = material (mesh w) /\
  matrixWorld m' = matrixWorld (mesh w) /\ scale m' = scale (mesh w) /\
  feature m' = feature (mesh w).
Proof.
  unfold substituteGeometry. cbv zeta.
  destruct (m_displacedGeometry (mesh w)); cbn; repeat split.
Qed.

Lemma raycastImpl_appends_in_range (assertThrows : bool) (w : World) (rc : Raycaster)
    (ints : list Intersection) :
  exists new,
    snd (fst (raycastImpl assertThrows w rc ints)) = ints ++ new /\
    Forall (fun r => object r = meshId (mesh w) /\ near rc <= distance r <= far rc) new.
Proof.
  destruct (activeIndex w) as [indices|] eqn:Ha.
  - destruct (activeIndex_Some w indices Ha) as [g [view [Hl Hi]]].
    rewrite (raycastImpl_loop assertThrows w rc ints g view indices Hl Hi). cbv zeta.
    match goal with
    | |- context [fold_left (featureStep ?m ?g ?i ?r ?t ?th ?l ?fs ?n ?rg) (seq 0 ?k) _] =>
        destruct (featureLoop_rerun m g i r t th l fs n rg k 0
                    (cachedVolumes (mesh w)) (Nat.le_0_l _))
          as [extra [newD [newR [Hrun [_ [_ HF]]]]]]
    end.
    rewrite Hrun. cbn [fst snd]. exists newR. split; [reflexivity|exact HF].
  - rewrite raycastImpl_no_index by exact Ha. exists []. cbn [fst snd].
    rewrite app_nil_r. split; [reflexivity|constructor].
Qed.

(** X5.  Whatever path [raycast] takes and however it ends, the caller's
    list comes back with its former entries in place and new records
    appended after them; every new record names this mesh as its object and
    has its distance within the raycaster's [near, far]. *)
Theorem raycast_appends_records_in_range
    (assertThrows : bool) (w : World) (rc : Raycaster) (ints : list Intersection) :
  exists new,
    snd (fst (raycast assertThrows w rc ints)) = ints ++ new /\
    Forall (fun r => object r = meshId (mesh w) /\ near rc <= distance r <= far rc) new.
Proof.
  destruct (displacedPath w) as [[g map]|] eqn:Hp.
  - rewrite (raycast_displaced_records assertThrows w rc ints g map Hp).
    destruct (substituteGeometry_mesh w g map) as [Hid _].
    destruct (raycastImpl_appends_in_range assertThrows
                (fst (substituteGeometry w g map)) rc ints) as [new [E F]].
    exists new. split; [exact E|]. rewrite <- Hid. exact F.
  - unfold raycast. rewrite Hp. apply raycastImpl_appends_in_range.
Qed.

(* ================================================================= *)
(** ** Calling twice *)

Lemma storeGeometry_twice (h : list GeometryObject) (r : GeometryRef) (o o' : GeometryObject) :
  storeGeometry (storeGeometry h r o) r o' = storeGeometry h r o'.
Proof.
  revert r. induction h as [|x h IH]; intros r; [reflexivity|].
  destruct r; simpl; [reflexivity|]. rewrite IH. reflexivity.
Qed.

(** The feature loop reads the mesh only through its world matrix and its
    id, and the geometry only through positions and bitangents. *)
Lemma featureStep_congr (m m' : SolidLineMesh) (g g' : BufferGeometry) :
  matrixWorld m' = matrixWorld m -> meshId m' = meshId m ->
  position g' = position g -> bitangent g' = bitangent g ->
  featureStep m' g' = featureStep m g.
Proof.
  destruct m, m', g, g'. cbn. intros -> -> -> ->. reflexivity.
Qed.

(** Calling [raycastImpl] a second time on the state the first call left,
    with the same ray and the same list, gives the same list and completion
    and leaves that state as it is: the spheres cached by the first call
    are the ones the second call tests against, and the debug list is
    rebuilt to the same entries. *)
Lemma raycastImpl_twice
    (assertThrows : bool) (w : World) (rc : Raycaster) (ints : list Intersection) :
  raycastImpl assertThrows (fst (fst (raycastImpl assertThrows w rc ints))) rc ints
  = raycastImpl assertThrows w rc ints.
Proof.
  destruct (activeIndex w) as [indices|] eqn:Ha.
  - destruct (activeIndex_Some w indices Ha) as [g [view [Hl Hi]]].
    rewrite (raycastImpl_loop assertThrows w rc ints g view indices Hl Hi). cbv zeta.
    match goal with
    | |- context [fold_left (featureStep ?m ?g ?i ?r ?t ?th ?l ?fs ?n ?rg) (seq 0 ?k) _] =>
        destruct (featureLoop_rerun m g i r t th l fs n rg k 0
                    (cachedVolumes (mesh w)) (Nat.le_0_l _))
          as [extra [newD [newR [Hrun [Hrerun _]]]]]
    end.
    rewrite Hrun. cbn [fst snd].
    set (w' := setFeature _ _).
    assert (Hl' : lookupGeometry (heap w') (geometry (mesh w'))
                  = Some (BufferGeom (setDebug g ([] ++ newD)) view)).
    { subst w'. cbn. apply lookup_store_same. eapply lookup_Some_lt, Hl. }
    rewrite (raycastImpl_loop assertThrows w' rc ints _ view indices Hl' Hi). cbv zeta.
    assert (Hstarts : featureStartsOf (mesh w') = featureStartsOf (mesh w)).
    { subst w'. unfold featureStartsOf. cbn.
      destruct (feature (mesh w)) as [f|]; reflexivity. }
    assert (Hcache : cachedVolumes (mesh w') = (cachedVolumes (mesh w) ++ extra) ++ []).
    { subst w'. cbn. rewrite app_nil_r. reflexivity. }
    rewrite Hstarts, Hcache.
    rewrite (featureStep_congr (mesh w) (mesh w') g (setDebug g ([] ++ newD)))
      by (subst w'; reflexivity).
    change (matrixWorld (mesh w')) with (matrixWorld (mesh w)).
    change (material (mesh w')) with (material (mesh w)).
    change (localThresholdOf (mesh w')) with (localThresholdOf (mesh w)).
    change (geometry (mesh w')) with (geometry (mesh w)).
    change (m_displacedGeometry (mesh w')) with (m_displacedGeometry (mesh w)).
    change (normal (setDebug g ([] ++ newD))) with (normal g).
    rewrite Hrerun. cbn [fst snd].
    subst w'. unfold setFeature. cbn [heap displacedPositions mesh meshId geometry material
      matrixWorld scale m_getDisplacementRange m_displacedGeometry feature starts].
    rewrite storeGeometry_twice, app_nil_r.
    destruct (feature (mesh w)) as [f|]; reflexivity.
  - rewrite !raycastImpl_no_index by (try rewrite raycastImpl_no_index by exact Ha; exact Ha).
    reflexivity.
Qed.

(* ================================================================= *)
(** ** The displaced view is built once *)

Lemma substituteGeometry_heap (w : World) (g : BufferGeometry) (map : DataTexture) :
  validRefs w ->
  let '(w1, d) := substituteGeometry w g map in
  m_displacedGeometry (mesh w1) = Some d /\
  (d < List.length (heap w1))%nat /\
  (forall d0, m_displacedGeometry (mesh w) = Some d0 -> d = d0) /\
  List.length (heap w1)
  = (List.length (heap w)
     + match m_displacedGeometry (mesh w) with None => 1 | Some _ => 0 end)%nat.
Proof.
  intros Hv. unfold substituteGeometry. cbv zeta.
  destruct (m_displacedGeometry (mesh w)) as [d|] eqn:Hd; cbn.
  - specialize (Hv d Hd). rewrite storeGeometry_length. repeat split; try lia.
    intros d0 [= ->]. reflexivity.
  - rewrite length_app. simpl. repeat split; try lia. intros d0 H. discriminate H.
Qed.

(** X8.  [raycast] allocates the displaced geometry at most once per mesh.
    On the displaced path the mesh holds a displaced geometry afterwards;
    it is the one it held before if there was one (the heap does not grow),
    and a new object otherwise (the heap grows by exactly that object).  On
    the fallback path nothing is allocated and [m_displacedGeometry] is
    left alone.  References held by the mesh stay valid. *)
Theorem raycast_builds_displaced_geometry_once
    (assertThrows : bool) (w : World) (rc : Raycaster) (ints : list Intersection) :
  validRefs w ->
  let w' := fst (fst (raycast assertThrows w rc ints)) in
  validRefs w' /\
  match displacedPath w with
  | Some _ =>
      exists d, m_displacedGeometry (mesh w') = Some d /\
        (forall d0, m_displacedGeometry (mesh w) = Some d0 -> d = d0) /\
        List.length (heap w')
        = (List.length (heap w)
           + match m_displacedGeometry (mesh w) with None => 1 | Some _ => 0 end)%nat
  | None =>
      m_displacedGeometry (mesh w') = m_displacedGeometry (mesh w) /\
      List.length (heap w') = List.length (heap w)
  end.
Proof.
  intros Hv. cbv zeta. unfold raycast.
  destruct (displacedPath w) as [[g map]|] eqn:Hp.
  - pose proof (substituteGeometry_heap w g map Hv) as Hs.
    destruct (substituteGeometry w g map) as [w1 d].
    destruct Hs as [Hd [Hlt [Hsame Hlen]]].
    pose proof (raycastImpl_frame assertThrows w1 rc ints) as Hf.
    destruct (raycastImpl assertThrows w1 rc ints) as [[w2 out] c].
    destruct Hf as [_ [Hd2 [_ Hlen2]]].
    assert (Hw2 : m_displacedGeometry (mesh w2) = Some d) by congruence.
    destruct c; cbn [fst]; (split; [|exists d; repeat split]).
    + intros d' H. cbn in H. rewrite Hw2 in H. injection H as <-. cbn. lia.
    + cbn. exact Hw2.
    + exact Hsame.
    + cbn. lia.
    + intros d' H. rewrite Hw2 in H. injection H as <-. lia.
    + exact Hw2.
    + exact Hsame.
    + lia.
  - pose proof (raycastImpl_frame assertThrows w rc ints) as Hf.
    destruct (raycastImpl assertThrows w rc ints) as [[w2 out] c].
    destruct Hf as [_ [Hd2 [_ Hlen2]]]. cbn [fst].
    split; [|split; assumption].
    intros d H. rewrite Hd2 in H. rewrite Hlen2. apply Hv, H.
Qed.

Lemma raycast_builds_displaced_geometry_once_witness :
  let w' := fst (fst (raycast true noIndexWorld downRay [])) in
  validRefs w' /\
  match displacedPath noIndexWorld with
  | Some _ =>
      exists d, m_displacedGeometry (mesh w') = Some d /\
        (forall d0, m_displacedGeometry (mesh noIndexWorld) = Some d0 -> d = d0) /\
        List.length (heap w')
        = (List.length (heap noIndexWorld)
           + match m_displacedGeometry (mesh noIndexWorld) with
             | None => 1 | Some _ => 0 end)%nat
  | None =>
      m_displacedGeometry (mesh w') = m_displacedGeometry (mesh noIndexWorld) /\
      List.length (heap w') = List.length (heap noIndexWorld)
  end.
Proof.
  apply (raycast_builds_displaced_geometry_once true noIndexWorld downRay []).
  exact noIndexWorld_validRefs.
Defined.

(* ================================================================= *)
(** ** Features partition the index array *)

Lemma segmentStarts_app (k a c : nat) :
  (a + step * k <= c)%nat ->
  segmentStarts a (a + step * k) ++ segmentStarts (a + step * k) c = segmentStarts a c.
Proof.
  revert a. induction k as [|k IH]; intros a H.
  - replace (a + step * 0)%nat with a by lia.
    rewrite (segmentStarts_ge a a) by lia. reflexivity.
  - rewrite (segmentStarts_lt a (a + step * S k)) by (unfold step; lia).
    rewrite (segmentStarts_lt a c) by (unfold step in *; lia).
    cbn [app]. f_equal.
    replace (a + step * S k)%nat with (a + step + step * k)%nat by lia.
    apply IH. lia.
Qed.

Lemma ascendingStarts_le (prev : nat) (starts : list nat) (n : nat) :
  ascendingStarts prev starts n -> (prev <= n)%nat.
Proof.
  revert prev. induction starts as [|s rest IH]; intros prev H; simpl in H; [exact H|].
  destruct H as [[k ->] H]. apply IH in H. lia.
Qed.

Lemma featureRange_tail (s0 s1 : nat) (rest : list nat) (n i : nat) :
  featureRange (s0 :: s1 :: rest) n (S i) = featureRange (s1 :: rest) n i.
Proof.
  unfold featureRange. cbn [nth List.length Nat.sub].
  replace (S i + 1)%nat with (S (i + 1)) by lia. cbn [nth].
  rewrite Nat.sub_0_r. reflexivity.
Qed.

Lemma visitedSegments_cons (s0 s1 : nat) (rest : list nat) (n : nat) :
  visitedSegments (s0 :: s1 :: rest) n
  = segmentStarts s0 s1 ++ visitedSegments (s1 :: rest) n.
Proof.
  unfold visitedSegments. cbn [List.length seq flat_map].
  f_equal. rewrite (featureRange_tail s0 s1 rest n 0). f_equal.
  rewrite <- seq_shift, !flat_map_concat_map, map_map. f_equal.
  apply map_ext. intros i.
  rewrite (featureRange_tail s0 s1 rest n i). reflexivity.
Qed.

(** X6.  When the feature starts are ascending, a whole number of segments
    apart and not beyond the index array, the ranges the feature loop of
    [raycastImpl] derives from them tile the index array from the first
    start on: the positions visited feature by feature are exactly, and in
    the same order, the positions a single segment loop from the first start
    to [indices.length] visits.  No segment is tested twice or left out
    between two features. *)
Theorem feature_ranges_partition_segments (s0 : nat) (rest : list nat) (indicesLength : nat) :
  ascendingStarts s0 rest indicesLength ->
  visitedSegments (s0 :: rest) indicesLength = segmentStarts s0 indicesLength.
Proof.
  revert s0. induction rest as [|s1 rest IH]; intros s0 H.
  - unfold visitedSegments, featureRange. cbn. apply app_nil_r.
  - simpl in H. destruct H as [[k ->] H].
    rewrite visitedSegments_cons, (IH _ H).
    apply segmentStarts_app. apply ascendingStarts_le in H. exact H.
Qed.

Lemma feature_ranges_partition_segments_witness :
  visitedSegments [0; 12; 18]%nat 30 = segmentStarts 0 30.
Proof.
  apply (feature_ranges_partition_segments 0 [12; 18]%nat 30).
  simpl. split; [exists 2%nat; reflexivity|]. split; [exists 1%nat; reflexivity|]. lia.
Defined.

(* ================================================================= *)
(** ** The tile-tree visit *)

Section Visit.
Variable getSubTileKeys : TileKey -> list TileKey.
Variable intersectsFrustum : TileKey -> bool.
Variable storageLevel : nat.

Let accept := visitTile intersectsFrustum storageLevel.
Let visitChildren (fuel : nat) :=
  fold_left
    (fun acc childTileKey =>
       match acc with
       | Some s' => visit fuel getSubTileKeys accept childTileKey s'
       | None => None
       end).

Lemma visitChildren_None (fuel : nat) (cs : list TileKey) :
  visitChildren fuel cs None = None.
Proof. induction cs as [|c cs IH]; [reflexivity|exact IH]. Qed.

Lemma visit_S (fuel : nat) (r : TileKey) (s : list TileKey) :
  visit (S fuel) getSubTileKeys accept r s
  = let (goOn, s1) := accept r s in
    if goOn then visitChildren fuel (getSubTileKeys r) (Some s1) else Some s1.
Proof. reflexivity. Qed.

Lemma visitChildren_cons (fuel : nat) (c : TileKey) (cs : list TileKey)
    (s : list TileKey) :
  visitChildren fuel (c :: cs) (Some s)
  = visitChildren fuel cs (visit fuel getSubTileKeys accept c s).
Proof. reflexivity. Qed.

(** What the visit of a list of children reports, given what the visit
    of each child reports. *)
Lemma visitChildren_reports (fuel : nat) :
  (forall c init out,
     visit fuel getSubTileKeys accept c init = Some out ->
     exists new, out = init ++ new /\
       forall t, In t new <-> Reported getSubTileKeys intersectsFrustum storageLevel c t) ->
  forall cs init out,
    visitChildren fuel cs (Some init) = Some out ->
    exists new, out = init ++ new /\
      forall t, In t new <->
        exists c, In c cs /\ Reported getSubTileKeys intersectsFrustum storageLevel c t.
Proof.
  intros IH cs. induction cs as [|c cs IHcs]; intros init out H.
  - injection H as <-. exists []. rewrite app_nil_r. split; [reflexivity|].
    intros t. split; [contradiction|]. intros [c [[] _]].
  - cbn [visitChildren fold_left] in H. fold (visitChildren fuel) in H.
    destruct (visit fuel getSubTileKeys accept c init) as [mid|] eqn:Hc.
    + destruct (IH c init mid Hc) as [n1 [-> H1]].
      destruct (IHcs _ _ H) as [n2 [-> H2]].
      exists (n1 ++ n2). rewrite app_assoc. split; [reflexivity|].
      intros t. rewrite in_app_iff, H1, H2. split.
      * intros [Hr|[c' [Hin Hr]]]; [exists c|exists c']; simpl; auto.
      * intros [c' [[<-|Hin] Hr]]; [left; exact Hr|right; exists c'; auto].
    + rewrite visitChildren_None in H. discriminate H.
Qed.

Lemma visit_reports (fuel : nat) (r : TileKey) (init out : list TileKey) :
  visit fuel getSubTileKeys accept r init = Some out ->
  exists new, out = init ++ new /\
    forall t, In t new <-> Reported getSubTileKeys intersectsFrustum storageLevel r t.
Proof.
  revert r init out. induction fuel as [|fuel IH]; intros r init out H; [discriminate H|].
  cbn [visit] in H. unfold accept at 1, visitTile in H.
  destruct (intersectsFrustum r) eqn:Hi; cbn [negb] in H.
  - destruct (Nat.ltb_spec (level r) storageLevel) as [Hlt|Hge].
    + destruct (Nat.eqb_spec (level r) storageLevel) as [He|_]; [lia|].
      destruct (visitChildren_reports fuel IH _ _ _ H) as [new [-> Hnew]].
      exists new. split; [reflexivity|]. intros t. rewrite Hnew. split.
      * intros [c [Hin Hr]]. eapply Reported_below; eassumption.
      * intros Hr. inversion Hr; subst; [lia|]. exists c. split; assumption.
    + injection H as <-.
      destruct (Nat.eqb_spec (level r) storageLevel) as [He|Hne].
      * exists [r]. split; [reflexivity|]. intros t. split.
        -- intros [<-|[]]. apply Reported_here; assumption.
        -- intros Hr. inversion Hr; subst; [left; reflexivity|lia].
      * exists []. rewrite app_nil_r. split; [reflexivity|]. intros t.
        split; [contradiction|]. intros Hr. inversion Hr; subst; lia.
  - injection H as <-. exists []. rewrite app_nil_r. split; [reflexivity|].
    intros t. split; [contradiction|].
    intros Hr. inversion Hr; subst; congruence.
Qed.

(** A visit that finished stays the same with more fuel. *)
Lemma visit_more_fuel (fuel extra : nat) (r : TileKey) (init out : list TileKey) :
  visit fuel getSubTileKeys accept r init = Some out ->
  visit (fuel + extra) getSubTileKeys accept r init = Some out.
Proof.
  revert r init out. induction fuel as [|fuel IH]; intros r init out H; [discriminate H|].
  cbn [Nat.add visit] in *. destruct (accept r init) as [goOn s1].
  destruct goOn; [|exact H].
  revert H. generalize (Some s1) as acc, out. 
  induction (getSubTileKeys r) as [|c cs IHcs]; intros acc out' H; [exact H|].
  cbn [fold_left] in *. destruct acc as [s'|].
  - destruct (visit fuel getSubTileKeys accept c s') as [mid|] eqn:Hc.
    + rewrite (IH _ _ _ Hc). apply IHcs, H.
    + fold (visitChildren fuel) in H. rewrite visitChildren_None in H. discriminate H.
  - fold (visitChildren fuel) in H. rewrite visitChildren_None in H. discriminate H.
Qed.

(** With every child one level below its parent, the visit below a tile
    finishes within depth [storageLevel - level + 1]. *)
Lemma visit_finishes (n : nat) (r : TileKey) (init : list TileKey) :
  (forall t c, In c (getSubTileKeys t) -> level c = S (level t)) ->
  (storageLevel - level r <= n)%nat ->
  exists out, visit (S n) getSubTileKeys accept r init = Some out.
Proof.
  intros Hchild. revert r init. induction n as [|n IH]; intros r init Hn.
  - cbn [visit]. unfold accept, visitTile.
    destruct (intersectsFrustum r); cbn [negb]; [|eexists; reflexivity].
    destruct (Nat.ltb_spec (level r) storageLevel); [lia|eexists; reflexivity].
  - rewrite visit_S.
    destruct (accept r init) as [goOn s1] eqn:Ha.
    destruct goOn; [|eexists; reflexivity].
    assert (Hlt : (level r < storageLevel)%nat).
    { revert Ha. unfold accept, visitTile.
      destruct (intersectsFrustum r); cbn [negb]; [|discriminate].
      destruct (Nat.ltb_spec (level r) storageLevel); [auto|discriminate]. }
    assert (Hcs : forall c, In c (getSubTileKeys r) -> (storageLevel - level c <= n)%nat).
    { intros c Hc. rewrite (Hchild r c Hc). lia. }
    revert Hcs. generalize s1. clear Ha.
    induction (getSubTileKeys r) as [|c cs IHcs]; intros s Hcs.
    + eexists. reflexivity.
    + rewrite visitChildren_cons.
      destruct (IH c s (Hcs c (or_introl eq_refl))) as [mid Hmid].
      rewrite Hmid. apply IHcs. intros c' Hc'. apply Hcs. right. exact Hc'.
Qed.

End Visit.

Lemma Reported_at_level (getSubTileKeys : TileKey -> list TileKey)
    (intersectsFrustum : TileKey -> bool) (storageLevel : nat) (r t : TileKey) :
  Reported getSubTileKeys intersectsFrustum storageLevel r t ->
  level t = storageLevel /\ intersectsFrustum t = true.
Proof.
  intros H. induction H as [t Hi Hl|r c t _ _ _ _ IH]; [split; assumption|exact IH].
Qed.

(** X9.  [getVisibleTiles], when the visit finishes, returns exactly the
    tiles at the requested storage level that meet the frustum and all of
    whose ancestors up to the root tile meet the frustum: a tile whose
    ancestor is culled is never reported, nor is a tile of another level,
    and nothing below a culled tile or below the storage level is
    visited. *)
Theorem getVisibleTiles_reports_visible_tiles
    (fuel : nat) (getSubTileKeys : TileKey -> list TileKey)
    (intersectsFrustum : TileKey -> bool) (storageLevel : nat)
    (visibleTiles : list TileKey) :
  getVisibleTiles fuel getSubTileKeys intersectsFrustum storageLevel = Some visibleTiles ->
  (forall t, In t visibleTiles <->
     Reported getSubTileKeys intersectsFrustum storageLevel (mkTileKey 0 0 0) t) /\
  (forall t, In t visibleTiles -> level t = storageLevel /\ intersectsFrustum t = true).
Proof.
  intros H. unfold getVisibleTiles in H.
  destruct (visit_reports _ _ _ _ _ _ _ H) as [new [-> Hnew]]. cbn [app].
  split; [exact Hnew|].
  intros t Ht. apply Hnew in Ht. eapply Reported_at_level, Ht.
Qed.

(** X10.  In a tiling scheme whose sub-tiles are one level below their
    parent, [getVisibleTiles] finishes within recursion depth
    [storageLevel + 1], whatever the frustum test answers, and a deeper
    bound gives the same list. *)
Theorem getVisibleTiles_finishes
    (getSubTileKeys : TileKey -> list TileKey)
    (intersectsFrustum : TileKey -> bool) (storageLevel : nat) :
  (forall t c, In c (getSubTileKeys t) -> level c = S (level t)) ->
  exists visibleTiles,
    forall extra,
      getVisibleTiles (S storageLevel + extra) getSubTileKeys intersectsFrustum storageLevel
      = Some visibleTiles.
Proof.
  intros Hchild.
  destruct (visit_finishes getSubTileKeys intersectsFrustum storageLevel storageLevel
              (mkTileKey 0 0 0) [] Hchild) as [out Hout]; [simpl; lia|].
  exists out. intros extra. unfold getVisibleTiles. apply visit_more_fuel, Hout.
Qed.

Lemma getVisibleTiles_reports_visible_tiles_witness :
  (forall t, In t [mkTileKey 0 0 1; mkTileKey 1 0 1] <->
     Reported quadtreeSubTileKeys westColumn 1 (mkTileKey 0 0 0) t) /\
  (forall t, In t [mkTileKey 0 0 1; mkTileKey 1 0 1] ->
     level t = 1%nat /\ westColumn t = true).
Proof.
  apply (getVisibleTiles_reports_visible_tiles 2 quadtreeSubTileKeys westColumn 1
           [mkTileKey 0 0 1; mkTileKey 1 0 1]).
  reflexivity.
Defined.

Lemma getVisibleTiles_finishes_witness :
  exists visibleTiles,
    forall extra,
      getVisibleTiles (S 1 + extra) quadtreeSubTileKeys westColumn 1 = Some visibleTiles.
Proof.
  apply (getVisibleTiles_finishes quadtreeSubTileKeys westColumn 1).
  intros t c Hc. unfold quadtreeSubTileKeys in Hc. simpl in Hc.
  destruct Hc as [<-|[<-|[<-|[<-|[]]]]]; reflexivity.
Defined.

(* ================================================================= *)
(** ** GlobeControls.set *)

Lemma lengthSq_of_length (p : Vector3) (l : R) : length3 p = l -> lengthSq p = l * l.
Proof.
  intros <-. unfold length3. symmetry. apply sqrt_sqrt.
  unfold lengthSq, dot.
  pose proof (Rle_0_sqr (vx p)). pose proof (Rle_0_sqr (vy p)).
  pose proof (Rle_0_sqr (vz p)). unfold Rsqr in *. lra.
Qed.

(** X11.  [GlobeControls.set] throws exactly when the altitude is undefined
    or zero.  Otherwise, for a surface point that the projection puts at
    the positive distance [equatorialRadius] from the centre of the globe
    and an altitude that does not put the camera beyond the centre
    ([0 <= equatorialRadius + altitude]), the camera ends up [altitude]
    above the surface: its far plane is at [equatorialRadius + altitude] and
    its near plane at [altitude - 100], so the near plane is in front of the
    camera only for altitudes above 100. *)
Theorem globeControlsSet_planes
    (projectPoint : R -> R -> Vector3) (equatorialRadius : R) (geoPoint : GeoCoordinates) :
  (globeControlsSet projectPoint equatorialRadius geoPoint = None <->
   altitude geoPoint = None \/ altitude geoPoint = Some 0) /\
  (forall alt,
     altitude geoPoint = Some alt -> alt <> 0 ->
     0 < equatorialRadius -> 0 <= equatorialRadius + alt ->
     length3 (projectPoint (latitude geoPoint) (longitude geoPoint)) = equatorialRadius ->
     exists c,
       globeControlsSet projectPoint equatorialRadius geoPoint = Some c /\
       cameraFar c = equatorialRadius + alt /\
       cameraNear c = alt - 100 /\
       (0 < cameraNear c <-> 100 < alt)).
Proof.
  split.
  - unfold globeControlsSet. destruct (altitude geoPoint) as [alt|].
    + destruct (Req_dec_T alt 0) as [->|Hne].
      * split; [intros _; right; reflexivity|reflexivity].
      * split; [discriminate|]. intros [H|[= H]]; [discriminate H|contradiction].
    + split; [intros _; left; reflexivity|reflexivity].
  - intros alt Ha Hne HR Hsum Hlen. unfold globeControlsSet. rewrite Ha.
    destruct (Req_dec_T alt 0) as [E|_]; [contradiction|]. cbv zeta.
    set (p := projectPoint (latitude geoPoint) (longitude geoPoint)) in *.
    assert (Hfar : length3 (v3add p (multiplyScalar (normalize p) alt))
                   = equatorialRadius + alt).
    { unfold normalize. rewrite Hlen.
      destruct (Req_dec_T equatorialRadius 0) as [E|_]; [exfalso; lra|].
      pose proof (lengthSq_of_length p equatorialRadius Hlen) as Hsq.
      unfold length3.
      replace (lengthSq (v3add p (multiplyScalar (divideScalar p equatorialRadius) alt)))
        with ((equatorialRadius + alt) * (equatorialRadius + alt)).
      - apply sqrt_square, Hsum.
      - unfold lengthSq, dot, v3add, multiplyScalar, divideScalar in *. simpl in *.
        replace ((vx p + vx p * (1 / equatorialRadius) * alt)
                 * (vx p + vx p * (1 / equatorialRadius) * alt)
                 + (vy p + vy p * (1 / equatorialRadius) * alt)
                   * (vy p + vy p * (1 / equatorialRadius) * alt)
                 + (vz p + vz p * (1 / equatorialRadius) * alt)
                   * (vz p + vz p * (1 / equatorialRadius) * alt))
          with ((vx p * vx p + vy p * vy p + vz p * vz p)
                * ((1 + alt / equatorialRadius) * (1 + alt / equatorialRadius)))
          by (field; lra).
        rewrite Hsq. field. lra. }
    eexists. split; [reflexivity|]. cbn [cameraFar cameraNear]. rewrite Hfar.
    split; [reflexivity|]. split; [ring|]. split; intros H; lra.
Qed.

Lemma globeControlsSet_planes_witness :
  exists c,
    globeControlsSet (fun _ _ => mkV3 6378137 0 0) 6378137
      (mkGeoCoordinates (533 / 10) (134 / 10) (Some 1000)) = Some c /\
    cameraFar c = 6378137 + 1000 /\
    cameraNear c = 1000 - 100 /\
    (0 < cameraNear c <-> 100 < 1000).
Proof.
  destruct (globeControlsSet_planes (fun _ _ => mkV3 6378137 0 0) 6378137
              (mkGeoCoordinates (533 / 10) (134 / 10) (Some 1000))) as [_ H].
  apply (H 1000); try reflexivity; try lra.
  unfold length3, lengthSq, dot. simpl.
  replace (6378137 * 6378137 + 0 * 0 + 0 * 0) with (6378137 * 6378137) by ring.
  apply sqrt_square. lra.
Defined.

(* ================================================================= *)
(** ** TextureLoader: the JPEG test *)

Lemma searchJpegExtension_here (s : string) (i : Z) :
  matchJpegExtensionHere s = true -> searchJpegExtension s i = i.
Proof. intros H. destruct s; cbn [searchJpegExtension]; rewrite H; reflexivity. Qed.

Lemma searchJpegExtension_skip (c : ascii) (r : string) (i : Z) :
  matchJpegExtensionHere (String c r) = false ->
  searchJpegExtension (String c r) i = searchJpegExtension r (i + 1)%Z.
Proof. intros H. cbn [searchJpegExtension]. rewrite H. reflexivity. Qed.

Lemma searchJpegExtension_range (s : string) (i : Z) :
  searchJpegExtension s i = (-1)%Z \/ (i <= searchJpegExtension s i)%Z.
Proof.
  revert i. induction s as [|c r IH]; intros i.
  - left. reflexivity.
  - destruct (matchJpegExtensionHere (String c r)) eqn:H.
    + right. rewrite searchJpegExtension_here by exact H. lia.
    + rewrite searchJpegExtension_skip by exact H.
      destruct (IH (i + 1)%Z) as [E|E]; [left; exact E|right; lia].
Qed.

(** The search finds a match exactly when some suffix of the string
    matches. *)
Lemma searchJpegExtension_found (s : string) (i : Z) :
  (0 <= i)%Z ->
  ((i <= searchJpegExtension s i)%Z <->
   exists name suffix, s = (name ++ suffix)%string /\
                       matchJpegExtensionHere suffix = true).
Proof.
  revert i. induction s as [|c r IH]; intros i Hi.
  - cbn. split; [lia|]. intros [name [suffix [E H]]].
    destruct name; [|discriminate E]. cbn in E. subst suffix. discriminate H.
  - destruct (matchJpegExtensionHere (String c r)) eqn:H.
    + rewrite searchJpegExtension_here by exact H. split; [|lia].
      intros _. exists EmptyString, (String c r). split; [reflexivity|exact H].
    + rewrite searchJpegExtension_skip by exact H.
      specialize (IH (i + 1)%Z ltac:(lia)).
      pose proof (searchJpegExtension_range r (i + 1)%Z) as Hr.
      split.
      * intros Hle. assert (Hle' : (i + 1 <= searchJpegExtension r (i + 1))%Z) by lia.
        apply IH in Hle'. destruct Hle' as [name [suffix [-> Hm]]].
        exists (String c name), suffix. split; [reflexivity|exact Hm].
      * intros [name [suffix [E Hm]]]. destruct name as [|c' name].
        -- cbn in E. subst suffix. congruence.
        -- injection E as -> ->.
           assert (Hle' : (i + 1 <= searchJpegExtension (name ++ suffix) (i + 1))%Z)
             by (apply IH; exists name, suffix; split; [reflexivity|exact Hm]).
           lia.
Qed.

(** X12.  The loader stores a texture as RGB exactly when its URL starts
    with [data:image/jpeg] (in this case), or when some part of the URL
    after its first character matches [.jpg] or [.jpeg] in any case
    followed by the end of the URL or a question mark while the URL itself
    does not start with such a match.  A URL that begins with a match is
    not taken for a JPEG by its extension, because [search] then answers 0
    and the test asks for an index above 0. *)
Theorem isJPEG_iff (url : string) :
  isJPEG url = true <->
  String.prefix "data:image/jpeg" url = true \/
  (matchJpegExtensionHere url = false /\
   exists name suffix, url = (name ++ suffix)%string /\
                       matchJpegExtensionHere suffix = true).
Proof.
  unfold isJPEG, searchDataJpeg. rewrite orb_true_iff, Z.ltb_lt.
  assert (Hd : ((if String.prefix "data:image/jpeg" url then 0 else -1) =? 0)%Z = true
               <-> String.prefix "data:image/jpeg" url = true).
  { destruct (String.prefix "data:image/jpeg" url); split; auto; discriminate. }
  rewrite Hd.
  assert (He : (0 < searchJpegExtension url 0)%Z <->
               matchJpegExtensionHere url = false /\
               exists name suffix, url = (name ++ suffix)%string /\
                                   matchJpegExtensionHere suffix = true).
  { rewrite <- (searchJpegExtension_found url 0 (Z.le_refl 0)).
    destruct (matchJpegExtensionHere url) eqn:H.
    - rewrite searchJpegExtension_here by exact H. split; [lia|]. intros [E _]. discriminate E.
    - split; [intros Hlt; split; [reflexivity|lia]|]. intros [_ Hle].
      destruct url as [|c r]; [cbn in Hle; lia|].
      rewrite searchJpegExtension_skip in * by exact H.
      pose proof (searchJpegExtension_range r (0 + 1)%Z). lia. }
  rewrite He. tauto.
Qed.

(** X13.  A URL made of a non-empty name that does not begin with a dot,
    followed by [.jpg] or [.jpeg] in any case and then nothing or a query
    string, is stored as RGB; so [textureFormat] answers [RGBFormat]. *)
Theorem textureFormat_of_jpeg_file_name (c : ascii) (name suffix : string) :
  c <> "."%char ->
  matchJpegExtensionHere suffix = true ->
  textureFormat (String c name ++ suffix) = RGBFormat.
Proof.
  intros Hc Hm. unfold textureFormat.
  assert (H : isJPEG (String c name ++ suffix) = true).
  { unfold isJPEG. apply orb_true_iff. left. apply Z.ltb_lt.
    assert (Hno : matchJpegExtensionHere (String c name ++ suffix) = false).
    { cbn. destruct (name ++ suffix)%string as [|j [|p r]]; try reflexivity.
      destruct (Ascii.eqb_spec c "."%char) as [E|_]; [contradiction|reflexivity]. }
    cbn [append]. cbn [append] in Hno. rewrite searchJpegExtension_skip by exact Hno.
    pose proof (searchJpegExtension_found (name ++ suffix) (0 + 1)%Z ltac:(lia)) as Hf.
    assert (Hle : (0 + 1 <= searchJpegExtension (name ++ suffix) (0 + 1))%Z)
      by (apply Hf; exists name, suffix; split; [reflexivity|exact Hm]).
    lia. }
  rewrite H. reflexivity.
Qed.

Lemma textureFormat_of_jpeg_file_name_witness :
  textureFormat ("photo.JPEG?size=2")%string = RGBFormat.
Proof.
  apply (textureFormat_of_jpeg_file_name "p"%char "hoto"%string ".JPEG?size=2"%string).
  - discriminate.
  - reflexivity.
Defined.

(* ================================================================= *)
(** ** TextureLoader.load *)

(** X14.  With request headers set, [load] announces the resolved URL to
    the loading manager once, before anything else.  The item is ended
    exactly once, as the last effect, on success and on failure alike, as
    long as [onError] does not throw when it is called; [itemError] is sent
    just before it exactly on failure.  When the request or [onLoad] fails
    and [onError] throws, the item is never ended.  The texture format is
    set only when the image has been loaded, from the resolved URL. *)
Theorem load_ends_item_once
    (resolveURL : string -> string) (loader : TextureLoader) (url : string)
    (onLoad onError : Callback) (outcome : FetchOutcome) :
  requestHeaders loader <> None ->
  let u := fetchedUrl resolveURL loader url in
  let trace := load resolveURL loader url onLoad onError outcome in
  (exists rest, trace = ItemStart u :: rest /\ ~ In (ItemStart u) rest) /\
  (loadFailed onLoad outcome = false \/ onError <> Throws ->
   exists before, trace = before ++ [ItemEnd u] /\
     filter isItemEnd before = [] /\
     (In (ItemError u) before <-> loadFailed onLoad outcome = true)) /\
  (loadFailed onLoad outcome = true -> onError = Throws ->
   filter isItemEnd trace = []) /\
  (forall f, In (SetFormat f) trace <-> outcome = ImageLoaded /\ f = textureFormat u).
Proof.
  intros Hh. cbv zeta. unfold load, fetchedUrl.
  destruct (requestHeaders loader) as [headers|]; [clear Hh|contradiction].
  set (u := resolveURL _). cbv zeta.
  split; [|split; [|split]].
  - eexists. split; [reflexivity|].
    destruct outcome, onLoad, onError; cbn; intuition discriminate.
  - intros H.
    destruct outcome, onLoad, onError; cbn in H;
      try (destruct H as [H|H]; [discriminate H|contradiction]);
      (match goal with
       | |- exists before, ?t = _ /\ _ => exists (removelast t)
       end;
       cbn; split; [reflexivity|split; [reflexivity|intuition discriminate]]).
  - intros Hf ->. destruct outcome, onLoad; cbn in *; try discriminate; reflexivity.
  - intros f. destruct outcome, onLoad, onError; cbn; split;
      intros H; intuition (try discriminate; try congruence).
Qed.

Lemma load_ends_item_once_witness :
  let loader := mkTextureLoader (Some [("Authorization", "token")%string]) None None in
  let u := fetchedUrl (fun s => s) loader "tile.png"%string in
  let trace := load (fun s => s) loader "tile.png"%string Returns NoCallback ImageRejected in
  (exists rest, trace = ItemStart u :: rest /\ ~ In (ItemStart u) rest) /\
  (loadFailed Returns ImageRejected = false \/ NoCallback <> Throws ->
   exists before, trace = before ++ [ItemEnd u] /\
     filter isItemEnd before = [] /\
     (In (ItemError u) before <-> loadFailed Returns ImageRejected = true)) /\
  (loadFailed Returns ImageRejected = true -> NoCallback = Throws ->
   filter isItemEnd trace = []) /\
  (forall f, In (SetFormat f) trace <-> ImageRejected = ImageLoaded /\ f = textureFormat u).
Proof.
  apply (load_ends_item_once (fun s => s)
           (mkTextureLoader (Some [("Authorization", "token")%string]) None None)
           "tile.png"%string Returns NoCallback ImageRejected).
  discriminate.
Defined.

(* ================================================================= *)
(** ** Calling raycast twice *)

Lemma storeGeometry_same (h : list GeometryObject) (r : GeometryRef) (o : GeometryObject) :
  lookupGeometry h r = Some o -> storeGeometry h r o = h.
Proof.
  unfold lookupGeometry. revert r. induction h as [|x h IH]; intros r H; [reflexivity|].
  destruct r; simpl in *.
  - injection H as ->. reflexivity.
  - rewrite IH by exact H. reflexivity.
Qed.

(** The state [raycastImpl] leaves: the mesh with at most its feature data
    replaced, and the heap with at most the debug list of the active
    geometry replaced. *)
Lemma raycastImpl_state (assertThrows : bool) (w : World) (rc : Raycaster)
    (ints : list Intersection) :
  let m := mesh w in
  let w2 := fst (fst (raycastImpl assertThrows w rc ints)) in
  exists f' h2,
    w2 = mkWorld h2 (displacedPositions w)
           (mkMesh (meshId m) (geometry m) (material m) (matrixWorld m) (scale m)
                   (m_getDisplacementRange m) (m_displacedGeometry m) f') /\
    (h2 = heap w \/
     exists g0 v0 dbg,
       lookupGeometry (heap w) (geometry m) = Some (BufferGeom g0 v0) /\
       h2 = storeGeometry (heap w) (geometry m) (BufferGeom (setDebug g0 dbg) v0)).
Proof.
  cbv zeta. destruct (activeIndex w) as [indices|] eqn:Ha.
  - destruct (activeIndex_Some w indices Ha) as [g [view [Hl Hi]]].
    rewrite (raycastImpl_loop assertThrows w rc ints g view indices Hl Hi). cbv zeta.
    cbn [fst]. unfold setFeature. cbn [heap displacedPositions mesh].
    eexists. eexists. split; [reflexivity|]. right.
    eexists. eexists. eexists. split; [exact Hl|reflexivity].
  - rewrite raycastImpl_no_index by exact Ha. cbn [fst].
    exists (feature (mesh w)), (heap w). split; [|left; reflexivity].
    destruct w as [h dp m]. destruct m. reflexivity.
Qed.



Lemma displacedPath_None_after (assertThrows : bool) (w : World) (rc : Raycaster)
    (ints : list Intersection) :
  displacedPath w = None ->
  displacedPath (fst (fst (raycastImpl assertThrows w rc ints))) = None.
Proof.
  intros Hp.
  destruct (raycastImpl_state assertThrows w rc ints) as [f' [h2 [-> Hh]]].
  revert Hp. unfold displacedPath. cbn [heap mesh geometry material].
  destruct Hh as [->|[g0 [v0 [dbg [Hl ->]]]]]; [tauto|].
  rewrite Hl, lookup_store_same by (eapply lookup_Some_lt, Hl).
  destruct (hasDisplacementFeature _); [|reflexivity].
  destruct (displacementMap _) as [[t|]|]; try reflexivity. discriminate.
Qed.

(** X7.  Calling [raycast] a second time on the state the first call left,
    with the same ray and the same list, gives the same list and leaves
    that state as it is, provided the first call returned and the mesh's
    geometry was not already its own displaced view: the displaced view is
    reset to what it is, the spheres cached by the first call are the ones
    the second call tests against, and the debug list is rebuilt to the same
    entries. *)
Theorem raycast_idempotent
    (assertThrows : bool) (w : World) (rc : Raycaster) (ints : list Intersection) :
  validRefs w ->
  m_displacedGeometry (mesh w) <> Some (geometry (mesh w)) ->
  snd (raycast assertThrows w rc ints) = Returned ->
  raycast assertThrows (fst (fst (raycast assertThrows w rc ints))) rc ints
  = raycast assertThrows w rc ints.
Proof.
  intros Hv Hne Hret.
  destruct (displacedPath w) as [[g map]|] eqn:Hp.
  - destruct (displacedPath_lookup w g map Hp) as [v Hl].
    assert (Hmat : hasDisplacementFeature (material (mesh w)) = true /\
                   displacementMap (material (mesh w)) = Some (IsDataTexture map)).
    { revert Hp. unfold displacedPath. rewrite Hl.
      destruct (hasDisplacementFeature _); [|discriminate].
      destruct (displacementMap _) as [[t|]|]; try discriminate.
      intros [= ->]. split; reflexivity. }
    destruct Hmat as [Hfeat Hmap].
    (* the state after the substitution *)
    assert (Hsub : exists h1 d dbg1,
               substituteGeometry w g map
               = (mkWorld h1 (Some (DisplacedAttribute (position g) (normal g) (uv g) map))
                    (mkMesh (meshId (mesh w)) d (material (mesh w)) (matrixWorld (mesh w))
                       (scale (mesh w)) (m_getDisplacementRange (mesh w)) (Some d)
                       (feature (mesh w))), d) /\
               d <> geometry (mesh w) /\
               lookupGeometry h1 d
               = Some (displacedGeometryOver (geometry (mesh w)) g map
                         (m_getDisplacementRange (mesh w)) dbg1) /\
               lookupGeometry h1 (geometry (mesh w)) = Some (BufferGeom g v)).
    { unfold substituteGeometry. cbv zeta.
      destruct (m_displacedGeometry (mesh w)) as [d|] eqn:Hd.
      - exists (storeGeometry (heap w) d
                  (displacedGeometryOver (geometry (mesh w)) g map
                     (m_getDisplacementRange (mesh w)) (debugAt (heap w) d))),
               d, (debugAt (heap w) d).
        split; [reflexivity|].
        assert (Hdg : d <> geometry (mesh w)) by congruence.
        split; [exact Hdg|]. split.
        + apply lookup_store_same, Hv, Hd.
        + rewrite lookup_store_other by exact Hdg. exact Hl.
      - exists (heap w ++ [displacedGeometryOver (geometry (mesh w)) g map
                                 (m_getDisplacementRange (mesh w)) None]),
               (List.length (heap w)), None.
        split; [reflexivity|].
        pose proof (lookup_Some_lt _ _ _ Hl) as Hlt.
        split; [lia|]. split.
        + apply lookup_app_new.
        + rewrite lookup_app_old by exact Hlt. exact Hl. }
    destruct Hsub as [h1 [d [dbg1 [Hs [Hdg [Hld Hlg]]]]]].
    unfold raycast at 2 3. unfold raycast in Hret. rewrite Hp in *. rewrite Hs in *.
    set (w1 := mkWorld h1 _ _) in *.
    pose proof (raycastImpl_twice assertThrows w1 rc ints) as Htwice.
    destruct (raycastImpl_state assertThrows w1 rc ints) as [f' [h2 [Hw2 Hh2]]].
    destruct (raycastImpl assertThrows w1 rc ints) as [[w2 out] c] eqn:Himpl.
    cbn [fst] in Htwice, Hw2.
    destruct c; [|cbn in Hret; discriminate Hret]. clear Hret.
    subst w1. cbn [heap displacedPositions mesh meshId geometry material matrixWorld scale
                   m_getDisplacementRange m_displacedGeometry] in Hw2, Hh2.
    (* the view and the base geometry in the heap after raycastImpl *)
    assert (Hobj : exists dbg2,
               lookupGeometry h2 d
               = Some (displacedGeometryOver (geometry (mesh w)) g map
                         (m_getDisplacementRange (mesh w)) dbg2) /\
               lookupGeometry h2 (geometry (mesh w)) = Some (BufferGeom g v)).
    { destruct Hh2 as [->|[g0 [v0 [dbg [Hl0 ->]]]]].
      - exists dbg1. split; assumption.
      - rewrite Hld in Hl0. unfold displacedGeometryOver in Hl0. injection Hl0 as <- <-.
        exists (Some dbg). split.
        + rewrite lookup_store_same by (eapply lookup_Some_lt, Hld). reflexivity.
        + rewrite lookup_store_other by exact Hdg. exact Hlg. }
    destruct Hobj as [dbg2 [Hld2 Hlg2]].
    assert (Horig : originalGeometryAt h2 d d = geometry (mesh w)).
    { unfold originalGeometryAt. rewrite Hld2. reflexivity. }
    subst w2. cbn [heap mesh geometry]. rewrite Horig.
    (* the second call *)
    unfold raycast, displacedPath, setMeshGeometry.
    cbn [heap displacedPositions mesh meshId geometry material matrixWorld scale
         m_getDisplacementRange m_displacedGeometry feature fst].
    rewrite Hlg2, Hfeat, Hmap.
    unfold substituteGeometry, setDisplacedGeometry, setMeshGeometry, debugAt.
    cbn [heap displacedPositions mesh meshId geometry material matrixWorld scale
         m_getDisplacementRange m_displacedGeometry feature].
    rewrite Hld2.
    match goal with
    | |- context [storeGeometry h2 d ?o] =>
        change o with (displacedGeometryOver (geometry (mesh w)) g map
                         (m_getDisplacementRange (mesh w)) dbg2)
    end.
    rewrite (storeGeometry_same h2 d _ Hld2).
    cbn [heap displacedPositions mesh meshId geometry material matrixWorld scale
         m_getDisplacementRange m_displacedGeometry feature] in Htwice.
    rewrite Htwice.
    unfold setMeshGeometry.
    cbn [heap displacedPositions mesh meshId geometry material matrixWorld scale
         m_getDisplacementRange m_displacedGeometry feature].
    rewrite Horig. reflexivity.
  - unfold raycast at 2 3. rewrite Hp.
    unfold raycast. rewrite (displacedPath_None_after assertThrows w rc ints Hp).
    apply raycastImpl_twice.
Qed.

Lemma raycastImpl_returns (assertThrows : bool) (w : World) (rc : Raycaster)
    (ints : list Intersection) (indices : list nat) :
  activeIndex w = Some indices ->
  snd (raycastImpl assertThrows w rc ints) = Returned.
Proof.
  intros Ha. destruct (activeIndex_Some w indices Ha) as [g [view [Hl Hi]]].
  rewrite (raycastImpl_loop assertThrows w rc ints g view indices Hl Hi). reflexivity.
Qed.

Lemma raycast_returns_on_displaced_path (assertThrows : bool) (w : World) (rc : Raycaster)
    (ints : list Intersection) (g : BufferGeometry) (map : DataTexture)
    (indices : list nat) :
  validRefs w -> displacedPath w = Some (g, map) -> index g = Some indices ->
  snd (raycast assertThrows w rc ints) = Returned.
Proof.
  intros Hv Hp Hi. unfold raycast. rewrite Hp.
  pose proof (activeIndex_after_substitute w g map Hv) as Ha. rewrite Hi in Ha.
  destruct (substituteGeometry w g map) as [w1 d]. cbn [fst] in Ha.
  pose proof (raycastImpl_returns assertThrows w1 rc ints indices Ha) as Hr.
  destruct (raycastImpl assertThrows w1 rc ints) as [[w2 out] c].
  cbn [snd] in Hr. subst c. reflexivity.
Qed.

Lemma diamondDisplacedWorld_validRefs : validRefs diamondDisplacedWorld.
Proof. intros d H. discriminate H. Defined.

Lemma raycast_idempotent_witness :
  raycast true (fst (fst (raycast true diamondDisplacedWorld cornerRay []))) cornerRay []
  = raycast true diamondDisplacedWorld cornerRay [].
Proof.
  apply (raycast_idempotent true diamondDisplacedWorld cornerRay []).
  - exact diamondDisplacedWorld_validRefs.
  - discriminate.
  - apply (raycast_returns_on_displaced_path true diamondDisplacedWorld cornerRay []
             diamondGeometry zeroMap diamondIndices).
    + exact diamondDisplacedWorld_validRefs.
    + reflexivity.
    + reflexivity.
Defined.

(* ================================================================= *)
(** ** A full cache *)

Lemma featureLoop_full_cache (m : SolidLineMesh) (g : BufferGeometry) (indices : list nat)
    (rc : Raycaster) (tmpRay : Ray) (threshold lthSq : R) (featureStarts : list nat)
    (tmpNormal : Vector3) (range : option DisplacementRange) (n a : nat)
    (cache : list Sphere) (st : Sinks) :
  (a + n <= List.length cache)%nat ->
  fold_left (featureStep m g indices rc tmpRay threshold lthSq featureStarts tmpNormal range)
            (seq a n) (cache, st)
  = (cache,
     fold_left
       (fun st' i =>
          featureIntersect m g indices rc tmpRay threshold lthSq
            (fst (featureRange featureStarts (List.length indices) i))
            (snd (featureRange featureStarts (List.length indices) i))
            (nth i cache zeroSphere) st')
       (seq a n) st).
Proof.
  revert a st. induction n as [|n IH]; intros a st H; [reflexivity|].
  cbn [seq fold_left]. rewrite featureStep_cached by lia. apply IH. lia.
Qed.

(** X15.  Once the cache holds a sphere for every feature,
    [raycastImpl] computes no sphere: the cache is left exactly as it is
    and every feature is tested against its cached sphere, so the result no
    longer depends on the displacement range or on the sampled normal.  A
    sphere cached by a raycast without displacement is the one a later
    displaced raycast tests against, and the other way round. *)
Theorem raycastImpl_uses_cached_spheres
    (assertThrows : bool) (w : World) (rc : Raycaster) (ints : list Intersection)
    (g : BufferGeometry) (view : option DisplacedView) (indices : list nat) :
  lookupGeometry (heap w) (geometry (mesh w)) = Some (BufferGeom g view) ->
  index g = Some indices ->
  (List.length (featureStartsOf (mesh w)) <= List.length (cachedVolumes (mesh w)))%nat ->
  let m := mesh w in
  let threshold := lineWidth (material m) + outlineWidth (material m) in
  let '(w', ints', _) := raycastImpl assertThrows w rc ints in
  cachedVolumes (mesh w') = cachedVolumes m /\
  ints' = snd (fold_left
                 (fun st' i =>
                    featureIntersect m g indices rc
                      (rayApplyMatrix4 (ray rc) (getInverse (matrixWorld m)))
                      threshold (localThresholdOf m threshold * localThresholdOf m threshold)
                      (fst (featureRange (featureStartsOf m) (List.length indices) i))
                      (snd (featureRange (featureStartsOf m) (List.length indices) i))
                      (nth i (cachedVolumes m) zeroSphere) st')
                 (seq 0 (List.length (featureStartsOf m))) ([], ints)).
Proof.
  intros Hl Hi Hfull. cbv zeta.
  rewrite (raycastImpl_loop assertThrows w rc ints g view indices Hl Hi). cbv zeta.
  rewrite featureLoop_full_cache by (simpl; exact Hfull).
  cbn [fst snd]. split; reflexivity.
Qed.

Lemma raycastImpl_uses_cached_spheres_witness :
  let w := cachedWorld in
  let g := unitSegmentGeometry (Some unitSegmentIndices) in
  let m := mesh w in
  let threshold := lineWidth (material m) + outlineWidth (material m) in
  let '(w', ints', _) := raycastImpl true w downRay [] in
  cachedVolumes (mesh w') = cachedVolumes m /\
  ints' = snd (fold_left
                 (fun st' i =>
                    featureIntersect m g unitSegmentIndices downRay
                      (rayApplyMatrix4 (ray downRay) (getInverse (matrixWorld m)))
                      threshold (localThresholdOf m threshold * localThresholdOf m threshold)
                      (fst (featureRange (featureStartsOf m)
                              (List.length unitSegmentIndices) i))
                      (snd (featureRange (featureStartsOf m)
                              (List.length unitSegmentIndices) i))
                      (nth i (cachedVolumes m) zeroSphere) st')
                 (seq 0 (List.length (featureStartsOf m))) ([], [])).
Proof.
  apply (raycastImpl_uses_cached_spheres true cachedWorld downRay []
           (unitSegmentGeometry (Some unitSegmentIndices)) None unitSegmentIndices).
  - reflexivity.
  - reflexivity.
  - simpl. lia.
Defined.

(* ================================================================= *)
(** ** Records lie on the world ray *)

(** A point of the local ray, taken back to world space, is a point of the
    world ray. *)
Lemma local_ray_point_in_world (M : Matrix4) (o d : Vector3) (t : R) :
  isAffine M -> determinantOf M <> 0 -> 0 <= t ->
  exists s, 0 <= s /\
    applyMatrix4 (rayAt (rayApplyMatrix4 (mkRay o d) (getInverse M)) t) M
    = rayAt (mkRay o d) s.
Proof.
  intros [H1 [H2 [H3 H4]]] Hdet Ht.
  destruct M as [a11 a12 a13 a14 a21 a22 a23 a24 a31 a32 a33 a34 a41 a42 a43 a44].
  cbn in H1, H2, H3, H4. subst a41 a42 a43 a44.
  unfold determinantOf in Hdet. cbn in Hdet.
  unfold rayApplyMatrix4, getInverse. cbn [n11 n12 n13 n14 n21 n22 n23 n24
    n31 n32 n33 n34 n41 n42 n43 n44 origin direction].
  match goal with
  | |- context [Req_dec_T ?e 0] => destruct (Req_dec_T e 0) as [E|_]; [exfalso; apply Hdet; lra|]
  end.
  unfold transformDirection, normalize.
  cbn [n11 n12 n13 n14 n21 n22 n23 n24 n31 n32 n33 n34 n41 n42 n43 n44].
  match goal with
  | |- context [length3 ?u] =>
      generalize (sqrt_pos (lengthSq u)); fold (length3 u); generalize (length3 u)
  end.
  intros L HL.
  assert (Hk : exists k, k <> 0 /\ 0 <= t * (1 / k) /\ (if Req_dec_T L 0 then 1 else L) = k).
  { destruct (Req_dec_T L 0) as [E|Hne].
    - exists 1. split; [lra|]. split; [lra|reflexivity].
    - exists L. split; [exact Hne|]. split; [|reflexivity].
      apply Rmult_le_pos; [exact Ht|]. apply Rlt_le. unfold Rdiv. rewrite Rmult_1_l.
      apply Rinv_0_lt_compat. lra. }
  destruct Hk as [k [Hk0 [Hks ->]]].
  exists (t * (1 / k)). split; [exact Hks|].
  apply v3_eq;
    cbv [rayAt applyMatrix4 v3add multiplyScalar divideScalar vx vy vz
         n11 n12 n13 n14 n21 n22 n23 n24 n31 n32 n33 n34 n41 n42 n43 n44
         origin direction];
    field; (split; [exact Hk0|]); lra.
Qed.

Lemma distanceTo_rayAt (o d : Vector3) (s : R) :
  lengthSq d = 1 -> 0 <= s -> distanceTo o (rayAt (mkRay o d) s) = s.
Proof.
  intros Hd Hs. unfold distanceTo, distanceToSquared, rayAt, v3add, multiplyScalar.
  cbn [origin direction vx vy vz].
  replace ((vx o - (vx d * s + vx o)) * (vx o - (vx d * s + vx o))
           + (vy o - (vy d * s + vy o)) * (vy o - (vy d * s + vy o))
           + (vz o - (vz d * s + vz o)) * (vz o - (vz d * s + vz o)))
    with (s * s * lengthSq d) by (unfold lengthSq, dot; ring).
  rewrite Hd, Rmult_1_r. apply sqrt_square, Hs.
Qed.

(** Every record of a segment has its point on the world ray, at the
    parameter its distance names. *)
Lemma segmentRecords_on_world_ray (m : SolidLineMesh) (g : BufferGeometry)
    (indices : list nat) (rc : Raycaster) (threshold lthSq : R) (i : nat)
    (r : Intersection) :
  isAffine (matrixWorld m) -> determinantOf (matrixWorld m) <> 0 ->
  lengthSq (direction (ray rc)) = 1 ->
  In r (segmentRecords m g indices rc
          (rayApplyMatrix4 (ray rc) (getInverse (matrixWorld m))) threshold lthSq i) ->
  0 <= distance r /\ point r = rayAt (ray rc) (distance r).
Proof.
  intros Ha Hdet Hd Hin. apply segmentRecords_In in Hin.
  destruct Hin as [p [[Hp _] ->]]. cbn [distance point].
  apply intersectPlane_on_ray in Hp. destruct Hp as [t [Ht [-> _]]].
  destruct rc as [[o d] nr fr]. cbn [ray origin direction] in *.
  destruct (local_ray_point_in_world (matrixWorld m) o d t Ha Hdet Ht) as [s [Hs E]].
  rewrite E, (distanceTo_rayAt o d s Hd Hs). split; [exact Hs|reflexivity].
Qed.

Lemma featureIntersect_from_segments (m : SolidLineMesh) (g : BufferGeometry)
    (indices : list nat) (rc : Raycaster) (tmpRay : Ray) (threshold lthSq : R) (b e : nat)
    (bSphere : Sphere) (st : Sinks) :
  exists newR,
    snd (featureIntersect m g indices rc tmpRay threshold lthSq b e bSphere st)
    = snd st ++ newR /\
    Forall (fun r => exists i, In r (segmentRecords m g indices rc tmpRay threshold lthSq i))
           newR.
Proof.
  destruct (intersectsSphere (ray rc) (inflatedSphere m bSphere threshold)) eqn:Hs.
  - rewrite featureIntersect_pass by exact Hs. eexists. split; [reflexivity|].
    apply Forall_forall. intros r Hr. apply in_flat_map in Hr.
    destruct Hr as [i [_ Hi]]. exists i. exact Hi.
  - rewrite featureIntersect_reject by exact Hs. exists []. rewrite app_nil_r.
    split; [reflexivity|constructor].
Qed.

Lemma featureLoop_from_segments (m : SolidLineMesh) (g : BufferGeometry) (indices : list nat)
    (rc : Raycaster) (tmpRay : Ray) (threshold lthSq : R) (featureStarts : list nat)
    (tmpNormal : Vector3) (range : option DisplacementRange) (n a : nat)
    (cache : list Sphere) (st : Sinks) :
  exists newR,
    snd (snd (fold_left
                (featureStep m g indices rc tmpRay threshold lthSq featureStarts
                             tmpNormal range)
                (seq a n) (cache, st)))
    = snd st ++ newR /\
    Forall (fun r => exists i, In r (segmentRecords m g indices rc tmpRay threshold lthSq i))
           newR.
Proof.
  revert a cache st. induction n as [|n IH]; intros a cache st.
  - exists []. cbn. rewrite app_nil_r. split; [reflexivity|constructor].
  - cbn [seq fold_left]. unfold featureStep at 2. cbv zeta. cbn [fst snd].
    match goal with
    | |- context [featureIntersect ?m ?g ?i ?r ?t ?th ?l ?b ?e ?s st] =>
        destruct (featureIntersect_from_segments m g i r t th l b e s st) as [r1 [E1 F1]];
        destruct (featureIntersect m g i r t th l b e s st) as [dbg1 out1]
    end.
    cbn [snd] in E1. subst out1.
    match goal with
    | |- context [fold_left _ (seq (S a) n) (?c, ?s)] =>
        destruct (IH (S a) c s) as [r2 [E2 F2]]
    end.
    rewrite E2. cbn [snd]. exists (r1 ++ r2). rewrite app_assoc.
    split; [reflexivity|]. apply Forall_app. split; assumption.
Qed.

Lemma raycastImpl_on_world_ray (assertThrows : bool) (w : World) (rc : Raycaster)
    (ints : list Intersection) :
  isAffine (matrixWorld (mesh w)) -> determinantOf (matrixWorld (mesh w)) <> 0 ->
  lengthSq (direction (ray rc)) = 1 ->
  exists new,
    snd (fst (raycastImpl assertThrows w rc ints)) = ints ++ new /\
    Forall (fun r => 0 <= distance r /\ point r = rayAt (ray rc) (distance r)) new.
Proof.
  intros Haff Hdet Hd.
  destruct (activeIndex w) as [indices|] eqn:Ha.
  - destruct (activeIndex_Some w indices Ha) as [g [view [Hl Hi]]].
    rewrite (raycastImpl_loop assertThrows w rc ints g view indices Hl Hi). cbv zeta.
    match goal with
    | |- context [fold_left (featureStep ?m ?g ?i ?r ?t ?th ?l ?fs ?n ?rg) (seq 0 ?k)
                            (?c, ?s)] =>
        destruct (featureLoop_from_segments m g i r t th l fs n rg k 0 c s) as [new [E F]]
    end.
    exists new. cbn [fst snd] in *. split; [exact E|].
    apply Forall_forall. intros r Hr.
    rewrite Forall_forall in F. destruct (F r Hr) as [i Hi'].
    eapply segmentRecords_on_world_ray; eassumption.
  - rewrite raycastImpl_no_index by exact Ha. exists []. cbn [fst snd].
    rewrite app_nil_r. split; [reflexivity|constructor].
Qed.

(** X17.  For a mesh whose world matrix is affine and invertible and a
    raycaster whose ray direction has length 1, every record [raycast]
    appends has its point on the world ray, and its distance is the ray
    parameter of that point: [point = origin + distance * direction] with
    [distance >= 0]. *)
Theorem raycast_records_on_world_ray
    (assertThrows : bool) (w : World) (rc : Raycaster) (ints : list Intersection) :
  isAffine (matrixWorld (mesh w)) -> determinantOf (matrixWorld (mesh w)) <> 0 ->
  lengthSq (direction (ray rc)) = 1 ->
  exists new,
    snd (fst (raycast assertThrows w rc ints)) = ints ++ new /\
    Forall (fun r => 0 <= distance r /\ point r = rayAt (ray rc) (distance r)) new.
Proof.
  intros Haff Hdet Hd.
  destruct (displacedPath w) as [[g map]|] eqn:Hp.
  - rewrite (raycast_displaced_records assertThrows w rc ints g map Hp).
    destruct (substituteGeometry_mesh w g map) as [_ [_ [HM _]]].
    apply raycastImpl_on_world_ray; [rewrite HM; exact Haff|rewrite HM; exact Hdet|exact Hd].
  - unfold raycast. rewrite Hp. apply raycastImpl_on_world_ray; assumption.
Qed.

Lemma identity_isAffine : isAffine m4identity.
Proof. repeat split. Defined.

Lemma identity_determinant : determinantOf m4identity <> 0.
Proof.
  unfold determinantOf, m4identity. simpl. intros E. ring_simplify in E. lra.
Defined.

Lemma raycast_records_on_world_ray_witness :
  exists new,
    snd (fst (raycast true plainWorld downRay [])) = [] ++ new /\
    Forall (fun r => 0 <= distance r /\ point r = rayAt (ray downRay) (distance r)) new.
Proof.
  apply (raycast_records_on_world_ray true plainWorld downRay []).
  - exact identity_isAffine.
  - exact identity_determinant.
  - unfold lengthSq, dot. simpl. ring.
Defined.

(* ================================================================= *)
(** ** A segment without extrusion direction *)

Lemma normalize_zero : normalize (mkV3 0 0 0) = mkV3 0 0 0.
Proof.
  unfold normalize, length3, lengthSq, dot. simpl.
  replace (0 * 0 + 0 * 0 + 0 * 0) with 0 by ring. rewrite sqrt_0.
  destruct (Req_dec_T 0 0) as [_|H]; [|exfalso; apply H; reflexivity].
  unfold divideScalar, multiplyScalar. apply v3_eq; simpl; field.
Qed.

(** X16.  When the bitangent at a segment's start vertex is the zero
    vector, the three points that span the segment's plane coincide in
    two, the plane's normal is normalised from the zero vector and stays
    zero, and [intersectPlane] answers the origin of the local ray: the
    segment is then tested at the ray origin instead of a point on the
    ribbon, so a segment of non-zero length is reported only if the ray
    starts within the threshold of the centreline. *)
Theorem segment_with_zero_bitangent_tested_at_ray_origin
    (m : SolidLineMesh) (g : BufferGeometry) (indices : list nat) (rc : Raycaster)
    (tmpRay : Ray) (lthSq : R) (i : nat) :
  readV3 (bitangent g) (indexAt indices i) = mkV3 0 0 0 ->
  pnormal (segmentPlane g indices i) = mkV3 0 0 0 /\
  intersectPlane tmpRay (segmentPlane g indices i) = Some (rayAt tmpRay 0) /\
  forall p, segmentHitAt m g indices rc tmpRay lthSq i p ->
    vx p = vx (origin tmpRay) /\ vy p = vy (origin tmpRay) /\ vz p = vz (origin tmpRay).
Proof.
  intros Hb.
  assert (Hn : pnormal (segmentPlane g indices i) = mkV3 0 0 0).
  { unfold segmentPlane, setFromCoplanarPoints. rewrite Hb. cbv zeta. cbn [pnormal].
    replace (cross _ _) with (mkV3 0 0 0)
      by (apply v3_eq; unfold cross, v3sub, v3add; simpl; ring).
    apply normalize_zero. }
  assert (Hc : pconstant (segmentPlane g indices i) = 0).
  { unfold segmentPlane, setFromCoplanarPoints in *. cbv zeta in *.
    cbn [pnormal pconstant] in *. rewrite Hn. unfold dot. simpl. ring. }
  assert (Hi : intersectPlane tmpRay (segmentPlane g indices i) = Some (rayAt tmpRay 0)).
  { unfold intersectPlane, distanceToPlane, planeDistanceToPoint. rewrite Hn, Hc.
    cbv zeta. unfold dot. simpl.
    destruct Req_dec_T as [_|H]; [|exfalso; apply H; ring].
    destruct Req_dec_T as [_|H]; [reflexivity|exfalso; apply H; ring]. }
  split; [exact Hn|]. split; [exact Hi|].
  intros p [Hp _]. rewrite Hi in Hp. injection Hp as <-.
  unfold rayAt, v3add, multiplyScalar. simpl. repeat split; ring.
Qed.

Lemma segment_with_zero_bitangent_tested_at_ray_origin_witness :
  pnormal (segmentPlane flatRibbonGeometry unitSegmentIndices 0) = mkV3 0 0 0 /\
  intersectPlane (ray downRay) (segmentPlane flatRibbonGeometry unitSegmentIndices 0)
  = Some (rayAt (ray downRay) 0) /\
  forall p, segmentHitAt (mesh plainWorld) flatRibbonGeometry unitSegmentIndices downRay
              (ray downRay) 1 0 p ->
    vx p = vx (origin (ray downRay)) /\ vy p = vy (origin (ray downRay)) /\
    vz p = vz (origin (ray downRay)).
Proof.
  apply (segment_with_zero_bitangent_tested_at_ray_origin (mesh plainWorld)
           flatRibbonGeometry unitSegmentIndices downRay (ray downRay) 1 0).
  reflexivity.
Defined.

(* ================================================================= *)
(** ** Picking a one-segment feature *)

(** X18.  On a mesh with identity world matrix, no feature data and no
    displaced path, whose index array holds a single segment, the only
    feature is tested against the sphere of radius [threshold] around the
    segment's start vertex.  A ray that stays farther than [threshold] from
    the start vertex therefore yields no record, wherever it crosses the
    segment. *)
Theorem one_segment_feature_picked_near_start_only
    (assertThrows : bool) (w : World) (rc : Raycaster) (ints : list Intersection)
    (g : BufferGeometry) (view : option DisplacedView) (indices : list nat) :
  lookupGeometry (heap w) (geometry (mesh w)) = Some (BufferGeom g view) ->
  index g = Some indices ->
  (0 < List.length indices <= step)%nat ->
  feature (mesh w) = None ->
  displacedPath w = None ->
  m_displacedGeometry (mesh w) <> Some (geometry (mesh w)) ->
  matrixWorld (mesh w) = m4identity ->
  let threshold := lineWidth (material (mesh w)) + outlineWidth (material (mesh w)) in
  threshold * threshold
  < distanceSqToPoint (ray rc) (fromBufferAttribute (position g) (indexAt indices 0)) ->
  snd (fst (raycast assertThrows w rc ints)) = ints.
Proof.
  intros Hl Hi Hlen Hf Hp Hd HM threshold Hfar.
  unfold raycast. rewrite Hp.
  rewrite (raycastImpl_single_feature assertThrows w rc ints g view indices Hl Hi Hf).
  cbv zeta.
  assert (Hr : (if geomRefEqb (geometry (mesh w)) (m_displacedGeometry (mesh w))
                then option_map displacementRange view else None) = None).
  { unfold geomRefEqb. destruct (m_displacedGeometry (mesh w)) as [d|]; [|reflexivity].
    destruct (Nat.eqb_spec (geometry (mesh w)) d) as [E|_]; [|reflexivity].
    exfalso. apply Hd. rewrite E. reflexivity. }
  rewrite Hr.
  rewrite (computeBoundingSphere_single _ _ _ _ _
             (fromBufferAttribute (position g) (indexAt indices 0)))
    by (apply sampledVertices_one_segment; simpl; lia).
  rewrite featureIntersect_reject; [reflexivity|].
  unfold inflatedSphere. rewrite HM, sphereApplyMatrix4_identity.
  unfold intersectsSphere. cbn [center radius].
  fold threshold. destruct Rle_dec as [Hle|_]; [exfalso; lra|reflexivity].
Qed.

Lemma one_segment_feature_picked_near_start_only_witness :
  snd (fst (raycast true longSegmentWorld farEndRay [])) = [].
Proof.
  apply (one_segment_feature_picked_near_start_only true longSegmentWorld farEndRay []
           _ None unitSegmentIndices eq_refl eq_refl).
  - unfold step. simpl. lia.
  - reflexivity.
  - reflexivity.
  - discriminate.
  - reflexivity.
  - change (ray farEndRay) with (mkRay (mkV3 4 0 5) (mkV3 0 0 (-1))).
    rewrite distanceSqToPoint_down by (simpl; lra). simpl. lra.
Defined.

(* ================================================================= *)
(** ** The records of a raycast, feature by feature *)

Lemma segmentStarts_stride (b e j : nat) :
  In j (segmentStarts b e) <-> exists k, j = (b + 6 * k)%nat /\ (j < e)%nat.
Proof.
  split.
  - intros H. apply segmentStarts_In in H. destruct H as [Hr [k ->]].
    exists k. split; [reflexivity|lia].
  - intros [k [-> Hlt]].
    destruct (segmentStarts_as_map (e - b) b e (Nat.le_refl _)) as [E B].
    rewrite E. apply in_map_iff. exists k. split; [reflexivity|].
    apply in_seq. unfold step in *. lia.
Qed.






(* ================================================================= *)
(** ** The local threshold *)



(* ================================================================= *)
(** ** Segments of zero length *)

(** When start and end coincide, two of the three points that span the
    segment's plane coincide and the plane degenerates: normal and constant
    are zero. *)
Lemma zero_length_plane (g : BufferGeometry) (indices : list nat) (i : nat) :
  segmentStart g indices i = segmentEnd g indices i ->
  pnormal (segmentPlane g indices i) = mkV3 0 0 0 /\
  pconstant (segmentPlane g indices i) = 0.
Proof.
  intros E.
  assert (Hn : pnormal (segmentPlane g indices i) = mkV3 0 0 0).
  { unfold segmentPlane, setFromCoplanarPoints. rewrite <- E. cbv zeta. cbn [pnormal].
    replace (cross _ _) with (mkV3 0 0 0)
      by (apply v3_eq; unfold cross, v3sub, v3add; simpl; ring).
    apply normalize_zero. }
  split; [exact Hn|].
  unfold segmentPlane, setFromCoplanarPoints in *. cbv zeta in *.
  cbn [pnormal pconstant] in *. rewrite Hn. unfold dot. simpl. ring.
Qed.

(** [Ray.intersectPlane] on a degenerate plane answers the origin of the
    ray: the denominator is zero, the distance of the origin to the plane is
    zero, and the ray is taken to lie in the plane. *)
Lemma intersectPlane_degenerate (r : Ray) (pl : Plane) :
  pnormal pl = mkV3 0 0 0 -> pconstant pl = 0 ->
  intersectPlane r pl = Some (origin r).
Proof.
  intros Hn Hc. unfold intersectPlane, distanceToPlane, planeDistanceToPoint.
  rewrite Hn, Hc. cbv zeta. unfold dot. simpl.
  destruct Req_dec_T as [_|H]; [|exfalso; apply H; ring].
  destruct Req_dec_T as [_|H]; [|exfalso; apply H; ring].
  f_equal. unfold rayAt, v3add, multiplyScalar. apply v3_eq; simpl; ring.
Qed.

(** On a segment of zero length the closest point is NaN. *)
Lemma closestPointToPoint_zero_length (a p : Vector3) :
  closestPointToPoint (mkLine3 a a) p true = None.
Proof.
  unfold closestPointToPoint, closestPointToPointParameter. cbv zeta. cbn [lstart lend].
  destruct Req_dec_T as [_|H]; [reflexivity|].
  exfalso. apply H. unfold dot, v3sub. simpl. ring.
Qed.

Lemma zero_length_segment_hit (m : SolidLineMesh) (g : BufferGeometry) (indices : list nat)
    (rc : Raycaster) (tmpRay : Ray) (lthSq : R) (i : nat) :
  segmentStart g indices i = segmentEnd g indices i ->
  near rc <= distanceTo (origin (ray rc)) (applyMatrix4 (origin tmpRay) (matrixWorld m))
    <= far rc ->
  segmentHitAt m g indices rc tmpRay lthSq i (origin tmpRay).
Proof.
  intros E Hnf. destruct (zero_length_plane g indices i E) as [Hn Hc].
  unfold segmentHitAt. split; [apply intersectPlane_degenerate; assumption|].
  split; [|exact Hnf].
  unfold passesWidthTest. rewrite <- E, closestPointToPoint_zero_length. exact I.
Qed.

Lemma distanceTo_self (p : Vector3) : distanceTo p p = 0.
Proof. unfold distanceTo. rewrite distanceToSquared_self. apply sqrt_0. Qed.

(* ================================================================= *)
(** ** The zero-length segment of [pointSegmentWorld] *)

Lemma pointSegment_sphere (n : Vector3) :
  computeBoundingSphere (position pointSegmentGeometry) pointSegmentIndices 0 12 n None
  = mkSphere (mkV3 10 0 0) 10.
Proof.
  unfold computeBoundingSphere, sampledBox.
  change (sampledVertices (position pointSegmentGeometry) pointSegmentIndices 0 12)
    with [mkV3 0 0 0; mkV3 20 0 0].
  cbn [fold_left expandByPoint makeEmpty].
  replace (Box _ _) with (Box (mkV3 0 0 0) (mkV3 20 0 0))
    by (f_equal; apply v3_eq; simpl; rminmax; lra).
  replace (getCenter (Box (mkV3 0 0 0) (mkV3 20 0 0))) with (mkV3 10 0 0)
    by (unfold getCenter, isEmpty; simpl; rdec; apply v3_eq; simpl; lra).
  f_equal. unfold maxRadiusSqFrom. cbn [fold_left].
  replace (distanceToSquared (mkV3 10 0 0) (mkV3 0 0 0)) with 100
    by (unfold distanceToSquared; simpl; ring).
  replace (distanceToSquared (mkV3 10 0 0) (mkV3 20 0 0)) with 100
    by (unfold distanceToSquared; simpl; ring).
  replace (Rmax 0 100) with 100 by (unfold Rmax; rdec; lra).
  rewrite Rmax_same.
  replace 100 with (10 * 10) by ring. apply sqrt_square. lra.
Qed.

Lemma asideRay_meets_pointSegment_sphere (t : R) :
  0 <= t ->
  intersectsSphere (ray asideRay)
    (inflatedSphere (mesh pointSegmentWorld) (mkSphere (mkV3 10 0 0) 10) t) = true.
Proof.
  intros Ht. unfold inflatedSphere.
  change (matrixWorld (mesh pointSegmentWorld)) with m4identity.
  rewrite sphereApplyMatrix4_identity.
  change (ray asideRay) with (mkRay (mkV3 10 5 5) (mkV3 0 0 (-1))).
  rewrite intersectsSphere_down by (simpl; lra).
  simpl. destruct Rle_dec as [|Hn]; [reflexivity|]. exfalso. apply Hn. nra.
Qed.

(** The ray stays at least 5 away from the x axis, on which both segments
    lie. *)
Lemma asideRay_far_from_axis (t x : R) :
  25 <= distanceToSquared (rayAt (ray asideRay) t) (mkV3 x 0 0).
Proof.
  unfold distanceToSquared, rayAt, v3add, multiplyScalar. simpl.
  pose proof (Rle_0_sqr (0 * t + 10 - x)) as H1.
  pose proof (Rle_0_sqr (-1 * t + 5 - 0)) as H2. unfold Rsqr in *. lra.
Qed.

Lemma pointSegment_centerline (i : nat) (s : R) :
  In i [0; 6]%nat ->
  exists x, centerlinePoint pointSegmentGeometry pointSegmentIndices i s = mkV3 x 0 0.
Proof.
  intros [<-|[<-|[]]]; eexists; unfold centerlinePoint, segmentStart, segmentEnd;
    apply v3_eq; simpl; [reflexivity|ring|ring|reflexivity|ring|ring].
Qed.

(** The first segment, of length 20, is not reported: the width test
    rejects it. *)
Lemma pointSegment_first_segment_missed (threshold lthSq : R) :
  lthSq < 25 ->
  segmentRecords (mesh pointSegmentWorld) pointSegmentGeometry pointSegmentIndices
    asideRay (ray asideRay) threshold lthSq 0 = [].
Proof.
  intros Hl.
  destruct (segmentRecords _ _ _ _ _ _ _ _) as [|r rs] eqn:E; [reflexivity|exfalso].
  assert (Hin : In r (segmentRecords (mesh pointSegmentWorld) pointSegmentGeometry
                        pointSegmentIndices asideRay (ray asideRay) threshold lthSq 0))
    by (rewrite E; left; reflexivity).
  apply segmentRecords_In in Hin. destruct Hin as [p [[Hp [Hw _]] _]].
  destruct (intersectPlane_on_ray _ _ _ Hp) as [t [Ht [-> _]]].
  unfold passesWidthTest in Hw.
  destruct (closestPointToPoint _ _ true) as [c|] eqn:Ec.
  - destruct (closest_on_centerline _ _ _ _ _ Ec) as [s [_ Es]].
    destruct (pointSegment_centerline 0 s) as [x Ex]; [simpl; auto|].
    rewrite Es, Ex in Hw.
    pose proof (asideRay_far_from_axis t x). lra.
  - unfold closestPointToPoint, closestPointToPointParameter in Ec. cbv zeta in Ec.
    cbn [lstart lend] in Ec.
    destruct Req_dec_T as [E0|_]; [|discriminate].
    unfold dot, v3sub, segmentStart, segmentEnd in E0. simpl in E0. lra.
Qed.

Lemma pointSegment_records :
  snd (fst (raycast true pointSegmentWorld asideRay []))
  = [mkIntersection 0 (mkV3 10 5 5) 6 7].
Proof.
  unfold raycast.
  change (displacedPath pointSegmentWorld) with (@None (BufferGeometry * DataTexture)).
  cbv iota.
  rewrite (raycastImpl_single_feature true pointSegmentWorld asideRay []
             pointSegmentGeometry None pointSegmentIndices eq_refl eq_refl eq_refl).
  cbv zeta.
  change (if geomRefEqb _ _ then _ else _) with (@None DisplacementRange).
  change (List.length pointSegmentIndices) with 12%nat.
  rewrite pointSegment_sphere.
  change (matrixWorld (mesh pointSegmentWorld)) with m4identity.
  rewrite getInverse_identity.
  rewrite rayApplyMatrix4_identity by (unfold lengthSq, dot; simpl; ring).
  rewrite featureIntersect_pass
    by (apply asideRay_meets_pointSegment_sphere; simpl; lra).
  cbn [snd app].
  change (segmentStarts 0 12) with [0; 6]%nat. cbn [flat_map].
  rewrite pointSegment_first_segment_missed
    by (unfold localThresholdOf; simpl; lra).
  rewrite app_nil_r. cbn [app].
  rewrite (segmentRecords_hit _ _ _ _ _ _ _ _ (origin (ray asideRay))).
  - change (matrixWorld (mesh pointSegmentWorld)) with m4identity.
    rewrite applyMatrix4_identity, distanceTo_self. reflexivity.
  - apply zero_length_segment_hit; [reflexivity|].
    change (matrixWorld (mesh pointSegmentWorld)) with m4identity.
    rewrite applyMatrix4_identity, distanceTo_self. simpl. lra.
Qed.

(** C3, the code at the failing input.  The only feature of
    [pointSegmentWorld] has two segments; the one at index position 6 starts
    and ends at the vertex (20, 0, 0).  The ray [asideRay] meets the
    feature's inflated sphere, so the feature passes the pre-rejection, and
    the local threshold squared is 1.  Every point of the ray is at a
    squared distance of 25 or more from the vertex, so the ray's closest
    approach to the segment exceeds the threshold; the plane of the segment
    is degenerate and the local ray "meets" it in the ray origin, at a
    squared distance of 150 from the vertex.  The closest point computed by
    [Line3.closestPointToPoint] is NaN, the test [distSq > localThresholdSq]
    is false, and [raycast] reports the segment, at the ray origin and at
    distance 0.  It is the only record: the proper segment at position 0 is
    rejected by the width test. *)
Theorem raycast_reports_zero_length_segment :
  let m := mesh pointSegmentWorld in
  let g := pointSegmentGeometry in
  let indices := pointSegmentIndices in
  let threshold := lineWidth (material m) + outlineWidth (material m) in
  let localThresholdSq := localThresholdOf m threshold * localThresholdOf m threshold in
  let tmpRay := rayApplyMatrix4 (ray asideRay) (getInverse (matrixWorld m)) in
  index g = Some indices /\
  segmentStart g indices 6 = mkV3 20 0 0 /\
  segmentEnd g indices 6 = mkV3 20 0 0 /\
  localThresholdSq = 1 /\
  tmpRay = ray asideRay /\
  intersectsSphere (ray asideRay)
    (inflatedSphere m (testedSphere m g None indices 0) threshold) = true /\
  intersectPlane tmpRay (segmentPlane g indices 6) = Some (mkV3 10 5 5) /\
  distanceToSquared (mkV3 10 5 5) (mkV3 20 0 0) = 150 /\
  (forall t s, 0 <= t -> 0 <= s <= 1 ->
     localThresholdSq < distanceToSquared (rayAt tmpRay t) (centerlinePoint g indices 6 s)) /\
  closestPointToPoint (mkLine3 (segmentStart g indices 6) (segmentEnd g indices 6))
    (mkV3 10 5 5) true = None /\
  snd (fst (raycast true pointSegmentWorld asideRay []))
  = [mkIntersection 0 (mkV3 10 5 5) 6 7].
Proof.
  cbv zeta.
  assert (Hth : localThresholdOf (mesh pointSegmentWorld)
                  (lineWidth (material (mesh pointSegmentWorld))
                   + outlineWidth (material (mesh pointSegmentWorld)))
                * localThresholdOf (mesh pointSegmentWorld)
                    (lineWidth (material (mesh pointSegmentWorld))
                     + outlineWidth (material (mesh pointSegmentWorld))) = 1)
    by (unfold localThresholdOf; simpl; field).
  assert (Hray : rayApplyMatrix4 (ray asideRay)
                   (getInverse (matrixWorld (mesh pointSegmentWorld))) = ray asideRay).
  { change (matrixWorld (mesh pointSegmentWorld)) with m4identity.
    rewrite getInverse_identity.
    apply rayApplyMatrix4_identity. unfold lengthSq, dot. simpl. ring. }
  split; [reflexivity|]. split; [reflexivity|]. split; [reflexivity|].
  split; [exact Hth|]. split; [exact Hray|]. split.
  { unfold testedSphere, sphereOfFeature. cbn [cachedVolumes mesh pointSegmentWorld worldOf
      meshOf feature List.length Nat.ltb Nat.leb].
    change (featureRange _ _ 0) with (0%nat, 12%nat). cbn [fst snd].
    change (if geomRefEqb _ _ then _ else _) with (@None DisplacementRange).
    rewrite pointSegment_sphere.
    apply asideRay_meets_pointSegment_sphere. simpl. lra. }
  split.
  { rewrite Hray.
    destruct (zero_length_plane pointSegmentGeometry pointSegmentIndices 6 eq_refl)
      as [Hn Hc].
    apply (intersectPlane_degenerate (ray asideRay) _ Hn Hc). }
  split; [unfold distanceToSquared; simpl; ring|].
  split.
  { intros t s _ _. rewrite Hth, Hray.
    destruct (pointSegment_centerline 6 s) as [x ->]; [simpl; auto|].
    pose proof (asideRay_far_from_axis t x). lra. }
  split; [apply closestPointToPoint_zero_length|].
  exact pointSegment_records.
Qed.

(* ================================================================= *)
(** ** The displaced segment of [raisedWorld] *)

Lemma raised_substituted :
  substituteGeometry raisedWorld raisedGeometry raisedMap = (raisedActiveWorld, 1%nat).
Proof. reflexivity. Qed.

Lemma raised_displaced_vertex (i : nat) (x : R) :
  fromBufferAttribute (position raisedGeometry) i = mkV3 x 0 0 ->
  readV3 (normal raisedGeometry) i = mkV3 0 0 1 ->
  fromBufferAttribute (position raisedDisplacedGeometry) i = mkV3 x 0 150.
Proof.
  intros Hp Hn. unfold raisedDisplacedGeometry. cbn [position fromBufferAttribute].
  cbn [position] in Hp. rewrite Hp, Hn. apply v3_eq; simpl; ring.
Qed.

(** The sphere [raycastImpl] computes for the feature on the displaced path:
    the box over the displaced start vertex (0, 0, 150), moved by 100 and by
    200 along the normal. *)
Lemma raised_sphere :
  computeBoundingSphere (position raisedDisplacedGeometry) unitSegmentIndices 0 6
    (mkV3 0 0 1) (Some (mkRange 100 200))
  = mkSphere (mkV3 0 0 300) 50.
Proof.
  unfold computeBoundingSphere, sampledBox.
  rewrite sampledVertices_one_segment by (unfold step; lia).
  rewrite (raised_displaced_vertex _ 0) by reflexivity.
  cbv zeta. cbn [fold_left expandByPoint makeEmpty translate union rmin rmax].
  replace (Box _ _) with (Box (mkV3 0 0 250) (mkV3 0 0 350))
    by (f_equal; apply v3_eq; simpl; rminmax; lra).
  unfold getBoundingSphere, getCenter, getSize, isEmpty. simpl. rdec.
  f_equal; [apply v3_eq; simpl; lra|].
  unfold length3, lengthSq, dot, v3sub. simpl.
  replace ((0 - 0) * (0 - 0) + (0 - 0) * (0 - 0) + (350 - 250) * (350 - 250))
    with (100 * 100) by ring.
  rewrite sqrt_square by lra. lra.
Qed.

(** The sphere of the undisplaced feature under the same range: the box
    over the undisplaced start vertex (0, 0, 0), moved by 100 and by 200
    along the normal. *)
Lemma raised_sphere_from_base :
  computeBoundingSphere (position raisedGeometry) unitSegmentIndices 0 6
    (mkV3 0 0 1) (Some (mkRange 100 200))
  = mkSphere (mkV3 0 0 150) 50.
Proof.
  unfold computeBoundingSphere, sampledBox.
  rewrite sampledVertices_one_segment by (unfold step; lia).
  change (fromBufferAttribute (position raisedGeometry) (indexAt unitSegmentIndices 0))
    with (mkV3 0 0 0).
  cbv zeta. cbn [fold_left expandByPoint makeEmpty translate union rmin rmax].
  replace (Box _ _) with (Box (mkV3 0 0 100) (mkV3 0 0 200))
    by (f_equal; apply v3_eq; simpl; rminmax; lra).
  unfold getBoundingSphere, getCenter, getSize, isEmpty. simpl. rdec.
  f_equal; [apply v3_eq; simpl; lra|].
  unfold length3, lengthSq, dot, v3sub. simpl.
  replace ((0 - 0) * (0 - 0) + (0 - 0) * (0 - 0) + (200 - 100) * (200 - 100))
    with (100 * 100) by ring.
  rewrite sqrt_square by lra. lra.
Qed.

(** [raisedRay] starts below the sphere and points away from it. *)
Lemma raisedRay_misses_sphere (t : R) :
  0 <= t <= 1 ->
  intersectsSphere (ray raisedRay)
    (inflatedSphere (mesh raisedActiveWorld) (mkSphere (mkV3 0 0 300) 50) t) = false.
Proof.
  intros Ht. unfold inflatedSphere.
  change (matrixWorld (mesh raisedActiveWorld)) with m4identity.
  rewrite sphereApplyMatrix4_identity.
  unfold intersectsSphere, distanceSqToPoint, dot, v3sub. simpl.
  destruct Rlt_dec as [_|Hn]; [|exfalso; apply Hn; lra].
  unfold distanceToSquared. simpl.
  destruct Rle_dec as [H|_]; [exfalso; nra|reflexivity].
Qed.

(** The feature loop of [raycastImpl] on the displaced segment. *)
Lemma raised_loop (tmpRay : Ray) (lthSq : R) :
  fold_left
    (featureStep (mesh raisedActiveWorld) raisedDisplacedGeometry unitSegmentIndices
       raisedRay tmpRay
       (lineWidth (material (mesh raisedActiveWorld))
        + outlineWidth (material (mesh raisedActiveWorld)))
       lthSq (featureStartsOf (mesh raisedActiveWorld))
       (readV3 (normal raisedDisplacedGeometry) 0)
       (if geomRefEqb (geometry (mesh raisedActiveWorld))
                      (m_displacedGeometry (mesh raisedActiveWorld))
        then option_map displacementRange (Some (mkView 0%nat raisedMap (mkRange 100 200)))
        else None))
    (seq 0 (List.length (featureStartsOf (mesh raisedActiveWorld))))
    (cachedVolumes (mesh raisedActiveWorld), ([], []))
  = ([mkSphere (mkV3 0 0 300) 50], ([], [])).
Proof.
  change (featureStartsOf (mesh raisedActiveWorld)) with [0%nat].
  change (cachedVolumes (mesh raisedActiveWorld)) with (@nil Sphere).
  change (if geomRefEqb _ _ then _ else _) with (Some (mkRange 100 200)).
  change (readV3 (normal raisedDisplacedGeometry) 0) with (mkV3 0 0 1).
  cbn [List.length seq fold_left].
  rewrite featureStep_computed by (simpl; lia). cbv zeta.
  change (featureRange [0%nat] (List.length unitSegmentIndices) 0) with (0%nat, 6%nat).
  cbn [fst snd app nth]. rewrite raised_sphere.
  rewrite featureIntersect_reject; [reflexivity|].
  apply raisedRay_misses_sphere. simpl. lra.
Qed.

Lemma raised_raycast :
  cachedVolumes (mesh (fst (fst (raycast true raisedWorld raisedRay []))))
  = [mkSphere (mkV3 0 0 300) 50] /\
  snd (fst (raycast true raisedWorld raisedRay [])) = [].
Proof.
  unfold raycast.
  change (displacedPath raisedWorld) with (Some (raisedGeometry, raisedMap)).
  cbv iota beta. rewrite raised_substituted.
  rewrite (raycastImpl_loop true raisedActiveWorld raisedRay [] raisedDisplacedGeometry
             (Some (mkView 0%nat raisedMap (mkRange 100 200))) unitSegmentIndices
             eq_refl eq_refl).
  cbv zeta. rewrite raised_loop. split; reflexivity.
Qed.

(** A ray pointing straight down meets a plane that faces along z at the
    plane's height. *)
Lemma intersectPlane_down_level (ox oy oz h s : R) (pl : Plane) :
  pnormal pl = mkV3 0 0 s -> pconstant pl = - (h * s) ->
  s <> 0 -> h <= oz ->
  intersectPlane (mkRay (mkV3 ox oy oz) (mkV3 0 0 (-1))) pl = Some (mkV3 ox oy h).
Proof.
  intros Hn Hc Hs Ho. unfold intersectPlane, distanceToPlane. rewrite Hn, Hc.
  unfold dot. simpl.
  destruct Req_dec_T as [E|_]; [exfalso; apply Hs; lra|].
  assert (Et : - (ox * 0 + oy * 0 + oz * s + - (h * s)) / (0 * 0 + 0 * 0 + s * -1) = oz - h)
    by (field; exact Hs).
  rewrite Et. destruct Rle_dec as [_|Hn']; [|exfalso; apply Hn'; lra].
  f_equal. unfold rayAt, v3add, multiplyScalar. apply v3_eq; simpl; ring.
Qed.

(** The ray does hit the displaced segment, at the point (1, 0, 150) of its
    centreline. *)
Lemma raisedRay_hits_displaced_segment (lthSq : R) :
  0 <= lthSq ->
  segmentHitAt (mesh raisedActiveWorld) raisedDisplacedGeometry unitSegmentIndices
    raisedRay (ray raisedRay) lthSq 0 (mkV3 1 0 150).
Proof.
  intros Hl.
  assert (Ha : segmentStart raisedDisplacedGeometry unitSegmentIndices 0 = mkV3 0 0 150)
    by (apply raised_displaced_vertex; reflexivity).
  assert (Hb : segmentEnd raisedDisplacedGeometry unitSegmentIndices 0 = mkV3 4 0 150)
    by (apply raised_displaced_vertex; reflexivity).
  unfold segmentHitAt. split; [|split].
  - apply (intersectPlane_down_level 1 0 155 150 (-4 / Rabs (-4))).
    + unfold segmentPlane, setFromCoplanarPoints. rewrite Ha, Hb. cbv zeta. cbn [pnormal].
      change (readV3 (bitangent raisedDisplacedGeometry) (indexAt unitSegmentIndices 0))
        with (mkV3 0 1 0).
      replace (cross _ _) with (mkV3 0 0 (-4))
        by (apply v3_eq; unfold cross, v3sub, v3add; simpl; ring).
      apply normalize_z. lra.
    + unfold segmentPlane, setFromCoplanarPoints. rewrite Ha, Hb. cbv zeta.
      cbn [pnormal pconstant].
      change (readV3 (bitangent raisedDisplacedGeometry) (indexAt unitSegmentIndices 0))
        with (mkV3 0 1 0).
      replace (cross _ _) with (mkV3 0 0 (-4))
        by (apply v3_eq; unfold cross, v3sub, v3add; simpl; ring).
      rewrite normalize_z by lra. unfold dot. simpl. ring.
    + replace (Rabs (-4)) with 4 by (rewrite Rabs_left; lra). lra.
    + lra.
  - unfold passesWidthTest. rewrite Ha, Hb.
    replace (mkV3 1 0 150)
      with (v3add (multiplyScalar (v3sub (mkV3 4 0 150) (mkV3 0 0 150)) (1 / 4))
                  (mkV3 0 0 150))
      by (apply v3_eq; simpl; lra).
    rewrite closestPointToPoint_on_line, distanceToSquared_self;
      [exact Hl|intros [= E]; lra|lra].
  - change (matrixWorld (mesh raisedActiveWorld)) with m4identity.
    rewrite applyMatrix4_identity.
    change (origin (ray raisedRay)) with (mkV3 1 0 155).
    rewrite (distanceTo_vertical 1 0 155 150) by lra. simpl. lra.
Qed.

Lemma not_inSphere_below (c p : Vector3) (r : R) :
  vx p = vx c -> vy p = vy c -> vz p < vz c - r -> 0 <= r ->
  ~ inSphere (mkSphere c r) p.
Proof.
  intros Hx Hy Hz Hr H. unfold inSphere, distanceTo in H. cbn [center radius] in H.
  assert (Hd : r * r < distanceToSquared c p).
  { unfold distanceToSquared. rewrite Hx, Hy. cbv zeta. nra. }
  pose proof (sqrt_lt_1_alt (r * r) (distanceToSquared c p)) as Hs.
  rewrite sqrt_square in Hs by exact Hr.
  assert (0 <= r * r) by nra. lra.
Qed.

(** C5, the code at the failing input.  The mesh of [raisedWorld] has one
    segment from (0, 0, 0) to (4, 0, 0), normals along z, a displacement map
    that samples to 150 everywhere and the displacement range (100, 200).
    [raycast] takes the displaced path, and [raycastImpl] hands
    [computeBoundingSphere] the position attribute of the active geometry,
    the displaced one, together with the range.  The sampled vertex is
    therefore the displaced vertex (0, 0, 150), not the undisplaced
    (0, 0, 0), and the cached sphere has centre (0, 0, 300) and radius 50,
    where the box over the undisplaced vertex gives centre (0, 0, 150) and
    radius 50.  The cached sphere contains neither the sampled vertex moved
    by [range.min] nor moved by [range.max] along the normal, nor the
    displaced vertex itself.  The ray [raisedRay] meets the displaced
    segment at (1, 0, 150), within the threshold and within [near, far],
    but misses the sphere: [raycast] returns no record. *)
Theorem raycast_displaces_feature_sphere_twice :
  let g := raisedGeometry in
  let indices := unitSegmentIndices in
  let range := m_getDisplacementRange (mesh raisedWorld) in
  let n := readV3 (normal g) 0 in
  let w1 := fst (substituteGeometry raisedWorld raisedGeometry raisedMap) in
  let m1 := mesh w1 in
  let threshold := lineWidth (material m1) + outlineWidth (material m1) in
  let result := raycast true raisedWorld raisedRay [] in
  displacedPath raisedWorld = Some (g, raisedMap) /\
  lookupGeometry (heap w1) (geometry m1)
  = Some (BufferGeom raisedDisplacedGeometry (Some (mkView 0%nat raisedMap range))) /\
  range = mkRange 100 200 /\
  n = mkV3 0 0 1 /\
  sampledVertices (position g) indices 0 6 = [mkV3 0 0 0] /\
  sampledVertices (position raisedDisplacedGeometry) indices 0 6 = [mkV3 0 0 150] /\
  getBoundingSphere
    (union (translate (sampledBox (position g) indices 0 6) (multiplyScalar n (rmin range)))
           (translate (sampledBox (position g) indices 0 6) (multiplyScalar n (rmax range))))
  = mkSphere (mkV3 0 0 150) 50 /\
  cachedVolumes (mesh (fst (fst result))) = [mkSphere (mkV3 0 0 300) 50] /\
  ~ inSphere (mkSphere (mkV3 0 0 300) 50)
      (v3add (mkV3 0 0 0) (multiplyScalar n (rmin range))) /\
  ~ inSphere (mkSphere (mkV3 0 0 300) 50)
      (v3add (mkV3 0 0 0) (multiplyScalar n (rmax range))) /\
  ~ inSphere (mkSphere (mkV3 0 0 300) 50) (mkV3 0 0 150) /\
  rayApplyMatrix4 (ray raisedRay) (getInverse (matrixWorld m1)) = ray raisedRay /\
  segmentHitAt m1 raisedDisplacedGeometry indices raisedRay (ray raisedRay)
    (localThresholdOf m1 threshold * localThresholdOf m1 threshold) 0 (mkV3 1 0 150) /\
  snd (fst result) = [].
Proof.
  cbv zeta. rewrite raised_substituted. cbn [fst].
  destruct raised_raycast as [Hc Hr].
  split; [reflexivity|]. split; [reflexivity|]. split; [reflexivity|].
  split; [reflexivity|]. split; [reflexivity|].
  split.
  { rewrite sampledVertices_one_segment by (unfold step; lia).
    rewrite (raised_displaced_vertex _ 0) by reflexivity. reflexivity. }
  split; [exact raised_sphere_from_base|].
  split; [exact Hc|].
  split; [apply not_inSphere_below; simpl; lra|].
  split; [apply not_inSphere_below; simpl; lra|].
  split; [apply not_inSphere_below; simpl; lra|].
  split.
  { change (matrixWorld (mesh raisedActiveWorld)) with m4identity.
    rewrite getInverse_identity.
    apply rayApplyMatrix4_identity. unfold lengthSq, dot. simpl. ring. }
  split; [apply raisedRay_hits_displaced_segment, localThresholdSq_nonneg|].
  exact Hr.
Qed.

(* ================================================================= *)
(** ** Segments of non-zero length *)

Lemma clamped_parameter_minimal (D N s s0 : R) :
  0 < D -> 0 <= s <= 1 -> s0 = Rmax 0 (Rmin 1 (N / D)) ->
  0 <= (s - s0) * (D * (s + s0) - 2 * N).
Proof.
  intros HD Hs ->.
  assert (HN : N = N / D * D) by (field; lra).
  revert HN. generalize (N / D). intros t HN. rewrite HN.
  assert (Hcase : (t <= 0 /\ Rmax 0 (Rmin 1 t) = 0) \/
                  (1 <= t /\ Rmax 0 (Rmin 1 t) = 1) \/
                  (0 <= t <= 1 /\ Rmax 0 (Rmin 1 t) = t)).
  { unfold Rmax, Rmin. repeat destruct Rle_dec; lra. }
  destruct Hcase as [[Ht ->]|[[Ht ->]|[Ht ->]]].
  - replace ((s - 0) * (D * (s + 0) - 2 * (t * D))) with (D * (s * (s - 2 * t))) by ring.
    apply Rmult_le_pos; [lra|]. apply Rmult_le_pos; lra.
  - replace ((s - 1) * (D * (s + 1) - 2 * (t * D)))
      with (D * ((1 - s) * (2 * t - s - 1))) by ring.
    apply Rmult_le_pos; [lra|]. apply Rmult_le_pos; lra.
  - replace ((s - t) * (D * (s + t) - 2 * (t * D))) with (D * ((s - t) * (s - t))) by ring.
    apply Rmult_le_pos; [lra|]. apply (Rle_0_sqr (s - t)).
Qed.

Lemma dot_self_pos (a b : Vector3) : a <> b -> 0 < dot (v3sub b a) (v3sub b a).
Proof.
  intros Hab.
  assert (H0 : 0 <= dot (v3sub b a) (v3sub b a)).
  { unfold dot, v3sub. simpl.
    pose proof (Rle_0_sqr (vx b - vx a)). pose proof (Rle_0_sqr (vy b - vy a)).
    pose proof (Rle_0_sqr (vz b - vz a)). unfold Rsqr in *. lra. }
  destruct (Req_dec_T (dot (v3sub b a) (v3sub b a)) 0) as [E|N]; [|lra].
  exfalso. apply Hab. unfold dot, v3sub in E. simpl in E.
  destruct (sumsq3_zero _ _ _ E) as [Hx [Hy Hz]]. apply v3_eq; lra.
Qed.

Lemma closestPointToPoint_minimal (a b p : Vector3) :
  a <> b ->
  exists c, closestPointToPoint (mkLine3 a b) p true = Some c /\ closestOnSegment a b p c.
Proof.
  intros Hab. pose proof (dot_self_pos a b Hab) as HD.
  unfold closestPointToPoint, closestPointToPointParameter. cbv zeta. cbn [lstart lend].
  destruct Req_dec_T as [E|_]; [lra|].
  eexists. split; [reflexivity|].
  set (N := dot (v3sub b a) (v3sub p a)) in *.
  set (D := dot (v3sub b a) (v3sub b a)) in *.
  remember (Rmax 0 (Rmin 1 (N / D))) as s0 eqn:Es0.
  split.
  - exists s0. split; [|reflexivity]. subst s0. unfold Rmax, Rmin.
    repeat destruct Rle_dec; lra.
  - intros s Hs.
    pose proof (clamped_parameter_minimal D N s s0 HD Hs Es0) as Hkey.
    apply Rge_le, Rminus_ge, Rle_ge.
    replace (distanceToSquared p (v3add (multiplyScalar (v3sub b a) s) a)
             - distanceToSquared p (v3add (multiplyScalar (v3sub b a) s0) a))
      with ((s - s0) * (D * (s + s0) - 2 * N)); [exact Hkey|].
    subst N D. unfold distanceToSquared, dot, v3sub, v3add, multiplyScalar. simpl. ring.
Qed.

(** X20.  On a segment whose end points differ,
    [Line3.closestPointToPoint] with clamping returns a point of the
    segment that is at least as near to the given point as every other
    point of the segment. *)
Theorem closestPointToPoint_is_closest (a b p : Vector3) :
  a <> b ->
  exists c, closestPointToPoint (mkLine3 a b) p true = Some c /\ closestOnSegment a b p c.
Proof. exact (closestPointToPoint_minimal a b p). Qed.

Lemma closestPointToPoint_is_closest_witness :
  exists c, closestPointToPoint (mkLine3 (mkV3 0 0 0) (mkV3 1 0 0)) (mkV3 1 0 5) true = Some c /\
            closestOnSegment (mkV3 0 0 0) (mkV3 1 0 0) (mkV3 1 0 5) c.
Proof.
  apply (closestPointToPoint_is_closest (mkV3 0 0 0) (mkV3 1 0 0) (mkV3 1 0 5)).
  intros E. injection E as E. lra.
Defined.

(** On a segment of non-zero length the width test of the code is the test
    on any closest point of the segment. *)
Lemma passesWidthTest_closest (g : BufferGeometry) (indices : list nat) (lthSq : R)
    (i : nat) (p : Vector3) :
  segmentStart g indices i <> segmentEnd g indices i ->
  passesWidthTest g indices lthSq i p <->
  exists c, closestOnSegment (segmentStart g indices i) (segmentEnd g indices i) p c /\
            distanceToSquared p c <= lthSq.
Proof.
  intros Hab.
  destruct (closestPointToPoint_minimal (segmentStart g indices i)
              (segmentEnd g indices i) p Hab) as [c0 [E0 H0]].
  unfold passesWidthTest. rewrite E0. split.
  - intros H. exists c0. split; assumption.
  - intros [c [[[s [Hs ->]] _] Hc]]. destruct H0 as [_ Hmin].
    specialize (Hmin s Hs). lra.
Qed.

(** The records of one segment carry the segment's index position. *)
Lemma segmentRecords_index (m : SolidLineMesh) (g : BufferGeometry) (indices : list nat)
    (rc : Raycaster) (tmpRay : Ray) (threshold lthSq : R) (i : nat) (r : Intersection) :
  In r (segmentRecords m g indices rc tmpRay threshold lthSq i) -> iindex r = i.
Proof.
  intros H. apply segmentRecords_In in H. destruct H as [p [_ ->]]. reflexivity.
Qed.

(** What [featureIntersect] appends for a feature that passes the sphere
    test and whose segments all have non-zero length. *)
Lemma featureIntersect_proper_segments (m : SolidLineMesh) (g : BufferGeometry)
    (indices : list nat) (rc : Raycaster) (tmpRay : Ray) (threshold lthSq : R)
    (beginIdx endIdx : nat) (bSphere : Sphere) (st : Sinks) :
  intersectsSphere (ray rc) (inflatedSphere m bSphere threshold) = true ->
  (forall k, (beginIdx + 6 * k < endIdx)%nat ->
     segmentStart g indices (beginIdx + 6 * k)
     <> segmentEnd g indices (beginIdx + 6 * k)) ->
  exists new,
    snd (featureIntersect m g indices rc tmpRay threshold lthSq beginIdx endIdx bSphere st)
    = snd st ++ new /\
    (forall r,
       In r new <->
       exists k p c,
         (beginIdx + 6 * k < endIdx)%nat /\
         intersectPlane tmpRay (segmentPlane g indices (beginIdx + 6 * k)) = Some p /\
         closestOnSegment (segmentStart g indices (beginIdx + 6 * k))
                          (segmentEnd g indices (beginIdx + 6 * k)) p c /\
         distanceToSquared p c <= lthSq /\
         near rc <= distanceTo (origin (ray rc)) (applyMatrix4 p (matrixWorld m)) <= far rc /\
         r = mkIntersection (distanceTo (origin (ray rc)) (applyMatrix4 p (matrixWorld m)))
               (applyMatrix4 p (matrixWorld m)) (beginIdx + 6 * k) (meshId m)) /\
    (forall k,
       (beginIdx + 6 * k < endIdx)%nat ->
       (forall t s, 0 <= t -> 0 <= s <= 1 ->
          lthSq < distanceToSquared (rayAt tmpRay t)
                    (centerlinePoint g indices (beginIdx + 6 * k) s)) ->
       forall r, In r new -> iindex r <> (beginIdx + 6 * k)%nat).
Proof.
  intros Hs Hproper. eexists. split; [rewrite featureIntersect_pass by exact Hs; reflexivity|].
  split.
  - intros r. rewrite in_flat_map. split.
    + intros [i [Hi Hr]]. apply segmentStarts_stride in Hi. destruct Hi as [k [-> Hlt]].
      apply segmentRecords_In in Hr. destruct Hr as [p [[Hp [Hw Hnf]] ->]].
      apply (passesWidthTest_closest g indices lthSq _ p (Hproper k Hlt)) in Hw.
      destruct Hw as [c [Hc Hd]]. exists k, p, c.
      split; [exact Hlt|]. split; [exact Hp|]. split; [exact Hc|]. split; [exact Hd|].
      split; [exact Hnf|reflexivity].
    + intros [k [p [c [Hlt [Hp [Hc [Hd [Hnf ->]]]]]]]]. eexists. split.
      * apply segmentStarts_stride. exists k. split; [reflexivity|exact Hlt].
      * rewrite (segmentRecords_hit _ _ _ _ _ _ _ _ p); [left; reflexivity|].
        split; [exact Hp|]. split; [|exact Hnf].
        apply (passesWidthTest_closest g indices lthSq _ p (Hproper k Hlt)).
        exists c. split; assumption.
  - intros k Hlt Hfar r Hr Ei. apply in_flat_map in Hr. destruct Hr as [i [_ Hr]].
    pose proof (segmentRecords_index _ _ _ _ _ _ _ _ _ Hr) as Ei'.
    rewrite Ei in Ei'. subst i.
    apply segmentRecords_In in Hr. destruct Hr as [p [[Hp [Hw _]] _]].
    destruct (intersectPlane_on_ray _ _ _ Hp) as [t [Ht [-> _]]].
    apply (passesWidthTest_closest g indices lthSq _ _ (Hproper k Hlt)) in Hw.
    destruct Hw as [c [[[s [Hs01 ->]] _] Hd]].
    specialize (Hfar t s Ht Hs01). unfold centerlinePoint in Hfar. lra.
Qed.

(** X19.  For a feature that passes the sphere test and whose segments
    all have a start vertex different from the end vertex,
    [featureIntersect] appends to the caller's list exactly the records
    [{distance, world point, i, mesh}] of the index positions
    [i = beginIdx + 6k < endIdx] at which the local ray meets the plane
    through start, start + extrusion direction and end in a point [p], the
    squared distance from [p] to a closest point of the segment from start to
    end is at most [localThresholdSq], and the world-space distance from the
    ray origin to [p] is within [near, far].  A segment from all of whose
    points every point of the local ray is farther than the local threshold
    contributes no record. *)
Theorem featureIntersect_reports_proper_segments
    (m : SolidLineMesh) (g : BufferGeometry) (indices : list nat)
    (rc : Raycaster) (tmpRay : Ray) (threshold lthSq : R)
    (beginIdx endIdx : nat) (bSphere : Sphere) (st : Sinks) :
  intersectsSphere (ray rc) (inflatedSphere m bSphere threshold) = true ->
  (forall k, (beginIdx + 6 * k < endIdx)%nat ->
     segmentStart g indices (beginIdx + 6 * k)
     <> segmentEnd g indices (beginIdx + 6 * k)) ->
  exists new,
    snd (featureIntersect m g indices rc tmpRay threshold lthSq beginIdx endIdx bSphere st)
    = snd st ++ new /\
    (forall r,
       In r new <->
       exists k p c,
         (beginIdx + 6 * k < endIdx)%nat /\
         intersectPlane tmpRay (segmentPlane g indices (beginIdx + 6 * k)) = Some p /\
         closestOnSegment (segmentStart g indices (beginIdx + 6 * k))
                          (segmentEnd g indices (beginIdx + 6 * k)) p c /\
         distanceToSquared p c <= lthSq /\
         near rc <= distanceTo (origin (ray rc)) (applyMatrix4 p (matrixWorld m)) <= far rc /\
         r = mkIntersection (distanceTo (origin (ray rc)) (applyMatrix4 p (matrixWorld m)))
               (applyMatrix4 p (matrixWorld m)) (beginIdx + 6 * k) (meshId m)) /\
    (forall k,
       (beginIdx + 6 * k < endIdx)%nat ->
       (forall t s, 0 <= t -> 0 <= s <= 1 ->
          lthSq < distanceToSquared (rayAt tmpRay t)
                    (centerlinePoint g indices (beginIdx + 6 * k) s)) ->
       forall r, In r new -> iindex r <> (beginIdx + 6 * k)%nat).
Proof.
  exact (featureIntersect_proper_segments m g indices rc tmpRay threshold lthSq
           beginIdx endIdx bSphere st).
Qed.

Lemma featureIntersect_reports_proper_segments_witness :
  let m := mesh plainWorld in
  let g := unitSegmentGeometry (Some unitSegmentIndices) in
  let indices := unitSegmentIndices in
  let rc := downRay in
  exists new,
    snd (featureIntersect m g indices rc (ray rc) 1 1 0 6 (mkSphere (mkV3 0 0 0) 0) ([], []))
    = snd (@nil DebugEntry, @nil Intersection) ++ new /\
    (forall r,
       In r new <->
       exists k p c,
         (0 + 6 * k < 6)%nat /\
         intersectPlane (ray rc) (segmentPlane g indices (0 + 6 * k)) = Some p /\
         closestOnSegment (segmentStart g indices (0 + 6 * k))
                          (segmentEnd g indices (0 + 6 * k)) p c /\
         distanceToSquared p c <= 1 /\
         near rc <= distanceTo (origin (ray rc)) (applyMatrix4 p (matrixWorld m)) <= far rc /\
         r = mkIntersection (distanceTo (origin (ray rc)) (applyMatrix4 p (matrixWorld m)))
               (applyMatrix4 p (matrixWorld m)) (0 + 6 * k) (meshId m)) /\
    (forall k,
       (0 + 6 * k < 6)%nat ->
       (forall t s, 0 <= t -> 0 <= s <= 1 ->
          1 < distanceToSquared (rayAt (ray rc) t) (centerlinePoint g indices (0 + 6 * k) s)) ->
       forall r, In r new -> iindex r <> (0 + 6 * k)%nat).
Proof.
  apply (featureIntersect_reports_proper_segments (mesh plainWorld)
           (unitSegmentGeometry (Some unitSegmentIndices)) unitSegmentIndices
           downRay (ray downRay) 1 1 0 6 (mkSphere (mkV3 0 0 0) 0) ([], [])).
  - apply downRay_meets_unit_sphere. lra.
  - intros k Hk. assert (k = 0%nat) by lia. subst k.
    intros E. injection E as E. lra.
Defined.

(* ================================================================= *)
(** ** A zero-length segment, in general *)

(** X22.  A segment whose start and end vertex have the same position is
    reported by the segment loop of [featureIntersect] whatever the ray and
    the threshold, at the origin of the local ray, provided the world-space
    distance from the ray origin to that point is within [near, far]: its
    plane is degenerate, [intersectPlane] answers the ray origin, the
    closest point is NaN and the width test does not reject. *)
Theorem zero_length_segment_reported_at_ray_origin
    (m : SolidLineMesh) (g : BufferGeometry) (indices : list nat) (rc : Raycaster)
    (tmpRay : Ray) (threshold lthSq : R) (i : nat) :
  segmentStart g indices i = segmentEnd g indices i ->
  near rc <= distanceTo (origin (ray rc)) (applyMatrix4 (origin tmpRay) (matrixWorld m))
    <= far rc ->
  intersectPlane tmpRay (segmentPlane g indices i) = Some (origin tmpRay) /\
  closestPointToPoint (mkLine3 (segmentStart g indices i) (segmentEnd g indices i))
    (origin tmpRay) true = None /\
  segmentRecords m g indices rc tmpRay threshold lthSq i
  = [mkIntersection
       (distanceTo (origin (ray rc)) (applyMatrix4 (origin tmpRay) (matrixWorld m)))
       (applyMatrix4 (origin tmpRay) (matrixWorld m)) i (meshId m)].
Proof.
  intros E Hnf.
  destruct (zero_length_plane g indices i E) as [Hn Hc].
  split; [apply intersectPlane_degenerate; assumption|].
  split; [rewrite <- E; apply closestPointToPoint_zero_length|].
  apply segmentRecords_hit, zero_length_segment_hit; assumption.
Qed.

Lemma zero_length_segment_reported_at_ray_origin_witness :
  let m := mesh pointSegmentWorld in
  let g := pointSegmentGeometry in
  let indices := pointSegmentIndices in
  intersectPlane (ray asideRay) (segmentPlane g indices 6) = Some (origin (ray asideRay)) /\
  closestPointToPoint (mkLine3 (segmentStart g indices 6) (segmentEnd g indices 6))
    (origin (ray asideRay)) true = None /\
  segmentRecords m g indices asideRay (ray asideRay) 1 1 6
  = [mkIntersection
       (distanceTo (origin (ray asideRay))
          (applyMatrix4 (origin (ray asideRay)) (matrixWorld m)))
       (applyMatrix4 (origin (ray asideRay)) (matrixWorld m)) 6 (meshId m)].
Proof.
  apply (zero_length_segment_reported_at_ray_origin (mesh pointSegmentWorld)
           pointSegmentGeometry pointSegmentIndices asideRay (ray asideRay) 1 1 6).
  - reflexivity.
  - change (matrixWorld (mesh pointSegmentWorld)) with m4identity.
    rewrite applyMatrix4_identity, distanceTo_self. simpl. lra.
Defined.

(* ================================================================= *)
(** ** The sphere of a displacement range, for the attribute given *)

Lemma sampledVertices_stride (position : BufferAttribute) (indices : list nat)
    (beginIdx endIdx k : nat) :
  (beginIdx + 6 * k < endIdx)%nat ->
  In (fromBufferAttribute position (indexAt indices (beginIdx + 6 * k)))
     (sampledVertices position indices beginIdx endIdx).
Proof.
  intros H. unfold sampledVertices.
  apply (in_map (fun i => fromBufferAttribute position (indexAt indices i))).
  apply segmentStarts_stride. exists k. split; [reflexivity|exact H].
Qed.

(** X21.  With a displacement range, the sphere [computeBoundingSphere]
    returns contains, for every index position [beginIdx + 6k] below
    [endIdx], the vertex that the position attribute it is given holds at
    [indices[beginIdx + 6k]], moved by [normal * range.min] and moved by
    [normal * range.max]. *)
Theorem computeBoundingSphere_range_covers_translated_samples
    (position : BufferAttribute) (indices : list nat) (beginIdx endIdx : nat)
    (normal : Vector3) (range : DisplacementRange) (k : nat) :
  (beginIdx + 6 * k < endIdx)%nat ->
  let v := fromBufferAttribute position (indexAt indices (beginIdx + 6 * k)) in
  let s := computeBoundingSphere position indices beginIdx endIdx normal (Some range) in
  inSphere s (v3add v (multiplyScalar normal (rmin range))) /\
  inSphere s (v3add v (multiplyScalar normal (rmax range))).
Proof.
  intros Hk v s.
  assert (Hbox : inBox (sampledBox position indices beginIdx endIdx) v)
    by (apply fold_expand_In, sampledVertices_stride, Hk).
  subst s. unfold computeBoundingSphere. cbv zeta. split.
  - apply inBox_boundingSphere, inBox_union_l, inBox_translate, Hbox.
  - apply inBox_boundingSphere, inBox_union_r, inBox_translate, Hbox.
Qed.

Lemma computeBoundingSphere_range_covers_translated_samples_witness :
  let v := fromBufferAttribute cornerPosition (indexAt cornerIndices (0 + 6 * 1)) in
  let s := computeBoundingSphere cornerPosition cornerIndices 0 12 (mkV3 0 0 1)
             (Some (mkRange (-1) 3)) in
  inSphere s (v3add v (multiplyScalar (mkV3 0 0 1) (rmin (mkRange (-1) 3)))) /\
  inSphere s (v3add v (multiplyScalar (mkV3 0 0 1) (rmax (mkRange (-1) 3)))).
Proof.
  apply (computeBoundingSphere_range_covers_translated_samples cornerPosition cornerIndices
           0 12 (mkV3 0 0 1) (mkRange (-1) 3) 1).
  lia.
Defined.
